(** * Verification gate, job matcher and application dispatcher

    A shallow embedding of the decision logic of the interview platform:
    - [AnswerEvaluationService] (backend/services/answerEvaluationService.js),
    - [RAGService] (backend/services/ragService.js),
    - [EmailService.sendBatchApplications] (backend/services/emailService.js),
    together with the theorems that relate it to the written specification. *)

From Stdlib Require Import Ascii QArith Qround Qpower Lqa Sorted.
From stdpp Require Import gmap strings list pretty.

Local Open Scope Z_scope.

(** ** JavaScript numbers

    A JavaScript number is either [NaN], an infinity, or a finite value.
    Finite values are modelled as exact rationals. The services compute
    two kinds of quantities.
    - Sums of oracle scores and their quotient by an array length. Where
      the scores are integers, as the data model has them, the running
      total is exact in double precision (it stays far below 2^53 for
      any array a process can hold), and its quotient by the number of
      questions compares with 70 and rounds to the nearest integer as the
      exact quotient does. A sum of scores that are not integers is
      rounded by the code at every addition and is NOT given by the
      rational sum: what depends on the exact value of such a sum is
      stated for integer scores only.
    - Ratios of two array lengths scaled by 100. For arrays of fewer
      than 2^25 elements they compare with 40, and with each other, as
      the exact ratios do; the integer nearest to such a ratio depends on
      the double the code holds, which is modelled itself, by
      [binary64]. *)
Module JSNum.

Inductive num : Type :=
| NaN
| PInf
| NInf
| Fin (q : Q).

Definition of_Z (z : Z) : num := Fin (inject_Z z).

(** [x + y]. For finite values this is the exact sum: the double the code
    computes whenever both are integers of magnitude below 2^53 and so is
    their sum, which covers every running total of integer scores. *)
Definition add (x y : num) : num :=
  match x, y with
  | NaN, _ | _, NaN => NaN
  | PInf, NInf | NInf, PInf => NaN
  | PInf, _ | _, PInf => PInf
  | NInf, _ | _, NInf => NInf
  | Fin a, Fin b => Fin (a + b)
  end.

(** [x / n] where [n] is an array length (a non-negative integer, [+0]
    when the array is empty). *)
Definition div_len (x : num) (n : nat) : num :=
  match x with
  | NaN => NaN
  | PInf => PInf
  | NInf => NInf
  | Fin a =>
      match n with
      | O => match (a ?= 0)%Q with
             | Eq => NaN
             | Gt => PInf
             | Lt => NInf
             end
      | S _ => Fin (a / inject_Z (Z.of_nat n))
      end
  end.

(** [x >= y]; any comparison with [NaN] is [false]. *)
Definition geb (x y : num) : bool :=
  match x, y with
  | NaN, _ | _, NaN => false
  | PInf, _ => true
  | _, NInf => true
  | NInf, _ => false
  | Fin _, PInf => false
  | Fin a, Fin b => Qle_bool b a
  end.

(** [Math.min(x, y)] and [Math.max(x, y)]: [NaN] is contagious. *)
Definition min (x y : num) : num :=
  match x, y with
  | NaN, _ | _, NaN => NaN
  | NInf, _ | _, NInf => NInf
  | PInf, z | z, PInf => z
  | Fin a, Fin b => Fin (if Qle_bool a b then a else b)
  end.

Definition max (x y : num) : num :=
  match x, y with
  | NaN, _ | _, NaN => NaN
  | PInf, _ | _, PInf => PInf
  | NInf, z | z, NInf => z
  | Fin a, Fin b => Fin (if Qle_bool a b then b else a)
  end.

(** [Math.round(x)]: the integer nearest to [x], ties towards +infinity,
    i.e. [floor(x + 1/2)]. *)
Definition round (x : num) : num :=
  match x with
  | Fin a => Fin (inject_Z (Qfloor (a + (1 # 2))))
  | other => other
  end.

(** Equality of numbers as values ([NaN] is identified with itself here:
    this is equality of the model, not the [===] operator). *)
Definition eqv (x y : num) : Prop :=
  match x, y with
  | NaN, NaN | PInf, PInf | NInf, NInf => True
  | Fin a, Fin b => (a == b)%Q
  | _, _ => False
  end.

(** [lo <= x <= hi] for a finite [x]. *)
Definition within (lo hi : Q) (x : num) : Prop :=
  match x with
  | Fin a => (lo <= a)%Q /\ (a <= hi)%Q
  | _ => False
  end.

(** *** Double precision

    The value an arithmetic operation returns is the double nearest to
    its exact result, ties going to the double with an even significand.
    A double of the normal range is [m * 2^e] with [2^52 <= m < 2^53]. *)

(** The integer nearest to [x], ties to the even one. *)
Definition nearest_even (x : Q) : Z :=
  let f := Qfloor x in
  match (x - inject_Z f ?= 1 # 2)%Q with
  | Lt => f
  | Gt => f + 1
  | Eq => if Z.even f then f else f + 1
  end.

(** [floor(log2 q)] for [q > 0]: the difference of the bit lengths of
    numerator and denominator, or one less. *)
Definition ilog2 (q : Q) : Z :=
  let l := Z.log2 (Qnum q) - Z.log2 (Zpos (Qden q)) in
  if Qle_bool (2 ^ l) q then l else l - 1.

(** The double nearest to [q > 0]. *)
Definition nearest_double (q : Q) : Q :=
  let e := ilog2 q - 52 in
  (inject_Z (nearest_even (q / 2 ^ e)) * 2 ^ e)%Q.

(** The double nearest to [q], for [q] of the normal range (no overflow
    to an infinity, no subnormal result): the values rounded here are
    ratios of array lengths and their products with 100. *)
Definition binary64 (q : Q) : Q :=
  match (q ?= 0)%Q with
  | Eq => 0%Q
  | Gt => nearest_double q
  | Lt => (- nearest_double (- q))%Q
  end.

End JSNum.

Import JSNum.

(** ** Exceptions and the state threaded through asynchronous calls *)

Inductive Result (A : Type) : Type :=
| Ok (a : A)
| Throw (message : string).
Arguments Ok {A} a.
Arguments Throw {A} message.

(** A computation over a store [S] that either returns or throws. *)
Definition Eff (S A : Type) : Type := S -> Result A * S.

Definition ret {S A} (a : A) : Eff S A := fun s => (Ok a, s).
Definition throw {S A} (msg : string) : Eff S A := fun s => (Throw msg, s).
Definition bind {S A B} (m : Eff S A) (k : A -> Eff S B) : Eff S B :=
  fun s =>
    match m s with
    | (Ok a, s') => k a s'
    | (Throw msg, s') => (Throw msg, s')
    end.

Notation "x <- m ;; k" := (bind m (fun x => k))
  (at level 100, m at next level, right associativity).

(** ** backend/services/answerEvaluationService.js *)
Module AnswerEvaluationService.

(** A question as produced by the question generator. *)
Record Question : Type := {
  id : Z;
  skill : string;
  question : string;
  correct_answer : string;
  keywords : list string
}.

(** The prompt sent to the model. The template text is fixed; a prompt is
    determined by the four values interpolated into it. *)
Record Prompt : Type := {
  prompt_question : string;
  prompt_correct_answer : string;
  prompt_user_answer : string;
  prompt_keywords : string
}.

(** [keywords.join(', ')]. *)
Fixpoint join (sep : string) (l : list string) : string :=
  match l with
  | [] => ""
  | [s] => s
  | s :: rest => s +:+ sep +:+ join sep rest
  end.

(** The object obtained by [JSON.parse] of the model's reply. A numeric
    field holds the number arithmetic reads from it: [NaN] when the key is
    missing or its value is not numeric. *)
Record OracleReply : Type := {
  reply_score : num;
  reply_accuracy : num;
  reply_completeness : num;
  reply_clarity : num;
  reply_keyword_score : num;
  reply_verdict : string;
  reply_feedback : string;
  reply_strengths : list string;
  reply_improvements : list string
}.

(** The object returned by [evaluateAnswer]:
    [{...evaluation, passed: evaluation.score >= 70}]. *)
Record AnswerEvaluation : Type := {
  score : num;
  accuracy : num;
  completeness : num;
  clarity : num;
  keyword_score : num;
  verdict : string;
  feedback : string;
  strengths : list string;
  improvements : list string;
  passed : bool
}.

Record IndividualEvaluation : Type := {
  question_id : Z;
  ie_skill : string;
  ie_question : string;
  user_answer : string;
  evaluation : AnswerEvaluation
}.

Record Summary : Type := {
  passed_questions : nat;
  total_questions : nat;
  status : string
}.

Record EvaluationResult : Type := {
  is_verified : bool;
  average_score : num;
  total_score : num;
  passing_threshold : num;
  individual_evaluations : list IndividualEvaluation;
  summary : Summary
}.

Section WithOracle.

(** The external model. Its answer may depend on everything it was
    asked before (the log) and on the prompt; [inl msg] stands for any
    exception raised inside the [try] block of [evaluateAnswer]
    (transport failure, reply that is not JSON, ...). *)
Variable oracle : list Prompt -> Prompt -> string + OracleReply.

(** The store is the log of the prompts sent so far, oldest first. *)
Definition evaluateAnswer (question userAnswer correctAnswer : string)
    (keywords : list string) : Eff (list Prompt) AnswerEvaluation :=
  fun log =>
    let prompt := {| prompt_question := question;
                     prompt_correct_answer := correctAnswer;
                     prompt_user_answer := userAnswer;
                     prompt_keywords := join ", " keywords |} in
    match oracle log prompt with
    | inr evaluation =>
        let score' := JSNum.max (of_Z 0) (JSNum.min (of_Z 100) (reply_score evaluation)) in
        (Ok {| score := score';
               accuracy := reply_accuracy evaluation;
               completeness := reply_completeness evaluation;
               clarity := reply_clarity evaluation;
               keyword_score := reply_keyword_score evaluation;
               verdict := reply_verdict evaluation;
               feedback := reply_feedback evaluation;
               strengths := reply_strengths evaluation;
               improvements := reply_improvements evaluation;
               passed := JSNum.geb score' (of_Z 70) |},
         log ++ [prompt])
    | inl message =>
        (Throw ("Failed to evaluate answer: " +:+ message), log ++ [prompt])
    end.

(** The body of the [for] loop of [evaluateAllAnswers], run over the
    remaining (question, answer) pairs with the two accumulators
    [evaluations] and [totalScore]. *)
Fixpoint evaluateLoop (pairs : list (Question * string))
    (evaluations : list IndividualEvaluation) (totalScore : num)
    : Eff (list Prompt) (list IndividualEvaluation * num) :=
  match pairs with
  | [] => ret (evaluations, totalScore)
  | (q, answer) :: rest =>
      evaluation <- evaluateAnswer (question q) answer (correct_answer q) (keywords q) ;;
      evaluateLoop rest
        (evaluations ++ [{| question_id := id q;
                            ie_skill := skill q;
                            ie_question := question q;
                            user_answer := answer;
                            evaluation := evaluation |}])
        (JSNum.add totalScore (score evaluation))
  end.

Definition evaluateAllAnswers (questions : list Question) (userAnswers : list string)
    : Eff (list Prompt) EvaluationResult :=
  if negb (length questions =? length userAnswers)%nat then
    throw "Number of questions must match number of answers"
  else
    r <- evaluateLoop (combine questions userAnswers) [] (of_Z 0) ;;
    let '(evaluations, totalScore) := r in
    let averageScore := JSNum.div_len totalScore (length questions) in
    let passingThreshold := of_Z 70 in
    ret {| is_verified := JSNum.geb averageScore passingThreshold;
           average_score := JSNum.round averageScore;
           total_score := JSNum.round totalScore;
           passing_threshold := passingThreshold;
           individual_evaluations := evaluations;
           summary :=
             {| passed_questions :=
                  length (List.filter (fun e => passed (evaluation e)) evaluations);
                total_questions := length evaluations;
                status := if JSNum.geb averageScore passingThreshold
                          then "VERIFIED" else "NOT_VERIFIED" |} |}.

End WithOracle.

End AnswerEvaluationService.

(** ** JavaScript strings

    Strings are sequences of ASCII code units (the skill names, e-mail
    addresses and CSV cells the services handle); the functions below are
    the ECMAScript ones restricted to that range. *)
Module JSString.

Definition is_upper (c : ascii) : bool :=
  let n := Ascii.nat_of_ascii c in (65 <=? n)%nat && (n <=? 90)%nat.

Definition lower_char (c : ascii) : ascii :=
  if is_upper c then Ascii.ascii_of_nat (Ascii.nat_of_ascii c + 32) else c.

(** [s.toLowerCase()]. *)
Fixpoint toLowerCase (s : string) : string :=
  match s with
  | EmptyString => EmptyString
  | String c rest => String (lower_char c) (toLowerCase rest)
  end.

(** [s.includes(sub)]: [sub] occurs in [s] as a contiguous substring. *)
Fixpoint includes (s sub : string) : bool :=
  String.prefix sub s ||
  match s with
  | EmptyString => false
  | String _ rest => includes rest sub
  end.

(** White space and line terminators stripped by [trim]. *)
Definition is_space (c : ascii) : bool :=
  let n := Ascii.nat_of_ascii c in ((9 <=? n)%nat && (n <=? 13)%nat) || (n =? 32)%nat.

Definition is_empty (s : string) : bool :=
  match s with EmptyString => true | String _ _ => false end.

Fixpoint trimStart (s : string) : string :=
  match s with
  | EmptyString => EmptyString
  | String c rest => if is_space c then trimStart rest else s
  end.

Fixpoint trimEnd (s : string) : string :=
  match s with
  | EmptyString => EmptyString
  | String c rest =>
      let rest' := trimEnd rest in
      if is_space c && is_empty rest' then EmptyString else String c rest'
  end.

(** [s.trim()]. *)
Definition trim (s : string) : string := trimEnd (trimStart s).

(** [s.split(sep)] for a one-character separator: always at least one
    piece, the pieces never contain [sep]. *)
Fixpoint split (sep : ascii) (s : string) : list string :=
  match s with
  | EmptyString => [EmptyString]
  | String c rest =>
      if Ascii.eqb c sep then EmptyString :: split sep rest
      else match split sep rest with
           | piece :: pieces => String c piece :: pieces
           | [] => [String c EmptyString]
           end
  end.

(** [a || b] on strings: the empty string and [undefined] are falsy. *)
Definition or_default (a : option string) (b : string) : string :=
  match a with
  | Some (String c r) => String c r
  | _ => b
  end.

End JSString.

(** ** JavaScript arrays *)
Module JSArray.

Section Sort.
Context {A : Type}.
(** The comparator: a positive result puts its first argument after
    the second one. *)
Variable compareFn : A -> A -> Q.

Fixpoint insert_sorted (x : A) (l : list A) : list A :=
  match l with
  | [] => [x]
  | y :: rest =>
      if Qlt_le_dec 0 (compareFn x y) then y :: insert_sorted x rest
      else x :: y :: rest
  end.

(** [arr.sort(compareFn)]. ECMAScript requires the sort to be stable;
    for a comparator that is a total preorder this determines the
    result, which is the one computed by insertion from the right. *)
Fixpoint sort (l : list A) : list A :=
  match l with
  | [] => []
  | x :: rest => insert_sorted x (sort rest)
  end.
End Sort.

(** [arr.slice(0, end)] for an integer [end]: a negative [end] counts
    from the end of the array. *)
Definition slice0 {A : Type} (l : list A) (end_ : Z) : list A :=
  if end_ <? 0 then firstn (Z.to_nat (Z.max (Z.of_nat (length l) + end_) 0)) l
  else firstn (Z.to_nat end_) l.

End JSArray.

(** ** backend/services/ragService.js *)
Module RAGService.
Import JSString JSArray.

Record Job : Type := {
  id : nat;
  company_name : string;
  job_role : string;
  required_skills : list string;
  company_email : string;
  job_description : string;
  location : string;
  salary_range : string
}.

(** A CSV record as delivered by the parser: a column is absent when the
    header does not name it. *)
Record Row : Type := {
  row_company_name : option string;
  row_job_role : option string;
  row_required_skills : option string;
  row_company_email : option string;
  row_job_description : option string;
  row_location : option string;
  row_salary_range : option string
}.

(** What the parser does with a file that exists and can be read: it
    emits ['data'] for each row and then ['end']. The ['error'] handler
    is registered on the parser, which raises no error as it is set up
    here; a failure of the file stream feeding it does not reach that
    handler, and then the promise is never settled: such a run returns
    nothing and has no place in this model. *)
Inductive CsvStream : Type :=
| StreamEnd (rows : list Row).

(** The file system: [None] when [fs.existsSync] is false. *)
Definition FileSystem : Type := string -> option CsvStream.

(** The two fields of a [RAGService] instance. *)
Record Catalog : Type := {
  jobs : list Job;
  jobIndex : gmap nat Job
}.

(** [new RAGService()]. *)
Definition empty_catalog : Catalog := {| jobs := []; jobIndex := ∅ |}.

Definition _parseSkills (skillsString : option string) : list string :=
  match skillsString with
  | None | Some EmptyString => []
  | Some s =>
      List.filter (fun s => (0 <? String.length s)%nat)
                  (List.map trim (split ","%char s))
  end.

(** The ['data'] handler. *)
Definition on_data (this : Catalog) (row : Row) : Catalog :=
  let job := {| id := length (jobs this) + 1;
                company_name := or_default (row_company_name row) "";
                job_role := or_default (row_job_role row) "";
                required_skills := _parseSkills (row_required_skills row);
                company_email := or_default (row_company_email row) "";
                job_description := or_default (row_job_description row) "";
                location := or_default (row_location row) "";
                salary_range := or_default (row_salary_range row) "" |} in
  {| jobs := jobs this ++ [job];
     jobIndex := <[id job := job]> (jobIndex this) |}.

Definition loadJobsData (fs : FileSystem) (csvPath : string)
    : Eff Catalog (list Job) :=
  fun _ =>
    let this := {| jobs := []; jobIndex := ∅ |} in
    match fs csvPath with
    | None => (Throw ("Jobs CSV file not found: " +:+ csvPath), this)
    | Some (StreamEnd rows) =>
        let this := fold_left on_data rows this in
        (Ok (jobs this), this)
    end.

Definition getAllJobs (this : Catalog) : list Job := jobs this.

(** [null] is [None]. *)
Definition getJobById (this : Catalog) (jobId : nat) : option Job :=
  jobIndex this !! jobId.

(** The test of [skillsLower.some(...)] for one lower-cased required
    skill. *)
Definition some_contains (skillsLower : list string) (reqSkill : string) : bool :=
  existsb (fun cSkill => includes cSkill reqSkill || includes reqSkill cSkill)
          skillsLower.

Definition _calculateMatchScore (candidateSkills : list string) (job : Job) : Q :=
  if (length (required_skills job) =? 0)%nat then 0%Q
  else
    let skillsLower := List.map toLowerCase candidateSkills in
    let requiredLower := List.map toLowerCase (required_skills job) in
    let matches :=
      fold_left (fun matches reqSkill =>
                   if some_contains skillsLower reqSkill then (matches + 1)%nat
                   else matches)
                requiredLower 0%nat in
    (inject_Z (Z.of_nat matches) / inject_Z (Z.of_nat (length requiredLower)) * 100)%Q.

Definition _findMatchedSkills (candidateSkills : list string) (job : Job) : list string :=
  let skillsLower := List.map toLowerCase candidateSkills in
  fold_left (fun matched reqSkill =>
               if some_contains skillsLower (toLowerCase reqSkill)
               then matched ++ [reqSkill] else matched)
            (required_skills job) [].

(** An element of the intermediate [matches] array. [match_score] holds
    the exact value of [(matches / requiredLower.length) * 100]; the
    double the code holds is [computed_score] of it, below. *)
Record Match : Type := {
  job : Job;
  match_score : Q;
  matched_skills : list string
}.

(** The double that [(matches / requiredLower.length) * 100] evaluates
    to, from the exact value [score] of that expression: the quotient,
    which is [score / 100], is rounded to a double, and so is its product
    with 100. It never decreases when [score] grows, and for lists of
    fewer than 2^25 required skills two different scores remain two
    different doubles: the comparator of the sort and the test against
    40 then decide on the doubles as they do on the exact values. *)
Definition computed_score (score : Q) : Q :=
  binary64 (binary64 (score / 100) * 100).

(** An element of the returned [matched_jobs] array. *)
Record MatchedJob : Type := {
  mj_id : nat;
  mj_company_name : string;
  mj_job_role : string;
  mj_company_email : string;
  mj_location : string;
  mj_salary_range : string;
  mj_required_skills : list string;
  mj_match_score : Z;
  mj_matched_skills : list string;
  application_status : string
}.

(** The two shapes of object [retrieveMatchingJobs] returns. *)
Inductive MatchResult : Type :=
| NotVerified (matched_jobs : list MatchedJob) (message reason : string)
| Matches (matched_jobs : list MatchedJob) (total_matches : nat)
          (candidate_score : num) (verification_status : string).

(** [(a, b) => b.match_score - a.match_score]. *)
Definition by_score_desc (a b : Match) : Q := (match_score b - match_score a)%Q.

Definition to_matched_job (m : Match) : MatchedJob :=
  {| mj_id := id (job m);
     mj_company_name := company_name (job m);
     mj_job_role := job_role (job m);
     mj_company_email := company_email (job m);
     mj_location := location (job m);
     mj_salary_range := salary_range (job m);
     mj_required_skills := required_skills (job m);
     mj_match_score := Qfloor (computed_score (match_score m) + (1 # 2));
     mj_matched_skills := matched_skills m;
     application_status := "pending" |}.

(** [job => ({ job, match_score: ..., matched_skills: ... })]. *)
Definition to_match (candidateSkills : list string) (job : Job) : Match :=
  {| job := job;
     match_score := _calculateMatchScore candidateSkills job;
     matched_skills := _findMatchedSkills candidateSkills job |}.

(** The [matches] array after the [map] and the in-place [sort]. *)
Definition ranked (this : Catalog) (candidateSkills : list string) : list Match :=
  sort by_score_desc (List.map (to_match candidateSkills) (jobs this)).

(** [filteredMatches]. *)
Definition filteredMatches (this : Catalog) (candidateSkills : list string) : list Match :=
  List.filter (fun m => Qle_bool 40 (match_score m)) (ranked this candidateSkills).

Definition retrieveMatchingJobs (this : Catalog) (candidateSkills : list string)
    (evaluationResult : AnswerEvaluationService.EvaluationResult) (topK : Z)
    : Result MatchResult :=
  if (length (jobs this) =? 0)%nat then
    Throw "No jobs loaded. Call loadJobsData first."
  else if negb (AnswerEvaluationService.is_verified evaluationResult) then
    Ok (NotVerified [] "Candidate not verified. No job applications sent."
                    "verification_failed")
  else
    let filteredMatches := filteredMatches this candidateSkills in
    Ok (Matches (List.map to_matched_job (slice0 filteredMatches topK))
                (length filteredMatches)
                (AnswerEvaluationService.average_score evaluationResult)
                "VERIFIED").

End RAGService.

(** ** backend/routes/resumeRoutes.js, [POST /api/answers/evaluate] *)
Module AnswerRoutes.
Import AnswerEvaluationService.

Record DetailedResult : Type := {
  dr_question_id : Z;
  dr_skill : string;
  dr_score : num;
  dr_verdict : string;
  dr_feedback : string;
  dr_strengths : list string;
  dr_improvements : list string
}.

Inductive Response : Type :=
| Status400 (error : string)
| Status500 (error : string)
| Status200 (verification_status : string) (is_verified : bool)
            (average_score passing_threshold : num) (summary : Summary)
            (detailed_results : list DetailedResult).

(** The module-level [evaluationCache] and the log of prompts. *)
Record Store : Type := {
  evaluationCache : gmap string EvaluationResult;
  prompts : list Prompt
}.

Record Body : Type := {
  questions : list Question;
  answers : list string;
  sessionId : option string
}.

Definition truthy (s : option string) : bool :=
  match s with
  | Some (String _ _) => true
  | _ => false
  end.

Section WithOracle.
Variable oracle : list Prompt -> Prompt -> string + OracleReply.
(** [process.env.GEMINI_API_KEY]. *)
Variable geminiApiKey : option string.

Definition post_evaluate (body : Body) (st : Store) : Response * Store :=
  if negb (length (questions body) =? length (answers body))%nat then
    (Status400 "Number of questions must match number of answers", st)
  else if negb (truthy geminiApiKey) then
    (Status500 "GEMINI_API_KEY not configured", st)
  else
    match evaluateAllAnswers oracle (questions body) (answers body) (prompts st) with
    | (Ok evaluationResult, log) =>
        let cache :=
          match sessionId body with
          | Some (String c r) =>
              <[String c r := evaluationResult]> (evaluationCache st)
          | _ => evaluationCache st
          end in
        (Status200 (status (summary evaluationResult))
                   (is_verified evaluationResult)
                   (average_score evaluationResult)
                   (passing_threshold evaluationResult)
                   (summary evaluationResult)
                   (List.map (fun e =>
                                {| dr_question_id := question_id e;
                                   dr_skill := ie_skill e;
                                   dr_score := score (evaluation e);
                                   dr_verdict := verdict (evaluation e);
                                   dr_feedback := feedback (evaluation e);
                                   dr_strengths := strengths (evaluation e);
                                   dr_improvements := improvements (evaluation e) |})
                             (individual_evaluations evaluationResult)),
         {| evaluationCache := cache; prompts := log |})
    | (Throw message, log) =>
        (Status500 message, {| evaluationCache := evaluationCache st; prompts := log |})
    end.
End WithOracle.

(** [GET /api/answers/evaluation/:sessionId], for session ids that were
    posted as strings. *)
Inductive GetResponse : Type :=
| Get404 (error : string)
| Get200 (evaluation : EvaluationResult).

Definition get_evaluation (sessionId : string) (st : Store) : GetResponse :=
  match evaluationCache st !! sessionId with
  | Some evaluation => Get200 evaluation
  | None => Get404 "Evaluation result not found"
  end.

End AnswerRoutes.

(** ** backend/services/emailService.js *)
Module EmailService.
Import RAGService.

Record SmtpConfig : Type := {
  service : string;
  email : string;
  password : string;
  senderName : string
}.

Record EmailData : Type := {
  to : string;
  candidateName : string;
  jobRole : string;
  companyName : string
}.

(** The message handed to the transporter. The HTML body is a fixed
    template around the company name, the job role and the candidate
    name. *)
Record Mail : Type := {
  mail_from : string;
  mail_to : string;
  mail_subject : string;
  mail_html_company : string;
  mail_html_role : string;
  mail_html_candidate : string;
  mail_attachment_filename : string;
  mail_attachment_content : string
}.

Record SendResult : Type := {
  success : bool;
  messageId : string;
  sr_to : string;
  sr_timestamp : string
}.

Record CandidateInfo : Type := { name : string }.

(** An element of the array returned by [sendBatchApplications]; the
    [timestamp] key exists on sent records, the [error] key on failed
    ones. *)
Record ApplicationRecord : Type := {
  company : string;
  ar_jobRole : string;
  ar_email : string;
  ar_status : string;
  ar_timestamp : option string;
  ar_error : option string
}.

Definition dquote : string := String (Ascii.ascii_of_nat 34) EmptyString.

(** [try { body } catch (error) { handler(error.message) }]. *)
Definition try_catch {S A} (body : Eff S A) (handler : string -> Eff S A) : Eff S A :=
  fun s =>
    match body s with
    | (Ok a, s') => (Ok a, s')
    | (Throw message, s') => handler message s'
    end.

(** [job.key] for an entry of the [matchedJobs] array. The route checks
    that [matchedJobs] is a non-empty array and nothing about its
    entries: an entry is a job object as the matcher builds it, or [null]
    ([None]). Reading a property of [null] raises a TypeError, with the
    message Node words it with. *)
Definition prop {S A} (job : option MatchedJob) (key : string) (field : MatchedJob -> A)
    : Eff S A :=
  match job with
  | Some job => ret (field job)
  | None => throw ("Cannot read properties of null (reading '" +:+ key +:+ "')")
  end.

Section WithTransport.
Variable smtpConfig : SmtpConfig.
(** [transporter.sendMail]: given the mails attempted so far and the
    mail to send, an error message or the message id. *)
Variable sendMail : list Mail -> Mail -> string + string.
(** [new Date().toISOString()] read after the given attempts. *)
Variable now : list Mail -> string.

(** The store is the list of mails handed to the transporter, oldest
    first. *)
Definition sendApplicationEmail (emailData : EmailData) (resumePDF : string)
    : Eff (list Mail) SendResult :=
  fun outbox =>
    let mail := {| mail_from := dquote +:+ senderName smtpConfig +:+ dquote
                                +:+ " <" +:+ email smtpConfig +:+ ">";
                   mail_to := to emailData;
                   mail_subject := "Application for " +:+ jobRole emailData +:+ " Position";
                   mail_html_company := companyName emailData;
                   mail_html_role := jobRole emailData;
                   mail_html_candidate := candidateName emailData;
                   mail_attachment_filename := candidateName emailData +:+ "_Resume.pdf";
                   mail_attachment_content := resumePDF |} in
    match sendMail outbox mail with
    | inr info =>
        (Ok {| success := true;
               messageId := info;
               sr_to := to emailData;
               sr_timestamp := now (outbox ++ [mail]) |},
         outbox ++ [mail])
    | inl message =>
        (Throw ("Failed to send email to " +:+ to emailData +:+ ": " +:+ message),
         outbox ++ [mail])
    end.

(** The [for ... of] loop of [sendBatchApplications] over the remaining
    entries, with the accumulator [results]. The properties of [job] are
    read where the code reads them: in the argument of
    [sendApplicationEmail], in the record pushed after a send, and in the
    record pushed by the [catch] block, which no [try] surrounds. The
    one-second pause between two sends has no effect on the values
    computed. *)
Fixpoint sendLoop (matchedJobs : list (option MatchedJob)) (candidateInfo : CandidateInfo)
    (resumePDF : string) (results : list ApplicationRecord)
    : Eff (list Mail) (list ApplicationRecord) :=
  match matchedJobs with
  | [] => ret results
  | job :: rest =>
      results' <-
        try_catch
          (address <- prop job "company_email" mj_company_email ;;
           role <- prop job "job_role" mj_job_role ;;
           employer <- prop job "company_name" mj_company_name ;;
           result <- sendApplicationEmail {| to := address;
                                             candidateName := name candidateInfo;
                                             jobRole := role;
                                             companyName := employer |} resumePDF ;;
           employer <- prop job "company_name" mj_company_name ;;
           role <- prop job "job_role" mj_job_role ;;
           address <- prop job "company_email" mj_company_email ;;
           ret (results ++ [{| company := employer;
                               ar_jobRole := role;
                               ar_email := address;
                               ar_status := "sent";
                               ar_timestamp := Some (sr_timestamp result);
                               ar_error := None |}]))
          (fun message =>
             employer <- prop job "company_name" mj_company_name ;;
             role <- prop job "job_role" mj_job_role ;;
             address <- prop job "company_email" mj_company_email ;;
             ret (results ++ [{| company := employer;
                                 ar_jobRole := role;
                                 ar_email := address;
                                 ar_status := "failed";
                                 ar_timestamp := None;
                                 ar_error := Some message |}])) ;;
      sendLoop rest candidateInfo resumePDF results'
  end.

Definition sendBatchApplications (matchedJobs : list (option MatchedJob))
    (candidateInfo : CandidateInfo) (resumePDF : string)
    : Eff (list Mail) (list ApplicationRecord) :=
  sendLoop matchedJobs candidateInfo resumePDF [].

End WithTransport.

End EmailService.

(** ** Concrete collaborators and inputs used in examples *)
Module Fixtures.
Import AnswerEvaluationService.

(** A reply whose only interesting field is the score. *)
Definition reply_with_score (s : num) : OracleReply :=
  {| reply_score := s;
     reply_accuracy := of_Z 0; reply_completeness := of_Z 0;
     reply_clarity := of_Z 0; reply_keyword_score := of_Z 0;
     reply_verdict := "pass"; reply_feedback := "";
     reply_strengths := []; reply_improvements := [] |}.

(** A model that answers its n-th call with the n-th entry of a script
    and fails once the script is exhausted. *)
Definition scripted (script : list (string + OracleReply))
    (log : list Prompt) (_ : Prompt) : string + OracleReply :=
  nth (length log) script (inl "no reply").

Definition scores (l : list Z) : list (string + OracleReply) :=
  List.map (fun z => inr (reply_with_score (of_Z z))) l.

Definition ask (n : Z) : Question :=
  {| id := n; skill := "SQL"; question := "What is a join?";
     correct_answer := "A combination of rows."; keywords := ["join"; "rows"] |}.

(** A reply whose total disagrees with its four parts. *)
Definition inconsistent_reply : OracleReply :=
  {| reply_score := of_Z 90;
     reply_accuracy := of_Z 10; reply_completeness := of_Z 10;
     reply_clarity := of_Z 10; reply_keyword_score := of_Z 5;
     reply_verdict := "pass"; reply_feedback := "";
     reply_strengths := []; reply_improvements := [] |}.

End Fixtures.

(** ** backend/services/resumeService.js *)
Module ResumeService.
Import JSString.

(** The parts of a resume the service reads. A field is [None] when the
    key is missing or, for the array-valued ones other than [experience],
    when its value is not an array. *)
Record PersonalInfo : Type := {
  name : option string;
  email : option string;
  phone : option string;
  location : option string;
  linkedin : option string;
  github : option string
}.

Record SkillsSection : Type := {
  technical : option (list string);
  soft : option (list string);
  languages : option (list string)
}.

Record Experience : Type := {
  title : option string;
  description : option (list string)
}.

Record Project : Type := {
  technologies : option (list string)
}.

(** The value of [resume.experience]. [extractExperienceLevel] reads its
    [length] without asking whether it is an array, so a value that is
    neither falsy nor an array is kept with that property: [Some n] when
    [length] is the non-negative integer [n] (a string of [n] characters,
    for one), [None] when [length * 1.5] is [NaN] (a number, [true], an
    object without a numeric [length]). *)
Inductive ExperienceField : Type :=
| NoExperience
| ExperienceArray (entries : list Experience)
| ExperienceOther (len : option nat).

(** The entries seen where the code asks for an array first. *)
Definition entries_of (field : ExperienceField) : list Experience :=
  match field with
  | ExperienceArray entries => entries
  | _ => []
  end.

Record Resume : Type := {
  personal_info : option PersonalInfo;
  skills : option SkillsSection;
  experience : ExperienceField;
  projects : option (list Project);
  summary : option string
}.

(** The object returned by [extractSkills]. *)
Record Skills : Type := {
  sk_technical : list string;
  sk_soft : list string;
  sk_languages : list string;
  sk_all : list string
}.

Record CandidateInfo : Type := {
  ci_name : string;
  ci_email : string;
  ci_phone : string;
  ci_location : string;
  ci_linkedin : string;
  ci_github : string
}.

Definition commonTechs : list string :=
  ["JavaScript"; "Python"; "Java"; "C++"; "C#"; "PHP"; "Ruby"; "Go"; "Rust";
   "React"; "Angular"; "Vue"; "Node.js"; "Express"; "Django"; "Flask";
   "MongoDB"; "PostgreSQL"; "MySQL"; "Redis"; "Elasticsearch";
   "AWS"; "Azure"; "GCP"; "Docker"; "Kubernetes"; "Jenkins";
   "Git"; "REST"; "GraphQL"; "SQL"; "HTML"; "CSS"; "Sass"].

Definition _extractSkillsFromText (text : string) : list string :=
  fold_left (fun foundSkills tech =>
               if includes (toLowerCase text) (toLowerCase tech)
               then foundSkills ++ [tech] else foundSkills)
            commonTechs [].

(** [set.add(x)] on a set kept in insertion order. *)
Definition set_add (set : list string) (x : string) : list string :=
  if existsb (String.eqb x) set then set else set ++ [x].

(** [[...new Set(arr)]]: the first occurrences, in order. *)
Definition spread_set (arr : list string) : list string := fold_left set_add arr [].

(** [s && s.trim()] as a condition. *)
Definition not_blank (s : string) : bool :=
  negb (is_empty s) && negb (is_empty (trim s)).

(** The skills pushed onto [skills.technical] by the two [forEach] loops:
    first those mined from every experience description, then every
    project's technologies. *)
Definition pushed_skills (r : Resume) : list string :=
  flat_map (fun exp =>
              match description exp with
              | Some d => _extractSkillsFromText (AnswerEvaluationService.join " " d)
              | None => []
              end)
           (entries_of (experience r))
  ++ flat_map (fun project => default [] (technologies project))
              (default [] (projects r)).

(** [extractSkills(resume)]. When [resume.skills.technical] is an array,
    [skills.technical] is that very array and the pushes extend it in
    place: the second component is the resume as the call leaves it. *)
Definition extractSkills (resume : option Resume) : Skills * option Resume :=
  match resume with
  | None => ({| sk_technical := []; sk_soft := []; sk_languages := []; sk_all := [] |}, None)
  | Some r =>
      let declared := s ← skills r; technical s in
      let technical_array := default [] declared ++ pushed_skills r in
      let soft_array := default [] (s ← skills r; soft s) in
      let languages_array := default [] (s ← skills r; languages s) in
      let technical' := List.filter not_blank (spread_set technical_array) in
      let soft' := List.filter not_blank (spread_set soft_array) in
      let languages' := List.filter not_blank (spread_set languages_array) in
      let r' :=
        match skills r, declared with
        | Some s, Some _ =>
            {| personal_info := personal_info r;
               skills := Some {| technical := Some technical_array;
                                 soft := soft s; languages := languages s |};
               experience := experience r; projects := projects r;
               summary := summary r |}
        | _, _ => r
        end in
      ({| sk_technical := technical'; sk_soft := soft'; sk_languages := languages';
          sk_all := technical' ++ soft' ++ languages' |},
       Some r')
  end.

(** [resume.experience.length] for a truthy [resume.experience], as a
    number. *)
Definition length_of (field : ExperienceField) : num :=
  match field with
  | ExperienceArray entries => of_Z (Z.of_nat (length entries))
  | ExperienceOther (Some n) => of_Z (Z.of_nat n)
  | _ => NaN
  end.

(** [len * 1.5]: exact, the length being an integer. *)
Definition times_1_5 (len : num) : num :=
  match len with
  | Fin n => Fin (n * (3 # 2))
  | other => other
  end.

Definition extractExperienceLevel (resume : option Resume) : string :=
  match resume with
  | None => "junior"
  | Some r =>
      match experience r with
      | NoExperience => "junior"
      | field =>
          let experienceYears := times_1_5 (length_of field) in
          if JSNum.geb experienceYears (of_Z 7) then "senior"
          else if JSNum.geb experienceYears (of_Z 3) then "mid"
          else "junior"
      end
  end.

Definition roleKeywords : list string :=
  ["developer"; "engineer"; "analyst"; "architect"; "manager";
   "designer"; "data scientist"; "devops"; "qa"; "lead"; "director"].

Definition extractJobRoles (resume : option Resume) : list string :=
  match resume with
  | None => []
  | Some r =>
      let roles :=
        fold_left (fun roles exp =>
                     match title exp with
                     | Some (String c t) => set_add roles (toLowerCase (String c t))
                     | _ => roles
                     end)
                  (entries_of (experience r)) [] in
      match summary r with
      | Some (String c t) =>
          let summaryLower := toLowerCase (String c t) in
          fold_left (fun roles keyword =>
                       if includes summaryLower keyword then set_add roles keyword
                       else roles)
                    roleKeywords roles
      | _ => roles
      end
  end.

Definition extractCandidateInfo (resume : option Resume) : CandidateInfo :=
  let info := r ← resume; personal_info r in
  {| ci_name := or_default (i ← info; name i) "Unknown";
     ci_email := or_default (i ← info; email i) "";
     ci_phone := or_default (i ← info; phone i) "";
     ci_location := or_default (i ← info; location i) "";
     ci_linkedin := or_default (i ← info; linkedin i) "";
     ci_github := or_default (i ← info; github i) "" |}.

(** The truth value of [validateResume(resume)]. *)
Definition validateResume (resume : option Resume) : bool :=
  match resume with
  | Some r => bool_decide (is_Some (personal_info r)) && bool_decide (is_Some (skills r))
  | None => false
  end.

End ResumeService.

(** ** backend/services/questionGenerationService.js *)
Module QuestionGenerationService.
Import JSArray.

(** An element of the array the model replies with. A field is [None]
    when the key is missing ([keywords]: when the value is not an array). *)
Record GeneratedQuestion : Type := {
  id : option Z;
  skill : option string;
  question : option string;
  correct_answer : option string;
  difficulty : option string;
  keywords : option (list string)
}.

(** The prompt: the fixed template around the joined skills, the
    experience level and its description. *)
Record Prompt : Type := {
  prompt_skills : string;
  prompt_level : string;
  prompt_difficulty : string
}.

(** [difficultyMap[experienceLevel] || 'intermediate'], for a level that
    is not the name of a member every object inherits. *)
Definition difficulty_of (experienceLevel : string) : string :=
  if String.eqb experienceLevel "junior" then "basic to intermediate"
  else if String.eqb experienceLevel "mid" then "intermediate to advanced"
  else if String.eqb experienceLevel "senior" then "advanced to expert"
  else "intermediate".

Section WithOracle.

(** The external model: the parsed reply, or [inl msg] for any exception
    raised inside the [try] block. *)
Variable oracle : list Prompt -> Prompt -> string + list GeneratedQuestion.

(** [skills] is [None] when the argument is [undefined] or [null]. *)
Definition generateQuestions (skills : option (list string)) (experienceLevel : string)
    : Eff (list Prompt) (list GeneratedQuestion) :=
  match skills with
  | None | Some [] => throw "No skills provided for question generation"
  | Some skills =>
      fun log =>
        let selectedSkills := slice0 skills 5 in
        let prompt := {| prompt_skills := AnswerEvaluationService.join ", " selectedSkills;
                         prompt_level := experienceLevel;
                         prompt_difficulty := difficulty_of experienceLevel |} in
        match oracle log prompt with
        | inr questions => (Ok (slice0 questions 5), log ++ [prompt])
        | inl message =>
            (Throw ("Failed to generate questions: " +:+ message), log ++ [prompt])
        end
  end.

End WithOracle.

Definition truthy (s : option string) : bool :=
  match s with
  | Some (String _ _) => true
  | _ => false
  end.

Definition validateQuestions (questions : list GeneratedQuestion) : bool :=
  (length questions =? 5)%nat &&
  forallb (fun q =>
             bool_decide (is_Some (id q)) && truthy (skill q) && truthy (question q)
             && truthy (correct_answer q) && truthy (difficulty q)
             && bool_decide (is_Some (keywords q)))
          questions.

End QuestionGenerationService.

(** ** backend/routes/questionRoutes.js, [POST /api/questions/generate] *)
Module QuestionRoutes.
Import QuestionGenerationService.

(** An element of [questionsForUI]: the reference answer and the keywords
    are not copied. *)
Record QuestionForUI : Type := {
  ui_id : option Z;
  ui_skill : option string;
  ui_question : option string;
  ui_difficulty : option string
}.

Record Body : Type := {
  skills : option (list string);
  experienceLevel : option string
}.

Inductive Response : Type :=
| Status400 (error : string)
| Status500 (error : string)
| Status200 (questions : list QuestionForUI) (total_questions : nat)
            (skills_assessed : list (option string)) (experience_level : string).

(** [[...new Set(arr)]] on values that may be [undefined]. *)
Definition spread_set (arr : list (option string)) : list (option string) :=
  fold_left (fun set x => if bool_decide (x ∈ set) then set else set ++ [x]) arr [].

Section WithOracle.
Variable oracle : list Prompt -> Prompt -> string + list GeneratedQuestion.
Variable geminiApiKey : option string.

Definition post_generate (body : Body) (log : list Prompt) : Response * list Prompt :=
  let experienceLevel := default "mid"%string (experienceLevel body) in
  match skills body with
  | None | Some [] => (Status400 "skills array is required and must not be empty", log)
  | Some skills =>
      if negb (truthy geminiApiKey) then (Status500 "GEMINI_API_KEY not configured", log)
      else
        match generateQuestions oracle (Some skills) experienceLevel log with
        | (Ok questions, log') =>
            if negb (validateQuestions questions) then
              (Status500 "Generated questions do not meet validation criteria", log')
            else
              (Status200 (List.map (fun q => {| ui_id := id q; ui_skill := skill q;
                                                ui_question := question q;
                                                ui_difficulty := difficulty q |})
                                   questions)
                         (length questions)
                         (spread_set (List.map skill questions))
                         experienceLevel,
               log')
        | (Throw message, log') => (Status500 message, log')
        end
  end.

End WithOracle.

End QuestionRoutes.

(** ** backend/routes/jobRoutes.js *)
Module JobRoutes.
Import RAGService EmailService.

(** The body of the request. [matchedJobs] is [None] unless it is an
    array; its entries are not examined by the route. *)
Record ApplyBody : Type := {
  resume : option ResumeService.Resume;
  matchedJobs : option (list (option MatchedJob));
  candidateInfo : option CandidateInfo;
  smtpConfig : option SmtpConfig
}.

Inductive ApplyResponse : Type :=
| Apply400 (error : string)
| Apply500 (error : string)
| Apply200 (message : string) (applications : list ApplicationRecord)
           (total_sent total_failed : nat) (companies_applied : list string).

Section WithTransport.
(** [emailService.generateResumePDF]: the PDF, or the error it rejects
    with. *)
Variable generateResumePDF : ResumeService.Resume -> string + string.
Variable sendMail : list Mail -> Mail -> string + string.
Variable now : list Mail -> string.

(** [POST /api/jobs/apply]. *)
Definition post_apply (body : ApplyBody) (outbox : list Mail) : ApplyResponse * list Mail :=
  match resume body with
  | None => (Apply400 "resume object is required", outbox)
  | Some resume =>
      match matchedJobs body with
      | None | Some [] =>
          (Apply400 "matchedJobs array is required and must not be empty", outbox)
      | Some matchedJobs =>
          match candidateInfo body with
          | None => (Apply400 "candidateInfo is required", outbox)
          | Some candidateInfo =>
              match smtpConfig body with
              | None => (Apply400 "smtpConfig is required", outbox)
              | Some smtpConfig =>
                  match generateResumePDF resume with
                  | inl message => (Apply500 message, outbox)
                  | inr resumePDF =>
                      match sendBatchApplications smtpConfig sendMail now
                              matchedJobs candidateInfo resumePDF outbox with
                      | (Ok results, outbox') =>
                          let successCount :=
                            length (List.filter (fun r => String.eqb (ar_status r) "sent")
                                                results) in
                          let failureCount :=
                            length (List.filter (fun r => String.eqb (ar_status r) "failed")
                                                results) in
                          (Apply200 ("Applications sent: " +:+ pretty successCount
                                     +:+ ", Failed: " +:+ pretty failureCount)
                                    results successCount failureCount
                                    (List.map company results),
                           outbox')
                      | (Throw message, outbox') => (Apply500 message, outbox')
                      end
                  end
              end
          end
      end
  end.

End WithTransport.

Inductive LoadResponse : Type :=
| Load400 (error : string)
| Load500 (error : string)
| Load200 (message : string) (jobs_count : nat).

(** [POST /api/jobs/load-data] on the module-level [ragService]. *)
Definition post_load_data (fs : FileSystem) (csvPath : option string) (ragService : Catalog)
    : LoadResponse * Catalog :=
  match csvPath with
  | Some (String c rest) =>
      match loadJobsData fs (String c rest) ragService with
      | (Ok _, ragService') =>
          (Load200 ("Loaded " +:+ pretty (length (getAllJobs ragService')) +:+ " jobs")
                   (length (getAllJobs ragService')),
           ragService')
      | (Throw message, ragService') => (Load500 message, ragService')
      end
  | _ => (Load400 "csvPath is required", ragService)
  end.

Inductive MatchResponse : Type :=
| Match400 (error : string)
| Match500 (error : string)
| Match200 (result : MatchResult).

(** [POST /api/jobs/match]; [topK] defaults to 5. *)
Definition post_match (candidateSkills : option (list string))
    (evaluationResult : option AnswerEvaluationService.EvaluationResult)
    (topK : option Z) (ragService : Catalog) : MatchResponse :=
  match candidateSkills with
  | None => Match400 "candidateSkills array is required"
  | Some candidateSkills =>
      match evaluationResult with
      | None => Match400 "evaluationResult is required"
      | Some evaluationResult =>
          match retrieveMatchingJobs ragService candidateSkills evaluationResult
                  (default 5 topK) with
          | Ok matchResult => Match200 matchResult
          | Throw message => Match500 message
          end
      end
  end.

End JobRoutes.

(** * Definitions used to state the properties *)

Module AnswerEvaluationSpec.
Import AnswerEvaluationService.

(** The prompt built for one (question, answer) pair. *)
Definition prompt_of (pair : Question * string) : Prompt :=
  {| prompt_question := question (fst pair);
     prompt_correct_answer := correct_answer (fst pair);
     prompt_user_answer := snd pair;
     prompt_keywords := join ", " (keywords (fst pair)) |}.

Definition prompts_of (questions : list Question) (userAnswers : list string) : list Prompt :=
  List.map prompt_of (combine questions userAnswers).

(** The running total of the scores, added left to right from [t]. *)
Definition add_scores (t : num) (evaluations : list IndividualEvaluation) : num :=
  fold_left (fun t e => JSNum.add t (score (evaluation e))) evaluations t.

(** The sum of integer scores. *)
Definition total (zs : list Z) : Z := fold_right Z.add 0 zs.

(** The sum of the four parts of the rubric. *)
Definition subscore_sum (e : AnswerEvaluation) : num :=
  JSNum.add (JSNum.add (JSNum.add (accuracy e) (completeness e)) (clarity e))
            (keyword_score e).

(** Some call of the batch fails: the [i]-th prompt, asked after the
    [i] prompts before it, makes the model raise. *)
Definition some_call_fails (oracle : list Prompt -> Prompt -> string + OracleReply)
    (log ps : list Prompt) : Prop :=
  exists i p message, ps !! i = Some p /\ oracle (log ++ take i ps) p = inl message.

End AnswerEvaluationSpec.

Module JSArraySpec.

(** [(a, b) => key(b) - key(a)]. *)
Definition desc {A : Type} (key : A -> Q) (a b : A) : Q := (key b - key a)%Q.

(** [a] may stand before [b]. *)
Definition ge_key {A : Type} (key : A -> Q) (a b : A) : Prop := (key b <= key a)%Q.

End JSArraySpec.

Module MatcherSpec.
Import JSString JSArray RAGService.

(** ** Inputs used in examples *)

Definition plain_job (n : nat) (company : string) (skills : list string) : Job :=
  {| id := n; company_name := company; job_role := "Engineer";
     required_skills := skills; company_email := "jobs@example.com";
     job_description := ""; location := ""; salary_range := "" |}.

Definition plain_row (company skills : string) : Row :=
  {| row_company_name := Some company; row_job_role := Some "Engineer";
     row_required_skills := Some skills; row_company_email := Some "jobs@example.com";
     row_job_description := None; row_location := None; row_salary_range := None |}.

(** A file system holding two CSV files. *)
Definition disk : FileSystem :=
  fun path =>
    if String.eqb path "jobsdata.csv"
    then Some (StreamEnd [plain_row "Acme" "JavaScript, Node.js ,SQL";
                          plain_row "Globex" "Python,Django,";
                          plain_row "Initech" ""])
    else if String.eqb path "ties.csv"
    then Some (StreamEnd [plain_row "Hooli" "Python,Go";
                          plain_row "Umbrella" "Python";
                          plain_row "Stark" "Python,Rust";
                          plain_row "Wayne" "Java,Go,Rust"])
    else None.

(** The catalog after [loadJobsData('ties.csv')]. *)
Definition with_ties : Catalog := snd (loadJobsData disk "ties.csv" empty_catalog).

(** The catalog after [loadJobsData('jobsdata.csv')]. *)
Definition loaded : Catalog := snd (loadJobsData disk "jobsdata.csv" empty_catalog).

(** A catalog of two jobs: a candidate who knows ["s"] matches eleven of
    the twelve skills of the first and twelve of the thirteen of the
    second. *)
Definition near_ties : Catalog :=
  snd (loadJobsData
         (fun _ => Some (StreamEnd
            [plain_row "Pied Piper" "s1,s2,s3,s4,s5,s6,s7,s8,s9,s10,s11,q";
             plain_row "Aviato" "s1,s2,s3,s4,s5,s6,s7,s8,s9,s10,s11,s12,q"]))
         "near.csv" empty_catalog).

Definition verdict (verified : bool) : AnswerEvaluationService.EvaluationResult :=
  {| AnswerEvaluationService.is_verified := verified;
     AnswerEvaluationService.average_score := of_Z (if verified then 75 else 50);
     AnswerEvaluationService.total_score := of_Z (if verified then 375 else 250);
     AnswerEvaluationService.passing_threshold := of_Z 70;
     AnswerEvaluationService.individual_evaluations := [];
     AnswerEvaluationService.summary :=
       {| AnswerEvaluationService.passed_questions := 0;
          AnswerEvaluationService.total_questions := 0;
          AnswerEvaluationService.status :=
            if verified then "VERIFIED" else "NOT_VERIFIED" |} |}.

(** ** The matching rule as the specification words it *)

(** Some candidate skill, case-folded, is a substring of the case-folded
    required skill, or the other way round. *)
Definition contains_either_way (candidateSkills : list string) (required : string) : bool :=
  existsb (fun c => includes (toLowerCase c) (toLowerCase required)
                    || includes (toLowerCase required) (toLowerCase c))
          candidateSkills.

(** (required skills with at least one match) / (required skills) * 100,
    and 0 when nothing is required. *)
Definition spec_match_score (candidateSkills : list string) (job : Job) : Q :=
  match required_skills job with
  | [] => 0
  | _ :: _ =>
      inject_Z (Z.of_nat (length (List.filter (contains_either_way candidateSkills)
                                              (required_skills job))))
      / inject_Z (Z.of_nat (length (required_skills job))) * 100
  end.

Definition spec_matched_skills (candidateSkills : list string) (job : Job) : list string :=
  List.filter (contains_either_way candidateSkills) (required_skills job).

(** The 40 floor, on a catalog entry and on an element of [matches]. *)
Definition passes_floor (candidateSkills : list string) (j : Job) : bool :=
  Qle_bool 40 (_calculateMatchScore candidateSkills j).

Definition over_floor (m : Match) : bool := Qle_bool 40 (match_score m).

(** The job asks for at least one skill. *)
Definition has_required_skills (j : Job) : bool :=
  match required_skills j with
  | [] => false
  | _ :: _ => true
  end.

End MatcherSpec.

Module DispatchSpec.
Import RAGService EmailService.

Section Batch.
Variable smtpConfig : SmtpConfig.
Variable sendMail : list Mail -> Mail -> string + string.
Variable now : list Mail -> string.
Variable candidateInfo : CandidateInfo.
Variable resumePDF : string.

(** The mail [sendApplicationEmail] builds for one matched job. *)
Definition mail_of (j : MatchedJob) : Mail :=
  {| mail_from := dquote +:+ senderName smtpConfig +:+ dquote
                  +:+ " <" +:+ email smtpConfig +:+ ">";
     mail_to := mj_company_email j;
     mail_subject := "Application for " +:+ mj_job_role j +:+ " Position";
     mail_html_company := mj_company_name j;
     mail_html_role := mj_job_role j;
     mail_html_candidate := name candidateInfo;
     mail_attachment_filename := name candidateInfo +:+ "_Resume.pdf";
     mail_attachment_content := resumePDF |}.

(** The record a job ends with, given the mails attempted before it. *)
Definition outcome (outbox : list Mail) (j : MatchedJob) : ApplicationRecord :=
  match sendMail outbox (mail_of j) with
  | inr _ =>
      {| company := mj_company_name j; ar_jobRole := mj_job_role j;
         ar_email := mj_company_email j; ar_status := "sent";
         ar_timestamp := Some (now (outbox ++ [mail_of j])); ar_error := None |}
  | inl message =>
      {| company := mj_company_name j; ar_jobRole := mj_job_role j;
         ar_email := mj_company_email j; ar_status := "failed";
         ar_timestamp := None;
         ar_error := Some ("Failed to send email to " +:+ mj_company_email j
                           +:+ ": " +:+ message) |}
  end.

Fixpoint outcomes (outbox : list Mail) (matchedJobs : list MatchedJob)
    : list ApplicationRecord :=
  match matchedJobs with
  | [] => []
  | j :: rest => outcome outbox j :: outcomes (outbox ++ [mail_of j]) rest
  end.

End Batch.

(** A transporter that rejects the address of one company. *)
Definition reject_globex (_ : list Mail) (m : Mail) : string + string :=
  if String.eqb (mail_to m) "hr@globex.example" then inl "invalid recipient"%string
  else inr "<id>"%string.

Definition pending (company address : string) : MatchedJob :=
  {| mj_id := 1; mj_company_name := company; mj_job_role := "Engineer";
     mj_company_email := address; mj_location := ""; mj_salary_range := "";
     mj_required_skills := []; mj_match_score := 100; mj_matched_skills := [];
     application_status := "pending" |}.

(** A resume with nothing in it. *)
Definition blank_resume : ResumeService.Resume :=
  {| ResumeService.personal_info := None; ResumeService.skills := None;
     ResumeService.experience := ResumeService.NoExperience;
     ResumeService.projects := None; ResumeService.summary := None |}.

Definition sender : SmtpConfig :=
  {| service := "gmail"; email := "me@example.com"; password := ""; senderName := "Me" |}.

Definition timestamp (_ : list Mail) : string := "2025-01-01T00:00:00.000Z".

End DispatchSpec.

Module BatchSpec.
Import AnswerEvaluationService.

(** The entry built for a pair corresponds to it and holds a clamped
    score. *)
Definition entry_of (pair : Question * string) (e : IndividualEvaluation) : Prop :=
  question_id e = id (fst pair) /\ ie_skill e = skill (fst pair) /\
  ie_question e = question (fst pair) /\ user_answer e = snd pair /\
  (score (evaluation e) = NaN \/ JSNum.within 0 100 (score (evaluation e))) /\
  passed (evaluation e) = JSNum.geb (score (evaluation e)) (of_Z 70).

(** The scores of a batch, in order. *)
Definition scores_of (evaluations : list IndividualEvaluation) : list num :=
  List.map (fun e => score (evaluation e)) evaluations.

End BatchSpec.

Module CatalogSpec.
Import JSString RAGService.

(** The character [c] occurs in [s]. *)
Fixpoint occurs (c : ascii) (s : string) : bool :=
  match s with
  | EmptyString => false
  | String c' rest => Ascii.eqb c' c || occurs c rest
  end.

Definition starts_with_space (s : string) : bool :=
  match s with
  | EmptyString => false
  | String c _ => is_space c
  end.

Fixpoint ends_with_space (s : string) : bool :=
  match s with
  | EmptyString => false
  | String c EmptyString => is_space c
  | String _ rest => ends_with_space rest
  end.

(** A skill name as it can stand between two commas of a CSV cell: not
    empty, no comma inside, no white space at either end. *)
Definition clean_skill (s : string) : bool :=
  negb (is_empty s) && negb (occurs ","%char s)
  && negb (starts_with_space s) && negb (ends_with_space s).

(** The job made of a row when it is the [n]-th of the file. *)
Definition job_of_row (n : nat) (row : Row) : Job :=
  {| id := n;
     company_name := or_default (row_company_name row) "";
     job_role := or_default (row_job_role row) "";
     required_skills := _parseSkills (row_required_skills row);
     company_email := or_default (row_company_email row) "";
     job_description := or_default (row_job_description row) "";
     location := or_default (row_location row) "";
     salary_range := or_default (row_salary_range row) "" |}.

(** The jobs made of the rows of a file, numbered from [first]. *)
Fixpoint jobs_of_rows (first : nat) (rows : list Row) : list Job :=
  match rows with
  | [] => []
  | row :: rest => job_of_row first row :: jobs_of_rows (S first) rest
  end.

(** The index agrees with the list: key [n] holds the [n]-th job. *)
Definition index_agrees (this : Catalog) : Prop :=
  forall n, jobIndex this !! n
            = match n with
              | O => None
              | S k => jobs this !! k
              end.

End CatalogSpec.

Module QuestionFixtures.
Import QuestionGenerationService.

Definition good_question (n : Z) : GeneratedQuestion :=
  {| id := Some n; skill := Some "SQL"%string; question := Some "What is a join?"%string;
     correct_answer := Some "A combination of rows."%string;
     difficulty := Some "easy"%string; keywords := Some ["join"%string] |}.

(** A model that always replies with the same array. *)
Definition replying (reply : list GeneratedQuestion)
    (_ : list Prompt) (_ : Prompt) : string + list GeneratedQuestion :=
  inr reply.

End QuestionFixtures.

Module ResumeSpec.

(** The level given to an experience of length [n]. *)
Definition level_of_count (n : nat) : string :=
  if (5 <=? n)%nat then "senior"
  else if (2 <=? n)%nat then "mid"
  else "junior".

End ResumeSpec.

Module ResumeFixtures.
Import ResumeService.

Definition sample_resume : Resume :=
  {| personal_info := Some {| name := Some "Ada"%string; email := None; phone := None;
                              location := None; linkedin := None; github := None |};
     skills := Some {| technical := Some ["Python"; "SQL"; "Python"; " "]%string;
                       soft := Some ["Writing"%string]; languages := None |};
     experience :=
       ExperienceArray
            [{| title := Some "Backend Engineer"%string;
                description := Some ["Built services in Django on PostgreSQL"%string] |}];
     projects := Some [{| technologies := Some ["Redis"; "SQL"]%string |}];
     summary := Some "Engineer and team lead"%string |}.

End ResumeFixtures.

(** * Properties of the answer evaluation service *)
Module AnswerEvaluationFacts.
Import AnswerEvaluationService Fixtures AnswerEvaluationSpec.

Section Loop.
Variable oracle : list Prompt -> Prompt -> string + OracleReply.

Lemma evaluateAnswer_log q ua ca kw log :
  snd (evaluateAnswer oracle q ua ca kw log)
  = log ++ [{| prompt_question := q; prompt_correct_answer := ca;
               prompt_user_answer := ua; prompt_keywords := join ", " kw |}].
Proof. unfold evaluateAnswer. destruct (oracle _ _); reflexivity. Qed.

Lemma evaluateLoop_ok pairs : forall evs t log evs' t' log',
  evaluateLoop oracle pairs evs t log = (Ok (evs', t'), log') ->
  exists new,
    evs' = evs ++ new /\
    length new = length pairs /\
    t' = add_scores t new /\
    log' = log ++ List.map prompt_of pairs /\
    List.map (fun e => (question_id e, user_answer e)) new
    = List.map (fun pair => (id (fst pair), snd pair)) pairs.
Proof.
  induction pairs as [|[q a] rest IH]; intros evs t log evs' t' log' H.
  - cbn in H. unfold ret in H. inversion H; subst. exists [].
    rewrite !app_nil_r. repeat split; reflexivity.
  - cbn [evaluateLoop] in H. unfold bind at 1 in H.
    unfold evaluateAnswer in H.
    destruct (oracle log _) as [msg|rep] eqn:Ho; [discriminate|].
    apply IH in H. destruct H as (new & -> & Hlen & -> & -> & Hmap).
    eexists (_ :: new). rewrite <- !app_assoc. cbn [app length List.map fst snd].
    split; [reflexivity|]. split; [now rewrite Hlen|].
    split; [reflexivity|]. split; [reflexivity|].
    now rewrite Hmap.
Qed.

Lemma evaluateLoop_fails pairs : forall evs t log i p message,
  List.map prompt_of pairs !! i = Some p ->
  oracle (log ++ take i (List.map prompt_of pairs)) p = inl message ->
  exists message' log',
    evaluateLoop oracle pairs evs t log
    = (Throw ("Failed to evaluate answer: " +:+ message'), log') /\
    exists sent, log' = log ++ sent.
Proof.
  induction pairs as [|[q a] rest IH]; intros evs t log i p message Hi Ho.
  - destruct i; discriminate.
  - cbn [evaluateLoop]. unfold bind at 1. unfold evaluateAnswer.
    destruct i as [|i].
    + cbn in Hi. inversion Hi; subst p. cbn in Ho. rewrite app_nil_r in Ho.
      unfold prompt_of in Ho. cbn in Ho. rewrite Ho.
      eexists _, _. split; [reflexivity|]. eexists; reflexivity.
    + destruct (oracle log _) as [msg|rep] eqn:Ho1.
      * eexists _, _. split; [reflexivity|]. eexists; reflexivity.
      * cbn in Hi. cbn [List.map take] in Ho.
        change (prompt_of (q, a) :: take i (List.map prompt_of rest))
          with ([prompt_of (q, a)] ++ take i (List.map prompt_of rest)) in Ho.
        rewrite app_assoc in Ho.
        match goal with
        | |- context [evaluateLoop oracle rest ?e ?tt _] =>
            destruct (IH e tt _ i p message Hi Ho) as (m' & l' & Heq & sent & Hl)
        end.
        exists m', l'. split; [exact Heq|].
        exists ([prompt_of (q, a)] ++ sent). rewrite Hl, <- app_assoc. reflexivity.
Qed.

(** When no call fails, the loop returns. *)
Lemma evaluateLoop_total pairs : forall evs t log,
  (forall l p, exists rep, oracle l p = inr rep) ->
  exists r log', evaluateLoop oracle pairs evs t log = (Ok r, log').
Proof.
  induction pairs as [|[q a] rest IH]; intros evs t log Hall.
  - eexists _, _. reflexivity.
  - cbn [evaluateLoop]. unfold bind at 1. unfold evaluateAnswer.
    destruct (Hall log (prompt_of (q, a))) as [rep Hrep].
    unfold prompt_of in Hrep. cbn in Hrep. rewrite Hrep.
    apply IH, Hall.
Qed.
End Loop.

(** When the two arrays have the same length and the model never raises,
    [evaluateAllAnswers] returns a result. *)
Lemma evaluateAllAnswers_returns
    (oracle : list Prompt -> Prompt -> string + OracleReply)
    (questions : list Question) (userAnswers : list string) (log : list Prompt) :
  length questions = length userAnswers ->
  (forall l p, exists rep, oracle l p = inr rep) ->
  exists r log', evaluateAllAnswers oracle questions userAnswers log = (Ok r, log').
Proof.
  intros Hlen Hall. unfold evaluateAllAnswers.
  apply Nat.eqb_eq in Hlen. rewrite Hlen. cbn [negb]. unfold bind.
  destruct (evaluateLoop_total oracle (combine questions userAnswers) [] (of_Z 0) log Hall)
    as ([evs t] & l & Hrun).
  rewrite Hrun. eexists _, _. reflexivity.
Qed.

(** *** Rounding and the threshold *)

Lemma round_geb_Z (x : num) (z : Z) :
  JSNum.geb x (of_Z z) = true -> JSNum.geb (JSNum.round x) (of_Z z) = true.
Proof.
  unfold of_Z. destruct x as [| | |a]; cbn [JSNum.geb JSNum.round]; try congruence.
  rewrite !Qle_bool_iff. intros H.
  rewrite <- Zle_Qle.
  rewrite <- (Qfloor_Z z).
  apply Qfloor_resp_le.
  apply Qle_trans with a; [exact H|].
  rewrite <- (Qplus_0_r a) at 1. apply Qplus_le_r. discriminate.
Qed.

Lemma geb_round_succ (x : num) (z : Z) :
  JSNum.geb (JSNum.round x) (of_Z (z + 1)) = true -> JSNum.geb x (of_Z z) = true.
Proof.
  unfold of_Z. destruct x as [| | |a]; cbn [JSNum.geb JSNum.round]; try congruence.
  rewrite !Qle_bool_iff. intros H.
  pose proof (Qfloor_le (a + (1 # 2))) as Hf.
  assert (Hz : (inject_Z (z + 1) <= a + (1 # 2))%Q) by (eapply Qle_trans; eassumption).
  rewrite inject_Z_plus in Hz.
  apply Qplus_le_l with (z := (1 # 2)%Q).
  eapply Qle_trans; [|exact Hz].
  apply Qplus_le_r. discriminate.
Qed.

Lemma clamp_within (x : num) :
  x <> NaN -> JSNum.within 0 100 (JSNum.max (of_Z 0) (JSNum.min (of_Z 100) x)).
Proof.
  unfold of_Z.
  destruct x as [| | |a]; intros Hx; [congruence| | |];
    cbn [JSNum.max JSNum.min JSNum.within].
  - destruct (Qle_bool (inject_Z 0) (inject_Z 100)); split; discriminate.
  - split; [apply Qle_refl|discriminate].
  - destruct (Qle_bool (inject_Z 100) a) eqn:H100.
    + destruct (Qle_bool (inject_Z 0) (inject_Z 100)); split; discriminate.
    + destruct (Qle_bool (inject_Z 0) a) eqn:H0.
      * apply Qle_bool_iff in H0. split; [exact H0|].
        destruct (Qlt_le_dec (inject_Z 100) a) as [Hlt|Hle]; [|exact Hle].
        apply Qlt_le_weak in Hlt. apply Qle_bool_iff in Hlt. congruence.
      * split; [apply Qle_refl|discriminate].
Qed.

(** *** The verdict of a batch *)

Lemma add_scores_integers evs : forall (zs : list Z) (q : Q) (t : Z),
  List.map (fun e => score (evaluation e)) evs = List.map of_Z zs ->
  (q == inject_Z t)%Q ->
  exists q', add_scores (Fin q) evs = Fin q' /\ (q' == inject_Z (t + total zs))%Q.
Proof.
  induction evs as [|e rest IH]; intros [|z zs] q t Hz Hq; try discriminate.
  - exists q. split; [reflexivity|]. cbn [total fold_right]. now rewrite Z.add_0_r.
  - cbn [List.map] in Hz. injection Hz as Hscore Hrest.
    cbn [add_scores fold_left]. rewrite Hscore. unfold of_Z. cbn [JSNum.add].
    destruct (IH zs (q + inject_Z z)%Q (t + z) Hrest) as (q' & Hq' & Hsum).
    + now rewrite Hq, inject_Z_plus.
    + exists q'. split; [exact Hq'|]. rewrite Hsum. cbn [total fold_right].
      now rewrite Z.add_assoc.
Qed.

Lemma mean_of_integers_geb_70 (q : Q) (sum : Z) (n : nat) :
  (q == inject_Z sum)%Q -> (0 < n)%nat ->
  JSNum.geb (JSNum.div_len (Fin q) n) (of_Z 70) = (70 * Z.of_nat n <=? sum).
Proof.
  intros Hq Hn. destruct n as [|k]; [lia|].
  unfold of_Z. cbn [JSNum.div_len JSNum.geb].
  set (N := Z.of_nat (S k)).
  assert (HN : (0 < inject_Z N)%Q)
    by (change 0%Q with (inject_Z 0); rewrite <- Zlt_Qlt; subst N; lia).
  apply Bool.eq_iff_eq_true. rewrite Qle_bool_iff, Z.leb_le, Zle_Qle, inject_Z_mult, <- Hq.
  split; intros H.
  - apply Qmult_le_compat_r with (z := inject_Z N) in H; [|lra].
    assert (E : (q / inject_Z N * inject_Z N == q)%Q) by (field; lra).
    now rewrite E in H.
  - apply Qle_shift_div_l; [exact HN|exact H].
Qed.

(** C1, as the code has it, for scores that are integers (the sums of
    such scores are exact in the code, and so is their comparison with
    70; an array holds fewer than 2^32 questions): whenever
    [evaluateAllAnswers] returns, there is one evaluation per question,
    [is_verified] is the comparison of the UNROUNDED mean of the scores
    with 70, that is of their sum with 70 times their number, and
    [average_score] is that mean rounded half-up. Hence a verified result
    reports an average of at least 70, and a reported average of at least
    71 is verified; a reported average of exactly 70 decides nothing. *)
Theorem is_verified_compares_unrounded_mean
    (oracle : list Prompt -> Prompt -> string + OracleReply)
    (questions : list Question) (userAnswers : list string)
    (log log' : list Prompt) (r : EvaluationResult) (zs : list Z) :
  evaluateAllAnswers oracle questions userAnswers log = (Ok r, log') ->
  Z.of_nat (length questions) < 2 ^ 32 ->
  List.map (fun e => score (evaluation e)) (individual_evaluations r) = List.map of_Z zs ->
  let mean := JSNum.div_len (add_scores (of_Z 0) (individual_evaluations r))
                            (length questions) in
  length (individual_evaluations r) = length questions /\
  is_verified r = JSNum.geb mean (of_Z 70) /\
  (questions <> [] ->
   is_verified r = (70 * Z.of_nat (length questions) <=? total zs)) /\
  average_score r = JSNum.round mean /\
  passing_threshold r = of_Z 70 /\
  (is_verified r = true -> JSNum.geb (average_score r) (of_Z 70) = true) /\
  (JSNum.geb (average_score r) (of_Z 71) = true -> is_verified r = true).
Proof.
  unfold evaluateAllAnswers.
  destruct (length questions =? length userAnswers)%nat eqn:Hlen;
    cbn [negb]; [|discriminate].
  unfold bind.
  destruct (evaluateLoop oracle _ _ _ log) as [[[evs t]|msg] l] eqn:Hloop;
    [|discriminate].
  intros H _ Hz. unfold ret in H. inversion H; subst r log'; clear H.
  apply evaluateLoop_ok in Hloop.
  destruct Hloop as (new & -> & Hn & -> & _ & _).
  cbn [individual_evaluations is_verified average_score passing_threshold app] in Hz |- *.
  rewrite Hn, length_combine.
  apply Nat.eqb_eq in Hlen. rewrite <- Hlen, Nat.min_id.
  split; [reflexivity|]. split; [reflexivity|]. split; [|repeat split].
  - intros Hq.
    destruct (add_scores_integers new zs (inject_Z 0) 0 Hz (Qeq_refl _))
      as (q' & Hsum & Hq').
    unfold of_Z at 1. rewrite Hsum.
    apply mean_of_integers_geb_70; [exact Hq'|].
    destruct questions; [congruence|cbn; lia].
  - apply round_geb_Z.
  - apply (geb_round_succ _ 70).
Qed.

(** Scenario C of the specification: the scores 80, 75, 60, 90, 70 give
    the mean 75, a verified result and four passed questions. *)
Lemma is_verified_compares_unrounded_mean_witness :
  exists r log',
    evaluateAllAnswers (scripted (scores [80; 75; 60; 90; 70]))
      [ask 1; ask 2; ask 3; ask 4; ask 5] ["a"; "b"; "c"; "d"; "e"] []
    = (Ok r, log') /\
    length (individual_evaluations r) = 5%nat /\
    is_verified r = true /\
    average_score r = Fin (75 # 1) /\
    passed_questions (summary r) = 4%nat /\
    JSNum.geb (average_score r) (of_Z 70) = true.
Proof.
  eexists _, _. split; [vm_compute; reflexivity|].
  match goal with
  | |- context [individual_evaluations ?r] =>
      destruct (is_verified_compares_unrounded_mean
                  (scripted (scores [80; 75; 60; 90; 70]))
                  [ask 1; ask 2; ask 3; ask 4; ask 5] ["a"; "b"; "c"; "d"; "e"]
                  [] _ r [80; 75; 60; 90; 70] ltac:(vm_compute; reflexivity)
                  ltac:(reflexivity) ltac:(vm_compute; reflexivity))
        as (Hlen & Hver & Hsum & Havg & _ & Hge & _)
  end.
  split; [exact Hlen|].
  split; [rewrite Hver; vm_compute; reflexivity|].
  split; [rewrite Havg; vm_compute; reflexivity|].
  split; [vm_compute; reflexivity|].
  apply Hge. rewrite Hver. vm_compute. reflexivity.
Defined.

(** C1, counterexample: two scores 69 and 70 have mean 69.5; the result
    reports [average_score = 70] and yet [is_verified = false], so
    [is_verified] differs from [average_score >= 70]. *)
Lemma rounded_average_70_not_verified :
  exists r log',
    evaluateAllAnswers (scripted (scores [69; 70])) [ask 1; ask 2] ["a"; "b"] []
    = (Ok r, log') /\
    average_score r = Fin (70 # 1) /\
    is_verified r = false /\
    is_verified r <> JSNum.geb (average_score r) (passing_threshold r).
Proof.
  eexists _, _. split; [vm_compute; reflexivity|].
  cbn [average_score is_verified passing_threshold].
  repeat split. discriminate.
Qed.

(** C6, as the code has it: the evaluation returned by [evaluateAnswer]
    carries the oracle's score clamped by [max(0, min(100, .))], which
    lies in [0,100] as soon as the oracle's score is a number; [passed]
    is [score >= 70]; the four subscores are the oracle's, unchanged, and
    nothing relates them to the score. *)
Theorem evaluateAnswer_clamps_score_only
    (oracle : list Prompt -> Prompt -> string + OracleReply)
    (q ua ca : string) (kw : list string) (log log' : list Prompt)
    (e : AnswerEvaluation) :
  evaluateAnswer oracle q ua ca kw log = (Ok e, log') ->
  exists reply,
    oracle log {| prompt_question := q; prompt_correct_answer := ca;
                  prompt_user_answer := ua; prompt_keywords := join ", " kw |}
    = inr reply /\
    score e = JSNum.max (of_Z 0) (JSNum.min (of_Z 100) (reply_score reply)) /\
    (reply_score reply <> NaN -> JSNum.within 0 100 (score e)) /\
    passed e = JSNum.geb (score e) (of_Z 70) /\
    accuracy e = reply_accuracy reply /\
    completeness e = reply_completeness reply /\
    clarity e = reply_clarity reply /\
    keyword_score e = reply_keyword_score reply.
Proof.
  unfold evaluateAnswer.
  destruct (oracle log _) as [msg|reply]; [discriminate|].
  intros H. inversion H; subst e log'; clear H.
  exists reply. cbn [score passed accuracy completeness clarity keyword_score].
  repeat split. apply clamp_within.
Qed.

Lemma evaluateAnswer_clamps_score_only_witness :
  exists e log',
    evaluateAnswer (fun _ _ => inr (reply_with_score (of_Z 250))) "q" "a" "c" [] []
    = (Ok e, log') /\
    JSNum.within 0 100 (score e) /\ passed e = true.
Proof.
  eexists _, _. split; [vm_compute; reflexivity|].
  match goal with
  | |- context [score ?e] =>
      destruct (evaluateAnswer_clamps_score_only
                  (fun _ _ => inr (reply_with_score (of_Z 250))) "q" "a" "c" [] [] _ e
                  ltac:(vm_compute; reflexivity))
        as (reply & Hreply & _ & Hin & Hpassed & _)
  end.
  split.
  - apply Hin. inversion Hreply. discriminate.
  - rewrite Hpassed. vm_compute. reflexivity.
Defined.

(** C6, counterexample: the oracle replies with score 90 and parts
    10 + 10 + 10 + 5; the evaluation is returned with score 90 although
    its parts add up to 35. *)
Lemma score_not_checked_against_subscores :
  exists e log',
    evaluateAnswer (fun _ _ => inr inconsistent_reply) "q" "a" "c" [] []
    = (Ok e, log') /\
    score e = Fin (90 # 1) /\
    subscore_sum e = Fin (35 # 1) /\
    ~ JSNum.eqv (score e) (subscore_sum e).
Proof.
  eexists _, _. split; [vm_compute; reflexivity|].
  repeat split. vm_compute. discriminate.
Qed.

(** C7: when the two arrays differ in length, [evaluateAllAnswers] throws
    without sending any prompt (the log is unchanged); when they have the
    same length and some call of the batch fails, it throws, returns no
    result, and the route (with an API key configured) answers 500 and
    leaves [evaluationCache] as it was. *)
Theorem evaluateAllAnswers_fails_as_a_whole
    (oracle : list Prompt -> Prompt -> string + OracleReply)
    (questions : list Question) (userAnswers : list string) (log : list Prompt) :
  (length questions <> length userAnswers ->
   evaluateAllAnswers oracle questions userAnswers log
   = (Throw "Number of questions must match number of answers", log)) /\
  (length questions = length userAnswers ->
   some_call_fails oracle log (prompts_of questions userAnswers) ->
   (exists message log',
      evaluateAllAnswers oracle questions userAnswers log
      = (Throw ("Failed to evaluate answer: " +:+ message), log')) /\
   (forall geminiApiKey session cache,
      AnswerRoutes.truthy geminiApiKey = true ->
      exists message st',
        AnswerRoutes.post_evaluate oracle geminiApiKey
          {| AnswerRoutes.questions := questions;
             AnswerRoutes.answers := userAnswers;
             AnswerRoutes.sessionId := session |}
          {| AnswerRoutes.evaluationCache := cache; AnswerRoutes.prompts := log |}
        = (AnswerRoutes.Status500 message, st') /\
        AnswerRoutes.evaluationCache st' = cache)).
Proof.
  split.
  - intros Hne. unfold evaluateAllAnswers.
    apply Nat.eqb_neq in Hne. rewrite Hne. reflexivity.
  - intros Heq (i & p & message & Hi & Ho).
    destruct (evaluateLoop_fails oracle (combine questions userAnswers)
                [] (of_Z 0) log i p message Hi Ho) as (m' & l' & Hrun & _).
    assert (Hall : evaluateAllAnswers oracle questions userAnswers log
                   = (Throw ("Failed to evaluate answer: " +:+ m'), l')).
    { unfold evaluateAllAnswers. apply Nat.eqb_eq in Heq. rewrite Heq.
      cbn [negb]. unfold bind. rewrite Hrun. reflexivity. }
    split.
    + exists m', l'. exact Hall.
    + intros geminiApiKey session cache Hkey. unfold AnswerRoutes.post_evaluate.
      cbn [AnswerRoutes.questions AnswerRoutes.answers AnswerRoutes.prompts].
      apply Nat.eqb_eq in Heq. rewrite Heq, Hkey. cbn [negb].
      rewrite Hall. eexists _, _. split; reflexivity.
Qed.

Lemma evaluateAllAnswers_fails_as_a_whole_witness :
  evaluateAllAnswers (scripted (scores [80])) [ask 1; ask 2] ["a"] []
  = (Throw "Number of questions must match number of answers", []) /\
  exists message log',
    evaluateAllAnswers (scripted (scores [80])) [ask 1; ask 2] ["a"; "b"] []
    = (Throw ("Failed to evaluate answer: " +:+ message), log').
Proof.
  split.
  - apply (proj1 (evaluateAllAnswers_fails_as_a_whole
                    (scripted (scores [80])) [ask 1; ask 2] ["a"] [])).
    cbn. lia.
  - apply (proj2 (evaluateAllAnswers_fails_as_a_whole
                    (scripted (scores [80])) [ask 1; ask 2] ["a"; "b"] [])).
    + reflexivity.
    + exists 1%nat. eexists _, _. split; reflexivity.
Defined.

(** C10: on two empty arrays [evaluateAllAnswers] sends no prompt and
    returns a result whose average is [NaN] (0/0), which is not verified
    and counts zero passed questions out of zero. *)
Theorem evaluateAllAnswers_empty_batch
    (oracle : list Prompt -> Prompt -> string + OracleReply) (log : list Prompt) :
  exists r,
    evaluateAllAnswers oracle [] [] log = (Ok r, log) /\
    is_verified r = false /\
    average_score r = NaN /\
    individual_evaluations r = [] /\
    passed_questions (summary r) = 0%nat /\
    total_questions (summary r) = 0%nat /\
    status (summary r) = "NOT_VERIFIED".
Proof.
  eexists. split; [reflexivity|]. repeat split.
Qed.

End AnswerEvaluationFacts.

(** * Properties of [sort] with a descending numeric comparator *)
Module JSArrayFacts.
Import JSArray JSArraySpec.

Lemma In_firstn {A} (z : A) (n : nat) (l : list A) : In z (firstn n l) -> In z l.
Proof.
  revert n. induction l as [|y rest IH]; intros [|n]; cbn; try tauto.
  intros [->|H]; [now left|right; eauto].
Qed.

Section Descending.
Context {A : Type}.
Variable key : A -> Q.

Local Abbreviation desc := (JSArraySpec.desc key).
Local Abbreviation ge_key := (JSArraySpec.ge_key key).

Lemma insert_sorted_In (x z : A) (l : list A) :
  In z (insert_sorted desc x l) <-> z = x \/ In z l.
Proof.
  induction l as [|y rest IH]; cbn.
  - intuition.
  - destruct (Qlt_le_dec 0 (desc x y)); cbn; rewrite ?IH; intuition.
Qed.

Lemma sort_In (z : A) (l : list A) : In z (sort desc l) <-> In z l.
Proof.
  induction l as [|x rest IH]; cbn; [tauto|].
  rewrite insert_sorted_In, IH. intuition.
Qed.

Lemma insert_sorted_length (x : A) (l : list A) :
  length (insert_sorted desc x l) = S (length l).
Proof.
  induction l as [|y rest IH]; cbn; [reflexivity|].
  destruct (Qlt_le_dec 0 (desc x y)); cbn; [rewrite IH|]; reflexivity.
Qed.

Lemma sort_length (l : list A) : length (sort desc l) = length l.
Proof.
  induction l as [|x rest IH]; cbn; [reflexivity|].
  now rewrite insert_sorted_length, IH.
Qed.

Lemma insert_sorted_ordered (x : A) (l : list A) :
  StronglySorted ge_key l -> StronglySorted ge_key (insert_sorted desc x l).
Proof.
  induction 1 as [|y rest Hs IH Hall]; cbn.
  - repeat constructor.
  - destruct (Qlt_le_dec 0 (desc x y)) as [Hlt|Hle].
    + constructor; [exact IH|].
      apply List.Forall_forall. intros z Hz.
      apply insert_sorted_In in Hz. destruct Hz as [->|Hz].
      * unfold JSArraySpec.ge_key, JSArraySpec.desc in *. lra.
      * rewrite List.Forall_forall in Hall. now apply Hall.
    + constructor; [now constructor|].
      constructor.
      * unfold JSArraySpec.ge_key, JSArraySpec.desc in *. lra.
      * eapply List.Forall_impl; [|exact Hall].
        intros z Hz. unfold JSArraySpec.ge_key, JSArraySpec.desc in *. cbn beta in *. lra.
Qed.

(** The sorted array is in descending order of the key. *)
Lemma sort_ordered (l : list A) : StronglySorted ge_key (sort desc l).
Proof.
  induction l as [|x rest IH]; cbn; [constructor|].
  now apply insert_sorted_ordered.
Qed.

(** Inserting [x] moves it only past elements with a strictly larger
    key, so a selection that never holds of [x] and of such an element
    at once sees [x] first. *)
Lemma filter_insert_sorted (P : A -> bool) (x : A) (l : list A) :
  (forall y, P x = true -> P y = true -> (key y <= key x)%Q) ->
  List.filter P (insert_sorted desc x l) = List.filter P (x :: l).
Proof.
  intros Hclass. induction l as [|y rest IH]; [reflexivity|].
  cbn [insert_sorted]. destruct (Qlt_le_dec 0 (desc x y)) as [Hlt|Hle];
    [|reflexivity].
  cbn [List.filter] in *. rewrite IH.
  destruct (P x) eqn:Hx; [|reflexivity].
  destruct (P y) eqn:Hy; [|reflexivity].
  specialize (Hclass y eq_refl Hy). unfold JSArraySpec.desc in Hlt. lra.
Qed.

(** Stability: a selection whose members all have the same key keeps
    the order the elements had before the sort. *)
Lemma sort_stable (P : A -> bool) (l : list A) :
  (forall x y, P x = true -> P y = true -> (key x == key y)%Q) ->
  List.filter P (sort desc l) = List.filter P l.
Proof.
  intros Hclass. induction l as [|x rest IH]; [reflexivity|].
  cbn [sort]. rewrite filter_insert_sorted.
  - cbn [List.filter]. now rewrite IH.
  - intros y Hx Hy. rewrite (Hclass x y Hx Hy). apply Qle_refl.
Qed.

(** Sorting does not change how many elements a selection holds. *)
Lemma filter_sort_length (P : A -> bool) (l : list A) :
  length (List.filter P (sort desc l)) = length (List.filter P l).
Proof.
  induction l as [|x rest IH]; [reflexivity|].
  cbn [sort].
  assert (Hins : forall s, length (List.filter P (insert_sorted desc x s))
                           = length (List.filter P (x :: s))).
  { induction s as [|y s IHs]; [reflexivity|].
    cbn [insert_sorted]. destruct (Qlt_le_dec 0 (desc x y)); [|reflexivity].
    cbn [List.filter] in *. destruct (P y), (P x); cbn [length] in *; lia. }
  rewrite Hins. cbn [List.filter]. destruct (P x); cbn [length]; now rewrite IH.
Qed.

Lemma filter_ordered (P : A -> bool) (l : list A) :
  StronglySorted ge_key l -> StronglySorted ge_key (List.filter P l).
Proof.
  induction 1 as [|y rest Hs IH Hall]; cbn; [constructor|].
  destruct (P y); [|exact IH].
  constructor; [exact IH|].
  apply List.Forall_forall. intros z Hz. apply filter_In in Hz.
  rewrite List.Forall_forall in Hall. now apply Hall.
Qed.

Lemma firstn_ordered (n : nat) (l : list A) :
  StronglySorted ge_key l -> StronglySorted ge_key (firstn n l).
Proof.
  intros Hs. revert n. induction Hs as [|y rest Hs IH Hall]; intros [|n]; cbn;
    try constructor.
  - apply IH.
  - apply List.Forall_forall. intros z Hz.
    rewrite List.Forall_forall in Hall. apply Hall.
    eapply In_firstn, Hz.
Qed.
End Descending.

End JSArrayFacts.

(** * Properties of double-precision rounding *)
Module JSNumFacts.

Ltac compared :=
  repeat match goal with
         | H : (_ ?= _)%Q = Eq |- _ => apply Qeq_alt in H
         | H : (_ ?= _)%Q = Lt |- _ => apply Qlt_alt in H
         | H : (_ ?= _)%Q = Gt |- _ => apply Qgt_alt in H
         end.

Lemma nearest_even_bounds (x : Q) :
  Qfloor x <= nearest_even x <= Qfloor x + 1.
Proof.
  unfold nearest_even.
  destruct (x - inject_Z (Qfloor x) ?= 1 # 2)%Q; [destruct (Z.even _)| |]; lia.
Qed.

Lemma nearest_even_mono (x y : Q) : (x <= y)%Q -> nearest_even x <= nearest_even y.
Proof.
  intros H.
  pose proof (Qfloor_resp_le _ _ H) as Hf.
  destruct (Z_lt_le_dec (Qfloor x) (Qfloor y)) as [Hlt|Hle].
  - pose proof (nearest_even_bounds x). pose proof (nearest_even_bounds y). lia.
  - assert (Heq : Qfloor x = Qfloor y) by lia.
    unfold nearest_even. rewrite Heq.
    destruct (x - inject_Z (Qfloor y) ?= 1 # 2)%Q eqn:Hx;
      destruct (y - inject_Z (Qfloor y) ?= 1 # 2)%Q eqn:Hy;
      try (destruct (Z.even (Qfloor y))); try lia;
      compared; exfalso; lra.
Qed.

Lemma nearest_even_ge (x : Q) (n : Z) : (inject_Z n <= x)%Q -> n <= nearest_even x.
Proof.
  intros H. apply Qfloor_resp_le in H. rewrite Qfloor_Z in H.
  pose proof (nearest_even_bounds x). lia.
Qed.

Lemma nearest_even_le (x : Q) (n : Z) : (x <= inject_Z n)%Q -> nearest_even x <= n.
Proof.
  intros H. pose proof (nearest_even_mono _ _ H) as Hm.
  eapply Z.le_trans; [exact Hm|].
  unfold nearest_even. rewrite Qfloor_Z.
  destruct (inject_Z n - inject_Z n ?= 1 # 2)%Q eqn:Hc; try lia;
    compared; exfalso; lra.
Qed.

Lemma pow2_pos (z : Z) : (0 < 2 ^ z)%Q.
Proof. apply Qpower_0_lt. reflexivity. Qed.

Lemma pow2_inject (n : Z) : 0 <= n -> (inject_Z (2 ^ n) == 2 ^ n)%Q.
Proof. intros H. rewrite Zpower_Qpower by exact H. reflexivity. Qed.

Lemma pow2_plus (n m : Z) : (2 ^ (n + m) == 2 ^ n * 2 ^ m)%Q.
Proof. apply Qpower_plus. discriminate. Qed.

Lemma pow2_le (n m : Z) : n <= m -> (2 ^ n <= 2 ^ m)%Q.
Proof. intros H. apply Qpower_le_compat_l; [exact H|discriminate]. Qed.

Lemma ilog2_spec (q : Q) :
  (0 < q)%Q -> (2 ^ ilog2 q <= q)%Q /\ (q < 2 ^ (ilog2 q + 1))%Q.
Proof.
  intros Hq. destruct q as [a b].
  assert (Ha : 0 < a) by (unfold Qlt in Hq; cbn in Hq; lia).
  unfold ilog2. cbn [Qnum Qden].
  set (la := Z.log2 a). set (lb := Z.log2 (Z.pos b)).
  pose proof (Z.log2_nonneg a) as Hla0. pose proof (Z.log2_nonneg (Z.pos b)) as Hlb0.
  fold la in Hla0. fold lb in Hlb0.
  destruct (Z.log2_spec a Ha) as [Ha1 Ha2]. fold la in Ha1, Ha2.
  destruct (Z.log2_spec (Z.pos b) eq_refl) as [Hb1 Hb2]. fold lb in Hb1, Hb2.
  rewrite Zle_Qle in Ha1, Hb1. rewrite Zlt_Qlt in Ha2, Hb2.
  rewrite <- Z.add_1_r in Ha2, Hb2.
  rewrite pow2_inject in Ha1, Ha2, Hb1, Hb2 by lia.
  assert (Hab : ((a # b) * inject_Z (Z.pos b) == inject_Z a)%Q).
  { rewrite (Qmake_Qdiv a b). field. discriminate. }
  pose proof (pow2_pos la) as Pla. pose proof (pow2_pos lb) as Plb.
  pose proof (pow2_pos (lb + 1)) as Plb1.
  assert (Hup : (a # b < 2 ^ (la - lb + 1))%Q).
  { replace (la - lb + 1) with ((la + 1) - lb) by lia.
    rewrite Qpower_minus by discriminate.
    apply Qlt_shift_div_l; [exact Plb|].
    apply Qle_lt_trans with ((a # b) * inject_Z (Z.pos b))%Q.
    - apply Qmult_le_l; [exact Hq|exact Hb1].
    - rewrite Hab. exact Ha2. }
  assert (Hlow : (2 ^ (la - lb - 1) < a # b)%Q).
  { replace (la - lb - 1) with (la - (lb + 1)) by lia.
    rewrite Qpower_minus by discriminate.
    apply Qlt_shift_div_r; [exact Plb1|].
    apply Qle_lt_trans with ((a # b) * inject_Z (Z.pos b))%Q.
    - rewrite Hab. exact Ha1.
    - apply Qmult_lt_l; [exact Hq|exact Hb2]. }
  destruct (Qle_bool (2 ^ (la - lb)) (a # b)) eqn:Hc.
  - apply Qle_bool_iff in Hc. split; [exact Hc|exact Hup].
  - split; [apply Qlt_le_weak; exact Hlow|].
    replace (la - lb - 1 + 1) with (la - lb) by lia.
    apply Qnot_le_lt. intros Hle. apply Qle_bool_iff in Hle. congruence.
Qed.

Lemma scaled_bounds (q : Q) :
  (0 < q)%Q ->
  (inject_Z (2 ^ 52) <= q / 2 ^ (ilog2 q - 52))%Q /\
  (q / 2 ^ (ilog2 q - 52) <= inject_Z (2 ^ 53))%Q.
Proof.
  intros Hq. destruct (ilog2_spec q Hq) as [Hlo Hhi].
  pose proof (pow2_pos (ilog2 q - 52)) as He.
  rewrite !pow2_inject by lia.
  split.
  - apply Qle_shift_div_l; [exact He|].
    rewrite <- pow2_plus. replace (52 + (ilog2 q - 52)) with (ilog2 q) by lia.
    exact Hlo.
  - apply Qle_shift_div_r; [exact He|].
    rewrite <- pow2_plus. replace (53 + (ilog2 q - 52)) with (ilog2 q + 1) by lia.
    apply Qlt_le_weak. exact Hhi.
Qed.

Lemma nearest_double_lower (q : Q) : (0 < q)%Q -> (2 ^ ilog2 q <= nearest_double q)%Q.
Proof.
  intros Hq. unfold nearest_double.
  destruct (scaled_bounds q Hq) as [Hlo _].
  apply nearest_even_ge in Hlo. rewrite Zle_Qle in Hlo.
  rewrite pow2_inject in Hlo by lia.
  replace (ilog2 q) with (52 + (ilog2 q - 52)) at 1 by lia.
  rewrite pow2_plus.
  apply Qmult_le_compat_r; [exact Hlo|apply Qlt_le_weak, pow2_pos].
Qed.

Lemma nearest_double_upper (q : Q) : (0 < q)%Q -> (nearest_double q <= 2 ^ (ilog2 q + 1))%Q.
Proof.
  intros Hq. unfold nearest_double.
  destruct (scaled_bounds q Hq) as [_ Hhi].
  apply nearest_even_le in Hhi. rewrite Zle_Qle in Hhi.
  rewrite pow2_inject in Hhi by lia.
  replace (ilog2 q + 1) with (53 + (ilog2 q - 52)) by lia.
  rewrite pow2_plus.
  apply Qmult_le_compat_r; [exact Hhi|apply Qlt_le_weak, pow2_pos].
Qed.

Lemma ilog2_mono (a b : Q) : (0 < a)%Q -> (a <= b)%Q -> ilog2 a <= ilog2 b.
Proof.
  intros Ha Hab.
  assert (Hb : (0 < b)%Q) by lra.
  destruct (ilog2_spec a Ha) as [Hlo _]. destruct (ilog2_spec b Hb) as [_ Hhi].
  destruct (Z_lt_le_dec (ilog2 b) (ilog2 a)) as [Hlt|Hle]; [|exact Hle].
  pose proof (pow2_le (ilog2 b + 1) (ilog2 a) ltac:(lia)). lra.
Qed.

Lemma nearest_double_mono (a b : Q) :
  (0 < a)%Q -> (a <= b)%Q -> (nearest_double a <= nearest_double b)%Q.
Proof.
  intros Ha Hab.
  assert (Hb : (0 < b)%Q) by lra.
  pose proof (ilog2_mono a b Ha Hab) as Hl.
  destruct (Z.eq_dec (ilog2 a) (ilog2 b)) as [Heq|Hne].
  - unfold nearest_double. rewrite Heq.
    pose proof (pow2_pos (ilog2 b - 52)) as He.
    apply Qmult_le_compat_r; [|apply Qlt_le_weak; exact He].
    rewrite <- Zle_Qle. apply nearest_even_mono.
    apply Qmult_le_compat_r; [exact Hab|].
    apply Qlt_le_weak, Qinv_lt_0_compat. exact He.
  - apply Qle_trans with (2 ^ (ilog2 a + 1))%Q; [apply nearest_double_upper; exact Ha|].
    apply Qle_trans with (2 ^ ilog2 b)%Q; [apply pow2_le; lia|].
    apply nearest_double_lower. exact Hb.
Qed.

Lemma binary64_nonneg (a : Q) : (0 <= a)%Q -> (0 <= binary64 a)%Q.
Proof.
  intros Ha. unfold binary64.
  destruct (a ?= 0)%Q eqn:Hc; compared; [apply Qle_refl|exfalso; lra|].
  pose proof (nearest_double_lower a Hc). pose proof (pow2_pos (ilog2 a)). lra.
Qed.

Lemma binary64_mono (a b : Q) : (0 <= a)%Q -> (a <= b)%Q -> (binary64 a <= binary64 b)%Q.
Proof.
  intros Ha Hab. unfold binary64 at 1.
  destruct (a ?= 0)%Q eqn:Hc; compared.
  - apply binary64_nonneg. lra.
  - exfalso; lra.
  - unfold binary64. destruct (b ?= 0)%Q eqn:Hd; compared; try (exfalso; lra).
    apply nearest_double_mono; assumption.
Qed.

End JSNumFacts.

(** * Properties of the job catalog and the matcher *)
Module RAGFacts.
Import JSString JSArray JSArraySpec JSArrayFacts JSNumFacts RAGService MatcherSpec.

Example loaded_jobs :
  getAllJobs loaded
  = [plain_job 1 "Acme" ["JavaScript"; "Node.js"; "SQL"];
     plain_job 2 "Globex" ["Python"; "Django"];
     plain_job 3 "Initech" []].
Proof. vm_compute. reflexivity. Qed.

Example loaded_by_id :
  getJobById loaded 2 = Some (plain_job 2 "Globex" ["Python"; "Django"]).
Proof. vm_compute. reflexivity. Qed.

(** ** Strings *)

Lemma includes_empty (s : string) : includes s "" = true.
Proof. destruct s; reflexivity. Qed.

(** ** The two loops *)

Lemma some_contains_map (candidateSkills : list string) (required : string) :
  some_contains (List.map toLowerCase candidateSkills) (toLowerCase required)
  = contains_either_way candidateSkills required.
Proof.
  unfold some_contains, contains_either_way.
  induction candidateSkills as [|c rest IH]; cbn; [reflexivity|].
  now rewrite IH.
Qed.

Lemma count_loop {A} (f : A -> bool) (l : list A) (n : nat) :
  fold_left (fun matches x => if f x then (matches + 1)%nat else matches) l n
  = (n + length (List.filter f l))%nat.
Proof.
  revert n. induction l as [|x rest IH]; intros n; cbn; [lia|].
  rewrite IH. destruct (f x); cbn; lia.
Qed.

Lemma push_loop {A} (f : A -> bool) (l acc : list A) :
  fold_left (fun matched x => if f x then matched ++ [x] else matched) l acc
  = acc ++ List.filter f l.
Proof.
  revert acc. induction l as [|x rest IH]; intros acc; cbn.
  - now rewrite app_nil_r.
  - rewrite IH. destruct (f x); [|reflexivity].
    now rewrite <- app_assoc.
Qed.

Lemma calculateMatchScore_spec (candidateSkills : list string) (job : Job) :
  _calculateMatchScore candidateSkills job = spec_match_score candidateSkills job.
Proof.
  unfold _calculateMatchScore, spec_match_score.
  destruct (required_skills job) as [|r rest] eqn:Hreq; [reflexivity|].
  cbn [length Nat.eqb].
  rewrite count_loop, Nat.add_0_l, filter_map_swap, !length_map.
  rewrite (filter_ext _ (contains_either_way candidateSkills)
             (fun x => some_contains_map candidateSkills x)).
  reflexivity.
Qed.

Lemma findMatchedSkills_spec (candidateSkills : list string) (job : Job) :
  _findMatchedSkills candidateSkills job = spec_matched_skills candidateSkills job.
Proof.
  unfold _findMatchedSkills, spec_matched_skills.
  rewrite (push_loop (fun r => some_contains (List.map toLowerCase candidateSkills)
                                             (toLowerCase r))).
  cbn [app]. apply filter_ext. intros r. apply some_contains_map.
Qed.

(** ** The ranked array *)

Lemma filteredMatches_unfold this cs :
  filteredMatches this cs
  = List.filter over_floor (sort (desc match_score) (List.map (to_match cs) (jobs this))).
Proof. reflexivity. Qed.

Lemma filter_twice {A} (P Q : A -> bool) (l : list A) :
  List.filter P (List.filter Q l) = List.filter (fun x => Q x && P x) l.
Proof.
  induction l as [|x rest IH]; cbn; [reflexivity|].
  destruct (Q x); cbn; [destruct (P x)|]; now rewrite IH.
Qed.

Lemma map_job_to_match cs (l : list Job) : List.map job (List.map (to_match cs) l) = l.
Proof. induction l as [|j rest IH]; cbn; [reflexivity|]. now rewrite IH. Qed.

Lemma filteredMatches_In this cs (m : Match) :
  In m (filteredMatches this cs)
  <-> exists j, In j (jobs this) /\ m = to_match cs j /\ passes_floor cs j = true.
Proof.
  rewrite filteredMatches_unfold, filter_In, sort_In, in_map_iff.
  split.
  - intros [(j & <- & Hj) Hm]. exists j. auto.
  - intros (j & Hj & -> & Hm). split; [exists j|]; auto.
Qed.

Lemma filteredMatches_length this cs :
  length (filteredMatches this cs) = length (List.filter (passes_floor cs) (jobs this)).
Proof.
  rewrite filteredMatches_unfold, filter_sort_length, filter_map_swap, length_map.
  reflexivity.
Qed.

Lemma filteredMatches_ordered this cs :
  StronglySorted (ge_key match_score) (filteredMatches this cs).
Proof. rewrite filteredMatches_unfold. apply filter_ordered, sort_ordered. Qed.

Lemma filteredMatches_stable this cs (q : Q) :
  List.map job (List.filter (fun m => Qeq_bool (match_score m) q) (filteredMatches this cs))
  = List.filter (fun j => passes_floor cs j && Qeq_bool (_calculateMatchScore cs j) q)
                (jobs this).
Proof.
  rewrite filteredMatches_unfold, filter_twice, sort_stable.
  - rewrite filter_map_swap, map_job_to_match. reflexivity.
  - intros x y Hx Hy.
    apply andb_prop in Hx as [_ Hx]. apply andb_prop in Hy as [_ Hy].
    apply Qeq_bool_iff in Hx, Hy. rewrite Hx, Hy. reflexivity.
Qed.

(** ** The score returned *)

Lemma computed_score_mono (a b : Q) :
  (0 <= a)%Q -> (a <= b)%Q -> (computed_score a <= computed_score b)%Q.
Proof.
  intros Ha Hab. unfold computed_score.
  assert (Ha' : (0 <= a / 100)%Q) by (apply Qle_shift_div_l; [reflexivity|lra]).
  assert (Hab' : (a / 100 <= b / 100)%Q)
    by (apply Qmult_le_compat_r; [exact Hab|discriminate]).
  pose proof (binary64_nonneg _ Ha') as H0.
  pose proof (binary64_mono _ _ Ha' Hab') as H1.
  apply binary64_mono; lra.
Qed.

Lemma rounded_over_floor (s : Q) :
  (40 <= s)%Q -> 40 <= Qfloor (computed_score s + (1 # 2)).
Proof.
  intros H. rewrite <- (Qfloor_Z 40). apply Qfloor_resp_le.
  assert (H40 : (computed_score 40 == 40)%Q) by (vm_compute; reflexivity).
  pose proof (computed_score_mono 40 s ltac:(discriminate) H) as Hm.
  change (inject_Z 40) with 40%Q. lra.
Qed.

Lemma shown_scores_ordered (l : list Match) :
  List.Forall (fun m => (0 <= match_score m)%Q) l ->
  StronglySorted (ge_key match_score) l ->
  StronglySorted (fun a b => mj_match_score b <= mj_match_score a)
                 (List.map to_matched_job l).
Proof.
  intros Hpos. induction 1 as [|m rest Hs IH Hall]; cbn [List.map]; constructor.
  - apply IH. now inversion Hpos.
  - apply List.Forall_forall. intros mj Hin. apply in_map_iff in Hin.
    destruct Hin as (m' & <- & Hm'). rewrite List.Forall_forall in Hall, Hpos.
    specialize (Hall m' Hm'). unfold ge_key in Hall.
    cbn [to_matched_job mj_match_score]. apply Qfloor_resp_le.
    pose proof (computed_score_mono (match_score m') (match_score m)
                  (Hpos m' (or_intror Hm')) Hall).
    lra.
Qed.

(** C4, as the code has it: for a verified candidate, a catalog that
    holds at least one job and a non-negative [topK],
    [retrieveMatchingJobs] returns the first [topK] elements of the
    eligible array and reports the length of the whole eligible array as
    [total_matches]. The eligible array holds exactly the catalog jobs
    whose UNROUNDED score is at least 40 (so [total_matches] counts all
    of them), in descending order of that score, and jobs of equal
    unrounded score stand in catalog order. The [match_score] returned
    with a job is that score rounded to the nearest integer: it is at
    least 40 and never increases along the result, the slice is never
    longer than [total_matches]. The result is this function of the
    catalog and the arguments and of nothing else. *)
Theorem retrieveMatchingJobs_ranks_eligible_jobs
    (this : Catalog) (candidateSkills : list string)
    (evaluationResult : AnswerEvaluationService.EvaluationResult) (topK : Z) :
  jobs this <> [] ->
  AnswerEvaluationService.is_verified evaluationResult = true ->
  0 <= topK ->
  let eligible := filteredMatches this candidateSkills in
  let returned := List.map to_matched_job (firstn (Z.to_nat topK) eligible) in
  retrieveMatchingJobs this candidateSkills evaluationResult topK
  = Ok (Matches returned (length eligible)
                (AnswerEvaluationService.average_score evaluationResult) "VERIFIED") /\
  (forall m, In m eligible <->
             exists j, In j (jobs this) /\ m = to_match candidateSkills j /\
                       (40 <= _calculateMatchScore candidateSkills j)%Q) /\
  length eligible = length (List.filter (passes_floor candidateSkills) (jobs this)) /\
  StronglySorted (fun a b => (match_score b <= match_score a)%Q) eligible /\
  (forall q : Q,
     List.map job (List.filter (fun m => Qeq_bool (match_score m) q) eligible)
     = List.filter (fun j => passes_floor candidateSkills j
                             && Qeq_bool (_calculateMatchScore candidateSkills j) q)
                   (jobs this)) /\
  (forall mj, In mj returned -> 40 <= mj_match_score mj) /\
  StronglySorted (fun a b => mj_match_score b <= mj_match_score a) returned /\
  length returned = Nat.min (Z.to_nat topK) (length eligible).
Proof.
  intros Hjobs Hver Htop eligible returned.
  split; [|split; [|split; [|split; [|split; [|split; [|split]]]]]].
  - unfold retrieveMatchingJobs, slice0.
    destruct (jobs this) as [|j rest] eqn:Hj; [congruence|].
    cbn [length Nat.eqb]. rewrite Hver. cbn [negb].
    destruct (topK <? 0) eqn:Hneg; [apply Z.ltb_lt in Hneg; lia|].
    subst returned eligible. unfold filteredMatches, ranked. rewrite Hj. reflexivity.
  - intros m. subst eligible. rewrite filteredMatches_In.
    unfold passes_floor. setoid_rewrite Qle_bool_iff. reflexivity.
  - apply filteredMatches_length.
  - apply filteredMatches_ordered.
  - apply filteredMatches_stable.
  - intros mj Hin. subst returned. apply in_map_iff in Hin.
    destruct Hin as (m & <- & Hm). apply In_firstn in Hm.
    apply filteredMatches_In in Hm. destruct Hm as (j & _ & -> & Hfloor).
    cbn [to_matched_job mj_match_score to_match match_score].
    apply rounded_over_floor. now apply Qle_bool_iff.
  - subst returned. apply shown_scores_ordered.
    + apply List.Forall_forall. intros m Hm. apply In_firstn in Hm.
      apply filteredMatches_In in Hm. destruct Hm as (j & _ & -> & Hfloor).
      apply Qle_bool_iff in Hfloor. cbn [to_match match_score]. lra.
    + apply firstn_ordered, filteredMatches_ordered.
  - subst returned. now rewrite length_map, length_firstn.
Qed.

(** Hooli and Stark both score 50 and keep their catalog order behind
    Umbrella (100); three jobs are eligible, two are returned. *)
Lemma retrieveMatchingJobs_ranks_eligible_jobs_witness :
  exists first second,
    retrieveMatchingJobs with_ties ["Python"] (verdict true) 2
    = Ok (Matches [first; second] 3 (of_Z 75) "VERIFIED") /\
    (mj_company_name first, mj_match_score first) = ("Umbrella"%string, 100) /\
    (mj_company_name second, mj_match_score second) = ("Hooli"%string, 50).
Proof.
  destruct (retrieveMatchingJobs_ranks_eligible_jobs with_ties ["Python"] (verdict true) 2)
    as (Hrun & _).
  - vm_compute. discriminate.
  - reflexivity.
  - lia.
  - rewrite Hrun. eexists _, _. split; [vm_compute; reflexivity|].
    split; reflexivity.
Defined.

(** C4, counterexample: the first job of the catalog matches eleven of
    its twelve skills (91.67), the second twelve of its thirteen (92.31).
    Both are returned with [match_score] 92, the second job of the
    catalog first: two jobs that show the same [match_score] do not stand
    in catalog order, since the ranking is on the score before
    rounding. *)
Lemma equal_match_scores_not_in_catalog_order :
  exists first second,
    retrieveMatchingJobs near_ties ["s"] (verdict true) 5
    = Ok (Matches [first; second] 2 (of_Z 75) "VERIFIED") /\
    mj_match_score first = mj_match_score second /\
    (mj_id first, mj_match_score first) = (2%nat, 92) /\
    (mj_id second, mj_match_score second) = (1%nat, 92) /\
    List.map id (jobs near_ties) = [1; 2]%nat.
Proof.
  eexists _, _. split; [vm_compute; reflexivity|].
  repeat split.
Qed.

(** The rounding is that of the double the code holds: 23 of 40 skills
    give 57.49999999999999, shown as 57, where the exact ratio 57.5 would
    be shown as 58. *)
Example match_score_23_of_40 :
  Qfloor (computed_score (inject_Z 23 / inject_Z 40 * 100) + (1 # 2)) = 57 /\
  Qfloor (inject_Z 23 / inject_Z 40 * 100 + (1 # 2)) = 58.
Proof. split; vm_compute; reflexivity. Qed.

(** ** The catalog *)

(** C2, as the code has it: [loadJobsData] empties [jobs] and [jobIndex]
    before it looks at the file; when the file does not exist it throws
    and the catalog is left EMPTY, whatever it held before. *)
Theorem loadJobsData_missing_file_empties_catalog
    (fs : FileSystem) (csvPath : string) (this : Catalog) :
  fs csvPath = None ->
  loadJobsData fs csvPath this
  = (Throw ("Jobs CSV file not found: " +:+ csvPath), empty_catalog) /\
  getAllJobs (snd (loadJobsData fs csvPath this)) = [] /\
  (forall jobId, getJobById (snd (loadJobsData fs csvPath this)) jobId = None).
Proof.
  intros Hfs. unfold loadJobsData. rewrite Hfs. cbn [snd].
  split; [reflexivity|]. split; [reflexivity|].
  intros jobId. unfold getJobById. cbn [jobIndex]. apply lookup_empty.
Qed.

Lemma loadJobsData_missing_file_empties_catalog_witness :
  loadJobsData disk "missing.csv" loaded
  = (Throw "Jobs CSV file not found: missing.csv", empty_catalog).
Proof.
  apply (loadJobsData_missing_file_empties_catalog disk "missing.csv" loaded).
  reflexivity.
Defined.

(** C2, counterexample: a catalog of three jobs, then a load of a file
    that does not exist: the load throws and the three jobs are gone,
    from [getAllJobs] and from [getJobById]. *)
Lemma failed_load_loses_previous_catalog :
  disk "missing.csv" = None /\
  length (getAllJobs loaded) = 3%nat /\
  getJobById loaded 1 = Some (plain_job 1 "Acme" ["JavaScript"; "Node.js"; "SQL"]) /\
  fst (loadJobsData disk "missing.csv" loaded)
  = Throw "Jobs CSV file not found: missing.csv" /\
  getAllJobs (snd (loadJobsData disk "missing.csv" loaded)) = [] /\
  getJobById (snd (loadJobsData disk "missing.csv" loaded)) 1 = None /\
  getAllJobs (snd (loadJobsData disk "missing.csv" loaded)) <> getAllJobs loaded.
Proof.
  repeat split; try (vm_compute; reflexivity).
  vm_compute. discriminate.
Qed.

(** ** The verification gate *)

(** C3, as the code has it: the empty-catalog check comes first. For an
    unverified candidate and a catalog that holds at least one job the
    result is the fixed object with no matched job and the reason
    [verification_failed], the same for every skill list, catalog and
    [topK]; on an empty catalog the call throws instead. *)
Theorem unverified_candidate_gets_no_matches
    (this : Catalog) (candidateSkills : list string)
    (evaluationResult : AnswerEvaluationService.EvaluationResult) (topK : Z) :
  AnswerEvaluationService.is_verified evaluationResult = false ->
  (jobs this <> [] ->
   retrieveMatchingJobs this candidateSkills evaluationResult topK
   = Ok (NotVerified [] "Candidate not verified. No job applications sent."
                     "verification_failed")) /\
  (jobs this = [] ->
   retrieveMatchingJobs this candidateSkills evaluationResult topK
   = Throw "No jobs loaded. Call loadJobsData first.").
Proof.
  intros Hver. unfold retrieveMatchingJobs. rewrite Hver. cbn [negb].
  split; intros Hjobs.
  - destruct (jobs this); [congruence|reflexivity].
  - rewrite Hjobs. reflexivity.
Qed.

Lemma unverified_candidate_gets_no_matches_witness :
  retrieveMatchingJobs loaded ["Python"; "Django"] (verdict false) 5
  = Ok (NotVerified [] "Candidate not verified. No job applications sent."
                    "verification_failed") /\
  retrieveMatchingJobs empty_catalog ["Python"; "Django"] (verdict false) 5
  = Throw "No jobs loaded. Call loadJobsData first.".
Proof.
  split.
  - apply (unverified_candidate_gets_no_matches loaded ["Python"; "Django"]
             (verdict false) 5); [reflexivity|].
    vm_compute. discriminate.
  - apply (unverified_candidate_gets_no_matches empty_catalog ["Python"; "Django"]
             (verdict false) 5); reflexivity.
Defined.

(** C3, counterexample: with the catalog never loaded, the unverified
    candidate gets the exception of the empty catalog, not the
    [verification_failed] result. *)
Lemma unverified_on_empty_catalog_throws :
  AnswerEvaluationService.is_verified (verdict false) = false /\
  retrieveMatchingJobs empty_catalog ["Python"] (verdict false) 5
  = Throw "No jobs loaded. Call loadJobsData first." /\
  (forall matched message,
     retrieveMatchingJobs empty_catalog ["Python"] (verdict false) 5
     <> Ok (NotVerified matched message "verification_failed")).
Proof.
  split; [reflexivity|]. split; [reflexivity|].
  intros matched message. cbv. discriminate.
Qed.

(** ** The score of one job *)

Lemma no_required_skills_scores_zero cs (j : Job) :
  required_skills j = [] -> _calculateMatchScore cs j = 0%Q.
Proof. intros H. unfold _calculateMatchScore. rewrite H. reflexivity. Qed.

(** C5: the score computed by [_calculateMatchScore] is the number of
    required skills that contain, or are contained in, some candidate
    skill (both case-folded), divided by the number of required skills,
    times 100; it is 0 when nothing is required, and then the job is in
    no eligible array; [_findMatchedSkills] returns the required skills
    that pass the same test, as the job spells them and in the job's
    order. *)
Theorem match_score_counts_contained_skills
    (candidateSkills : list string) (j : Job) :
  _calculateMatchScore candidateSkills j = spec_match_score candidateSkills j /\
  _findMatchedSkills candidateSkills j = spec_matched_skills candidateSkills j /\
  (required_skills j = [] ->
   _calculateMatchScore candidateSkills j = 0%Q /\
   forall this m, In m (filteredMatches this candidateSkills) -> job m <> j).
Proof.
  split; [apply calculateMatchScore_spec|].
  split; [apply findMatchedSkills_spec|].
  intros Hreq. split; [now apply no_required_skills_scores_zero|].
  intros this m Hm Heq. subst j. apply filteredMatches_In in Hm.
  destruct Hm as (j' & _ & -> & Hfloor). cbn [to_match job] in Hreq.
  unfold passes_floor in Hfloor.
  rewrite (no_required_skills_scores_zero _ _ Hreq) in Hfloor. discriminate.
Qed.

(** Scenario B of the specification, and a job that requires nothing. *)
Lemma match_score_counts_contained_skills_witness :
  _calculateMatchScore ["Python"; "Django"; "PostgreSQL"]
    (plain_job 2 "Globex" ["Python"; "Django"]) = (2 / 2 * 100)%Q /\
  _findMatchedSkills ["python"; "DJANGO"; "PostgreSQL"]
    (plain_job 2 "Globex" ["Python"; "Django"]) = ["Python"; "Django"] /\
  _calculateMatchScore ["Python"] (plain_job 3 "Initech" []) = 0%Q.
Proof.
  split; [|split].
  - rewrite (proj1 (match_score_counts_contained_skills _ _)). reflexivity.
  - rewrite (proj1 (proj2 (match_score_counts_contained_skills _ _))). reflexivity.
  - apply (proj2 (proj2 (match_score_counts_contained_skills ["Python"]
                           (plain_job 3 "Initech" [])))).
    reflexivity.
Defined.

(** Scenario A of the specification: one required skill out of three is
    matched, the score is below the floor. *)
Example scenario_A :
  (_calculateMatchScore ["JavaScript"; "React"]
     (plain_job 1 "Acme" ["JavaScript"; "Node.js"; "SQL"]) == 100 # 3)%Q /\
  passes_floor ["JavaScript"; "React"]
    (plain_job 1 "Acme" ["JavaScript"; "Node.js"; "SQL"]) = false.
Proof. split; vm_compute; reflexivity. Qed.

(** ** The empty candidate skill *)

Lemma empty_skill_contains_either_way cs (required : string) :
  In ""%string cs -> contains_either_way cs required = true.
Proof.
  intros Hin. unfold contains_either_way. apply existsb_exists.
  exists ""%string. split; [exact Hin|].
  cbn [toLowerCase]. rewrite (includes_empty (toLowerCase required)).
  apply orb_true_r.
Qed.

Lemma filter_all {A} (f : A -> bool) (l : list A) :
  (forall x, f x = true) -> List.filter f l = l.
Proof.
  intros Hall. induction l as [|x rest IH]; cbn; [reflexivity|].
  now rewrite Hall, IH.
Qed.

Lemma empty_skill_full_score cs (j : Job) :
  In ""%string cs -> required_skills j <> [] ->
  (_calculateMatchScore cs j == 100)%Q.
Proof.
  intros Hin Hreq. rewrite calculateMatchScore_spec. unfold spec_match_score.
  destruct (required_skills j) as [|r rest]; [congruence|].
  rewrite (filter_all _ _ (fun x => empty_skill_contains_either_way cs x Hin)).
  field. unfold Qeq. cbn. lia.
Qed.

Lemma empty_skill_passes_floor cs (j : Job) :
  In ""%string cs -> passes_floor cs j = has_required_skills j.
Proof.
  intros Hin. unfold passes_floor, has_required_skills.
  destruct (required_skills j) as [|r rest] eqn:Hreq.
  - now rewrite (no_required_skills_scores_zero _ _ Hreq).
  - apply Qle_bool_iff. rewrite (empty_skill_full_score cs j Hin); [discriminate|].
    rewrite Hreq. discriminate.
Qed.

(** C9: when the candidate's skill list contains the empty string, every
    job that requires at least one skill scores 100 and has all its
    required skills matched; it is therefore in the eligible array of
    every catalog that holds it, and a verified request over a non-empty
    catalog reports as [total_matches] the number of jobs that require
    at least one skill. *)
Theorem empty_candidate_skill_matches_every_job
    (candidateSkills : list string) (j : Job) :
  In ""%string candidateSkills ->
  required_skills j <> [] ->
  (_calculateMatchScore candidateSkills j == 100)%Q /\
  _findMatchedSkills candidateSkills j = required_skills j /\
  (forall this, In j (jobs this) ->
     In (to_match candidateSkills j) (filteredMatches this candidateSkills)) /\
  (forall this evaluationResult topK,
     In j (jobs this) ->
     AnswerEvaluationService.is_verified evaluationResult = true ->
     exists matched,
       retrieveMatchingJobs this candidateSkills evaluationResult topK
       = Ok (Matches matched
                     (length (List.filter has_required_skills (jobs this)))
                     (AnswerEvaluationService.average_score evaluationResult)
                     "VERIFIED")).
Proof.
  intros Hin Hreq.
  split; [now apply empty_skill_full_score|].
  split.
  { rewrite findMatchedSkills_spec. unfold spec_matched_skills.
    apply filter_all. intros r. now apply empty_skill_contains_either_way. }
  split.
  - intros this Hj. apply filteredMatches_In. exists j.
    split; [exact Hj|]. split; [reflexivity|].
    rewrite empty_skill_passes_floor by exact Hin.
    unfold has_required_skills. destruct (required_skills j); congruence.
  - intros this ev topK Hj Hver. unfold retrieveMatchingJobs.
    destruct (jobs this) as [|j0 rest] eqn:Hjobs; [destruct Hj|].
    cbn [length Nat.eqb]. rewrite Hver. cbn [negb].
    eexists. f_equal. f_equal.
    rewrite filteredMatches_length, Hjobs.
    f_equal. apply filter_ext. intros x. now apply empty_skill_passes_floor.
Qed.

Lemma empty_candidate_skill_matches_every_job_witness :
  (_calculateMatchScore ["Cobol"; ""]
     (plain_job 1 "Acme" ["JavaScript"; "Node.js"; "SQL"]) == 100)%Q /\
  _findMatchedSkills ["Cobol"; ""]
     (plain_job 1 "Acme" ["JavaScript"; "Node.js"; "SQL"])
  = ["JavaScript"; "Node.js"; "SQL"] /\
  exists matched,
    retrieveMatchingJobs loaded ["Cobol"; ""] (verdict true) 5
    = Ok (Matches matched 2 (of_Z 75) "VERIFIED").
Proof.
  destruct (empty_candidate_skill_matches_every_job ["Cobol"; ""]
              (plain_job 1 "Acme" ["JavaScript"; "Node.js"; "SQL"]))
    as (Hscore & Hmatched & _ & Hall).
  - cbn. auto.
  - cbn. discriminate.
  - split; [exact Hscore|]. split; [exact Hmatched|].
    apply (Hall loaded (verdict true) 5).
    + vm_compute. auto.
    + reflexivity.
Defined.

End RAGFacts.

(** * Properties of the application dispatcher *)
Module EmailFacts.
Import RAGService EmailService DispatchSpec.

Section Batch.
Variable smtpConfig : SmtpConfig.
Variable sendMail : list Mail -> Mail -> string + string.
Variable now : list Mail -> string.
Variable candidateInfo : CandidateInfo.
Variable resumePDF : string.

Local Abbreviation mail_of := (DispatchSpec.mail_of smtpConfig candidateInfo resumePDF).
Local Abbreviation outcome :=
  (DispatchSpec.outcome smtpConfig sendMail now candidateInfo resumePDF).
Local Abbreviation outcomes :=
  (DispatchSpec.outcomes smtpConfig sendMail now candidateInfo resumePDF).

(** A batch of job objects runs to its end. *)
Lemma sendLoop_runs matchedJobs : forall results outbox,
  sendLoop smtpConfig sendMail now (List.map Some matchedJobs) candidateInfo resumePDF
           results outbox
  = (Ok (results ++ outcomes outbox matchedJobs),
     outbox ++ List.map mail_of matchedJobs).
Proof.
  induction matchedJobs as [|j rest IH]; intros results outbox.
  - cbn. unfold ret. now rewrite !app_nil_r.
  - cbn [sendLoop DispatchSpec.outcomes List.map].
    unfold bind at 1, try_catch, prop, bind, sendApplicationEmail, ret,
      DispatchSpec.outcome.
    cbn [to candidateName jobRole companyName].
    fold (mail_of j).
    destruct (sendMail outbox (mail_of j)) as [message|info];
      rewrite IH, <- !app_assoc; reflexivity.
Qed.

(** A [null] entry raises in the [try] block and again in the [catch]
    block: the loop ends there, after the mails of the entries before
    it. *)
Lemma sendLoop_stops_at_null (before : list MatchedJob) (rest : list (option MatchedJob)) :
  forall results outbox,
  sendLoop smtpConfig sendMail now (List.map Some before ++ None :: rest)
           candidateInfo resumePDF results outbox
  = (Throw "Cannot read properties of null (reading 'company_name')",
     outbox ++ List.map mail_of before).
Proof.
  induction before as [|j before IH]; intros results outbox.
  - cbn. now rewrite app_nil_r.
  - cbn [List.map app sendLoop].
    unfold bind at 1, try_catch, prop, bind, sendApplicationEmail, ret.
    cbn [to candidateName jobRole companyName].
    fold (mail_of j).
    destruct (sendMail outbox (mail_of j)) as [message|info];
      rewrite IH, <- !app_assoc; reflexivity.
Qed.

Lemma outcomes_length outbox matchedJobs :
  length (outcomes outbox matchedJobs) = length matchedJobs.
Proof.
  revert outbox. induction matchedJobs as [|j rest IH]; intros outbox; cbn;
    [reflexivity|now rewrite IH].
Qed.

Lemma outcome_job outbox j :
  (company (outcome outbox j), ar_jobRole (outcome outbox j), ar_email (outcome outbox j))
  = (mj_company_name j, mj_job_role j, mj_company_email j).
Proof. unfold DispatchSpec.outcome. destruct (sendMail _ _); reflexivity. Qed.

Lemma outcome_status outbox j :
  ar_status (outcome outbox j) = "sent"%string
  \/ ar_status (outcome outbox j) = "failed"%string.
Proof. unfold DispatchSpec.outcome. destruct (sendMail _ _); [right|left]; reflexivity. Qed.

Lemma outcomes_jobs outbox matchedJobs :
  List.map (fun r => (company r, ar_jobRole r, ar_email r)) (outcomes outbox matchedJobs)
  = List.map (fun j => (mj_company_name j, mj_job_role j, mj_company_email j)) matchedJobs.
Proof.
  revert outbox. induction matchedJobs as [|j rest IH]; intros outbox; cbn [DispatchSpec.outcomes List.map];
    [reflexivity|].
  now rewrite IH, outcome_job.
Qed.

Lemma outcomes_status outbox matchedJobs :
  List.Forall (fun r => ar_status r = "sent"%string \/ ar_status r = "failed"%string)
              (outcomes outbox matchedJobs).
Proof.
  revert outbox. induction matchedJobs as [|j rest IH]; intros outbox; cbn [DispatchSpec.outcomes];
    constructor; [apply outcome_status|apply IH].
Qed.

Lemma outcomes_lookup matchedJobs : forall outbox i j,
  matchedJobs !! i = Some j ->
  outcomes outbox matchedJobs !! i
  = Some (outcome (outbox ++ take i (List.map mail_of matchedJobs)) j).
Proof.
  induction matchedJobs as [|j0 rest IH]; intros outbox i j Hi; [destruct i; discriminate|].
  destruct i as [|i]; cbn in Hi |- *.
  - inversion Hi; subst. now rewrite app_nil_r.
  - rewrite (IH _ _ _ Hi), <- app_assoc. reflexivity.
Qed.


(** X31: on job objects, [sendBatchApplications] always returns. It
    hands one mail per job to the transporter, in the order of the
    jobs and whatever happened to the earlier ones, and returns one
    record per job in the same order; the record is ['sent'] with a
    timestamp when the transporter accepted that job's mail and
    ['failed'] with the error message when it raised. *)
Theorem sendBatchApplications_isolates_failures
    (matchedJobs : list MatchedJob) (outbox : list Mail) :
  exists results,
    sendBatchApplications smtpConfig sendMail now (List.map Some matchedJobs)
                          candidateInfo resumePDF outbox
    = (Ok results, outbox ++ List.map mail_of matchedJobs) /\
    length results = length matchedJobs /\
    List.map (fun r => (company r, ar_jobRole r, ar_email r)) results
    = List.map (fun j => (mj_company_name j, mj_job_role j, mj_company_email j))
               matchedJobs /\
    List.Forall (fun r => ar_status r = "sent"%string \/ ar_status r = "failed"%string)
                results /\
    (forall i j, matchedJobs !! i = Some j ->
       exists r, results !! i = Some r /\
         match sendMail (outbox ++ take i (List.map mail_of matchedJobs)) (mail_of j) with
         | inr _ => ar_status r = "sent"%string /\ ar_error r = None
                    /\ is_Some (ar_timestamp r)
         | inl message =>
             ar_status r = "failed"%string /\ ar_timestamp r = None /\
             ar_error r = Some ("Failed to send email to " +:+ mj_company_email j
                                +:+ ": " +:+ message)
         end).
Proof.
  exists (outcomes outbox matchedJobs).
  split; [unfold sendBatchApplications; rewrite sendLoop_runs; reflexivity|].
  split; [apply outcomes_length|].
  split; [apply outcomes_jobs|].
  split; [apply outcomes_status|].
  intros i j Hi. eexists. split; [apply outcomes_lookup; exact Hi|].
  unfold DispatchSpec.outcome. destruct (sendMail _ _); cbn; auto.
Qed.
End Batch.

(** Scenario D of the specification: three jobs, the second company's
    address is rejected. *)
Example scenario_D :
  exists results outbox,
    sendBatchApplications sender reject_globex timestamp
      [Some (pending "Acme" "hr@acme.example"); Some (pending "Globex" "hr@globex.example");
       Some (pending "Initech" "hr@initech.example")]
      {| name := "Ada" |} "%PDF" []
    = (Ok results, outbox) /\
    List.map ar_status results = ["sent"; "failed"; "sent"]%string /\
    List.map mail_to outbox
    = ["hr@acme.example"; "hr@globex.example"; "hr@initech.example"]%string.
Proof. eexists _, _. split; [vm_compute; reflexivity|]. split; reflexivity. Qed.

(** The same batch with [null] in the place of the second job: the call
    throws after the mail to the first company, and the third company is
    never written to. *)
Example null_entry_loses_later_jobs :
  exists outbox,
    sendBatchApplications sender reject_globex timestamp
      [Some (pending "Acme" "hr@acme.example"); None;
       Some (pending "Initech" "hr@initech.example")]
      {| name := "Ada" |} "%PDF" []
    = (Throw "Cannot read properties of null (reading 'company_name')", outbox) /\
    List.map mail_to outbox = ["hr@acme.example"]%string.
Proof. eexists. split; [vm_compute; reflexivity|]. reflexivity. Qed.

End EmailFacts.

(** * Further properties of the answer evaluation service *)
Module AnswerEvaluationMore.
Import AnswerEvaluationService Fixtures AnswerEvaluationSpec AnswerEvaluationFacts BatchSpec.

(** ** The clamp *)

Lemma geb_clamp (x : num) :
  JSNum.geb (JSNum.max (of_Z 0) (JSNum.min (of_Z 100) x)) (of_Z 70) = JSNum.geb x (of_Z 70).
Proof.
  unfold of_Z. destruct x as [| | |a]; try reflexivity.
  cbn [JSNum.min JSNum.max JSNum.geb].
  destruct (Qle_bool (inject_Z 100) a) eqn:H100.
  - cbn [JSNum.max JSNum.geb]. apply Qle_bool_iff in H100.
    change (Qle_bool (inject_Z 0) (inject_Z 100)) with true. cbn iota.
    symmetry. apply Qle_bool_iff.
    apply Qle_trans with (inject_Z 100); [discriminate|exact H100].
  - cbn [JSNum.max JSNum.geb].
    destruct (Qle_bool (inject_Z 0) a) eqn:H0; [reflexivity|].
    change (Qle_bool (inject_Z 70) (inject_Z 0)) with false.
    symmetry. destruct (Qle_bool (inject_Z 70) a) eqn:H70; [|reflexivity].
    apply Qle_bool_iff in H70.
    assert (Hle : (inject_Z 0 <= a)%Q)
      by (apply Qle_trans with (inject_Z 70); [discriminate|exact H70]).
    apply Qle_bool_iff in Hle. congruence.
Qed.

Lemma clamp_shape (x : num) :
  JSNum.max (of_Z 0) (JSNum.min (of_Z 100) x) = NaN
  \/ JSNum.within 0 100 (JSNum.max (of_Z 0) (JSNum.min (of_Z 100) x)).
Proof.
  destruct x as [| | |a]; [left; reflexivity| | |]; right; now apply clamp_within.
Qed.

(** X1: the clamp never changes the verdict of one answer: [passed] is
    the comparison of the oracle's own score with 70. *)
Theorem clamp_keeps_pass_or_fail
    (oracle : list Prompt -> Prompt -> string + OracleReply)
    (q ua ca : string) (kw : list string) (log log' : list Prompt)
    (e : AnswerEvaluation) :
  evaluateAnswer oracle q ua ca kw log = (Ok e, log') ->
  exists reply,
    oracle log {| prompt_question := q; prompt_correct_answer := ca;
                  prompt_user_answer := ua; prompt_keywords := join ", " kw |}
    = inr reply /\
    passed e = JSNum.geb (reply_score reply) (of_Z 70).
Proof.
  unfold evaluateAnswer.
  destruct (oracle log _) as [msg|reply]; [discriminate|].
  intros H. inversion H; subst e log'; clear H.
  exists reply. split; [reflexivity|]. cbn [passed]. apply geb_clamp.
Qed.

Lemma clamp_keeps_pass_or_fail_witness :
  exists e log',
    evaluateAnswer (fun _ _ => inr (reply_with_score (of_Z (-5)))) "q" "a" "c" [] []
    = (Ok e, log') /\ passed e = false.
Proof.
  eexists _, _. split; [vm_compute; reflexivity|].
  match goal with
  | |- passed ?e = _ =>
      destruct (clamp_keeps_pass_or_fail
                  (fun _ _ => inr (reply_with_score (of_Z (-5)))) "q" "a" "c" [] [] _ e
                  ltac:(vm_compute; reflexivity)) as (reply & Hreply & Hpassed)
  end.
  rewrite Hpassed. inversion Hreply. reflexivity.
Defined.

(** ** What a returned batch holds *)

Section Batch.
Variable oracle : list Prompt -> Prompt -> string + OracleReply.

Lemma evaluateLoop_entries pairs : forall evs t log evs' t' log',
  evaluateLoop oracle pairs evs t log = (Ok (evs', t'), log') ->
  exists new,
    evs' = evs ++ new /\
    t' = add_scores t new /\
    log' = log ++ List.map prompt_of pairs /\
    Forall2 entry_of pairs new.
Proof.
  induction pairs as [|[q a] rest IH]; intros evs t log evs' t' log' H.
  - cbn in H. unfold ret in H. inversion H; subst. exists [].
    rewrite !app_nil_r. repeat split. constructor.
  - cbn [evaluateLoop] in H. unfold bind at 1 in H.
    unfold evaluateAnswer in H.
    destruct (oracle log _) as [msg|rep] eqn:Ho; [discriminate|].
    apply IH in H. destruct H as (new & -> & -> & -> & Hall).
    eexists (_ :: new). rewrite <- !app_assoc. cbn [app List.map].
    split; [reflexivity|]. split; [reflexivity|]. split; [reflexivity|].
    constructor; [|exact Hall].
    unfold entry_of. cbn [question_id ie_skill ie_question user_answer evaluation
                          score passed fst snd].
    repeat split. apply clamp_shape.
Qed.

(** What [evaluateAllAnswers] returns, field by field. *)
Lemma evaluateAllAnswers_fields questions userAnswers log r log' :
  evaluateAllAnswers oracle questions userAnswers log = (Ok r, log') ->
  length questions = length userAnswers /\
  log' = log ++ prompts_of questions userAnswers /\
  Forall2 entry_of (combine questions userAnswers) (individual_evaluations r) /\
  is_verified r
  = JSNum.geb (JSNum.div_len (add_scores (of_Z 0) (individual_evaluations r))
                             (length questions)) (of_Z 70) /\
  average_score r
  = JSNum.round (JSNum.div_len (add_scores (of_Z 0) (individual_evaluations r))
                               (length questions)) /\
  passed_questions (summary r)
  = length (List.filter (fun e => passed (evaluation e)) (individual_evaluations r)) /\
  total_questions (summary r) = length (individual_evaluations r).
Proof.
  unfold evaluateAllAnswers.
  destruct (length questions =? length userAnswers)%nat eqn:Hlen;
    cbn [negb]; [|discriminate].
  unfold bind.
  destruct (evaluateLoop oracle _ _ _ log) as [[[evs t]|msg] l] eqn:Hloop;
    [|discriminate].
  intros H. unfold ret in H. inversion H; subst r log'; clear H.
  apply evaluateLoop_entries in Hloop.
  destruct Hloop as (new & -> & -> & -> & Hall).
  cbn [individual_evaluations is_verified average_score summary passed_questions
       total_questions app].
  apply Nat.eqb_eq in Hlen. repeat split; assumption.
Qed.

Lemma evaluateLoop_first_failure pairs : forall evs t log i p message,
  List.map prompt_of pairs !! i = Some p ->
  oracle (log ++ take i (List.map prompt_of pairs)) p = inl message ->
  (forall j pj, (j < i)%nat -> List.map prompt_of pairs !! j = Some pj ->
     exists rep, oracle (log ++ take j (List.map prompt_of pairs)) pj = inr rep) ->
  evaluateLoop oracle pairs evs t log
  = (Throw ("Failed to evaluate answer: " +:+ message),
     log ++ take (S i) (List.map prompt_of pairs)).
Proof.
  induction pairs as [|[q a] rest IH]; intros evs t log i p message Hi Ho Hbefore.
  - destruct i; discriminate.
  - cbn [evaluateLoop]. unfold bind at 1. unfold evaluateAnswer.
    destruct i as [|i].
    + cbn in Hi. inversion Hi; subst p. cbn in Ho. rewrite app_nil_r in Ho.
      unfold prompt_of in Ho. cbn in Ho. rewrite Ho. reflexivity.
    + destruct (Hbefore 0%nat (prompt_of (q, a))) as [rep Hrep]; [lia|reflexivity|].
      cbn in Hrep. rewrite app_nil_r in Hrep. unfold prompt_of in Hrep. cbn in Hrep.
      rewrite Hrep.
      cbn in Hi. cbn [List.map take] in Ho.
      change (prompt_of (q, a) :: take i (List.map prompt_of rest))
        with ([prompt_of (q, a)] ++ take i (List.map prompt_of rest)) in Ho.
      rewrite app_assoc in Ho.
      etransitivity.
      { apply (IH _ _ (log ++ [prompt_of (q, a)]) i p message Hi Ho).
        intros j pj Hj Hpj.
        destruct (Hbefore (S j) pj) as [rep' Hrep']; [lia|exact Hpj|].
        exists rep'. cbn [List.map take] in Hrep'.
        change (prompt_of (q, a) :: take j (List.map prompt_of rest))
          with ([prompt_of (q, a)] ++ take j (List.map prompt_of rest)) in Hrep'.
        rewrite app_assoc in Hrep'. exact Hrep'. }
      cbn [List.map take]. rewrite <- app_assoc. reflexivity.
Qed.
End Batch.

(** ** Sums of clamped scores *)

Lemma add_scores_NaN evs : add_scores NaN evs = NaN.
Proof. induction evs as [|e rest IH]; [reflexivity|]. cbn. exact IH. Qed.

Lemma add_any_NaN (t : num) : JSNum.add t NaN = NaN.
Proof. destruct t; reflexivity. Qed.

Lemma add_scores_poisoned evs : forall t,
  (exists e, In e evs /\ score (evaluation e) = NaN) -> add_scores t evs = NaN.
Proof.
  induction evs as [|e rest IH]; intros t (e0 & Hin & Hnan); [destruct Hin|].
  cbn [add_scores fold_left]. destruct Hin as [->|Hin].
  - rewrite Hnan, add_any_NaN. apply add_scores_NaN.
  - apply IH. eauto.
Qed.

Lemma inject_succ (n : nat) :
  (inject_Z (Z.of_nat (S n)) == inject_Z (Z.of_nat n) + 1)%Q.
Proof. rewrite Nat2Z.inj_succ. unfold Z.succ. rewrite inject_Z_plus. reflexivity. Qed.

Lemma inject_nat_nonneg (n : nat) : (0 <= inject_Z (Z.of_nat n))%Q.
Proof. change 0%Q with (inject_Z 0). rewrite <- Zle_Qle. lia. Qed.

(** Scores in [0,100]: the total stays between the start and the start
    plus 100 per score. *)
Lemma add_scores_within evs : forall t,
  (forall e, In e evs -> JSNum.within 0 100 (score (evaluation e))) ->
  exists t', add_scores (Fin t) evs = Fin t' /\
             (t <= t')%Q /\ (t' <= t + 100 * inject_Z (Z.of_nat (length evs)))%Q.
Proof.
  induction evs as [|e rest IH]; intros t Hall.
  - exists t. split; [reflexivity|]. cbn [length].
    change (inject_Z (Z.of_nat 0)) with 0%Q. split; lra.
  - cbn [add_scores fold_left length].
    pose proof (Hall e (or_introl eq_refl)) as He.
    destruct (score (evaluation e)) as [| | |s] eqn:Hs; try contradiction.
    cbn [JSNum.add]. destruct (IH (t + s)%Q) as (t' & Ht' & Hlo & Hhi).
    { intros e' He'. apply Hall. now right. }
    exists t'. split; [exact Ht'|]. cbn in He. destruct He as [He0 He100].
    rewrite inject_succ. split; lra.
Qed.

(** Scores of at least 70: the total gains at least 70 per score. *)
Lemma add_scores_passing evs : forall t,
  (forall e, In e evs -> exists s, score (evaluation e) = Fin s /\ (70 <= s)%Q) ->
  exists t', add_scores (Fin t) evs = Fin t' /\
             (t + 70 * inject_Z (Z.of_nat (length evs)) <= t')%Q.
Proof.
  induction evs as [|e rest IH]; intros t Hall.
  - exists t. split; [reflexivity|]. cbn [length].
    change (inject_Z (Z.of_nat 0)) with 0%Q. lra.
  - cbn [add_scores fold_left length].
    destruct (Hall e (or_introl eq_refl)) as (s & Hs & H70).
    rewrite Hs. cbn [JSNum.add]. destruct (IH (t + s)%Q) as (t' & Ht' & Hlo).
    { intros e' He'. apply Hall. now right. }
    exists t'. split; [exact Ht'|]. rewrite inject_succ. lra.
Qed.

(** Scores below 70 or missing: the total is [NaN] or gains less than 70
    per score. *)
Lemma add_scores_failing evs : forall t,
  (forall e, In e evs ->
     score (evaluation e) = NaN
     \/ exists s, score (evaluation e) = Fin s /\ (s < 70)%Q) ->
  evs <> [] ->
  add_scores (Fin t) evs = NaN
  \/ exists t', add_scores (Fin t) evs = Fin t' /\
                (t' < t + 70 * inject_Z (Z.of_nat (length evs)))%Q.
Proof.
  induction evs as [|e rest IH]; intros t Hall Hne; [congruence|].
  cbn [add_scores fold_left length].
  destruct (Hall e (or_introl eq_refl)) as [Hnan|(s & Hs & H70)].
  - left. rewrite Hnan. apply add_scores_NaN.
  - rewrite Hs. cbn [JSNum.add]. destruct rest as [|e' rest'].
    + right. exists (t + s)%Q. split; [reflexivity|]. cbn [length].
      change (inject_Z (Z.of_nat 1)) with 1%Q. lra.
    + destruct (IH (t + s)%Q) as [Hn|(t' & Ht' & Hlt)].
      { intros e0 He0. apply Hall. now right. }
      { discriminate. }
      * left. exact Hn.
      * right. exists t'. split; [exact Ht'|].
        rewrite inject_succ. lra.
Qed.

Lemma filter_length_all {A} (f : A -> bool) (l : list A) :
  length (List.filter f l) = length l -> forall x, In x l -> f x = true.
Proof.
  induction l as [|y rest IH]; intros Hlen x Hin; [destruct Hin|].
  cbn in Hlen. pose proof (filter_length_le f rest) as Hle.
  destruct (f y) eqn:Hy; cbn in Hlen; [|lia].
  destruct Hin as [->|Hin]; [exact Hy|]. apply IH; [lia|exact Hin].
Qed.

Lemma filter_length_none {A} (f : A -> bool) (l : list A) :
  length (List.filter f l) = 0%nat -> forall x, In x l -> f x = false.
Proof.
  induction l as [|y rest IH]; intros Hlen x Hin; [destruct Hin|].
  cbn in Hlen. destruct (f y) eqn:Hy; [discriminate|].
  destruct Hin as [->|Hin]; [exact Hy|]. now apply IH.
Qed.

Lemma Forall2_entry_In pairs evs e :
  Forall2 entry_of pairs evs -> In e evs -> exists pair, In pair pairs /\ entry_of pair e.
Proof.
  induction 1 as [|pair e0 pairs evs He Hall IH]; intros Hin; [destruct Hin|].
  destruct Hin as [->|Hin].
  - exists pair. split; [now left|exact He].
  - destruct (IH Hin) as (pair' & Hp & Hp'). exists pair'. split; [now right|exact Hp'].
Qed.

Lemma positive_length (n : nat) : (0 < n)%nat -> (0 < inject_Z (Z.of_nat n))%Q.
Proof. intros H. change 0%Q with (inject_Z 0). rewrite <- Zlt_Qlt. lia. Qed.

Lemma batch_size oracle questions userAnswers log r log' :
  evaluateAllAnswers oracle questions userAnswers log = (Ok r, log') ->
  length (individual_evaluations r) = length questions.
Proof.
  intros H. apply evaluateAllAnswers_fields in H.
  destruct H as (Hlen & _ & Hall & _).
  apply Forall2_length in Hall. rewrite <- Hall, length_combine. lia.
Qed.

Lemma entries_in_order pairs evs :
  Forall2 entry_of pairs evs ->
  List.map (fun e => (question_id e, ie_skill e, ie_question e, user_answer e)) evs
  = List.map (fun pair => (id (fst pair), skill (fst pair), question (fst pair), snd pair))
             pairs.
Proof.
  induction 1 as [|pair e pairs evs (H1 & H2 & H3 & H4 & _) Hall IH]; [reflexivity|].
  cbn [List.map]. now rewrite IH, H1, H2, H3, H4.
Qed.

Lemma round_within (x : num) :
  JSNum.within 0 100 x -> JSNum.within 0 100 (JSNum.round x).
Proof.
  destruct x as [| | |a]; cbn [JSNum.within JSNum.round]; try tauto.
  intros [H0 H100]. split.
  - change 0%Q with (inject_Z 0). rewrite <- Zle_Qle.
    rewrite <- (Qfloor_Z 0). apply Qfloor_resp_le.
    change (inject_Z 0) with 0%Q. lra.
  - change 100%Q with (inject_Z 100). rewrite <- Zle_Qle.
    change 100 with (Qfloor (100 + (1 # 2))). apply Qfloor_resp_le. lra.
Qed.

(** X2: a returned batch holds one entry per question, in the order of
    the questions, each with its question's id, skill and text and with
    the answer at the same position; and the prompts were sent in that
    order, one per question. *)
Theorem evaluateAllAnswers_keeps_question_order
    (oracle : list Prompt -> Prompt -> string + OracleReply)
    (questions : list Question) (userAnswers : list string)
    (log log' : list Prompt) (r : EvaluationResult) :
  evaluateAllAnswers oracle questions userAnswers log = (Ok r, log') ->
  List.map (fun e => (question_id e, ie_skill e, ie_question e, user_answer e))
           (individual_evaluations r)
  = List.map (fun pair => (id (fst pair), skill (fst pair), question (fst pair), snd pair))
             (combine questions userAnswers) /\
  total_questions (summary r) = length questions /\
  log' = log ++ prompts_of questions userAnswers.
Proof.
  intros H. pose proof (batch_size _ _ _ _ _ _ H) as Hsize.
  apply evaluateAllAnswers_fields in H.
  destruct H as (_ & Hlog & Hall & _ & _ & _ & Htotal).
  split; [now apply entries_in_order|]. split; [congruence|exact Hlog].
Qed.

Lemma evaluateAllAnswers_keeps_question_order_witness :
  exists r log',
    evaluateAllAnswers (scripted (scores [80; 20])) [ask 7; ask 3] ["x"; "y"] []
    = (Ok r, log') /\
    List.map (fun e => (question_id e, user_answer e)) (individual_evaluations r)
    = [(7, "x"%string); (3, "y"%string)] /\
    List.map prompt_user_answer log' = ["x"; "y"]%string.
Proof.
  eexists _, _. split; [vm_compute; reflexivity|].
  match goal with
  | |- context [individual_evaluations ?r] =>
      destruct (evaluateAllAnswers_keeps_question_order
                  (scripted (scores [80; 20])) [ask 7; ask 3] ["x"; "y"] [] _ r
                  ltac:(vm_compute; reflexivity)) as (Horder & _ & Hlog)
  end.
  split; [|reflexivity].
  apply (f_equal (List.map (fun t => (fst (fst (fst t)), snd t)))) in Horder.
  rewrite !map_map in Horder. exact Horder.
Defined.

(** X3: when the batch is not empty and every question passed, the
    candidate is verified. *)
Theorem all_questions_passed_is_verified
    (oracle : list Prompt -> Prompt -> string + OracleReply)
    (questions : list Question) (userAnswers : list string)
    (log log' : list Prompt) (r : EvaluationResult) :
  evaluateAllAnswers oracle questions userAnswers log = (Ok r, log') ->
  questions <> [] ->
  passed_questions (summary r) = total_questions (summary r) ->
  is_verified r = true.
Proof.
  intros H Hne Hall. pose proof (batch_size _ _ _ _ _ _ H) as Hsize.
  apply evaluateAllAnswers_fields in H.
  destruct H as (_ & _ & Hentries & -> & _ & Hpassed & Htotal).
  rewrite Hpassed, Htotal in Hall.
  destruct (add_scores_passing (individual_evaluations r) 0) as (t' & Ht' & Hge).
  { intros e He. pose proof (filter_length_all _ _ Hall e He) as Hp.
    destruct (Forall2_entry_In _ _ _ Hentries He) as (pair & _ & Hentry).
    destruct Hentry as (_ & _ & _ & _ & Hshape & Hgeb).
    cbn beta in Hp. rewrite Hgeb in Hp.
    destruct (score (evaluation e)) as [| | |s]; try discriminate.
    - destruct Hshape as [?|[]]; discriminate.
    - exists s. split; [reflexivity|]. now apply Qle_bool_iff in Hp. }
  change (of_Z 0) with (Fin 0) at 1. rewrite Ht'.
  destruct (length questions) as [|k] eqn:Hk.
  { destruct questions; [congruence|discriminate]. }
  cbn [JSNum.div_len of_Z JSNum.geb]. apply Qle_bool_iff.
  apply Qle_shift_div_l; [apply positive_length; lia|].
  rewrite Hsize in Hge. change (inject_Z 70) with 70%Q. lra.
Qed.

Lemma all_questions_passed_is_verified_witness :
  exists r log',
    evaluateAllAnswers (scripted (scores [70; 71; 100])) [ask 1; ask 2; ask 3]
      ["a"; "b"; "c"] []
    = (Ok r, log') /\ is_verified r = true.
Proof.
  eexists _, _. split; [vm_compute; reflexivity|].
  eapply (all_questions_passed_is_verified (scripted (scores [70; 71; 100]))
            [ask 1; ask 2; ask 3] ["a"; "b"; "c"] []).
  - vm_compute. reflexivity.
  - discriminate.
  - reflexivity.
Defined.

(** X4: when no question passed, the candidate is not verified, whatever
    the scores (too low, or not numbers). *)
Theorem no_question_passed_not_verified
    (oracle : list Prompt -> Prompt -> string + OracleReply)
    (questions : list Question) (userAnswers : list string)
    (log log' : list Prompt) (r : EvaluationResult) :
  evaluateAllAnswers oracle questions userAnswers log = (Ok r, log') ->
  passed_questions (summary r) = 0%nat ->
  is_verified r = false.
Proof.
  intros H Hnone. pose proof (batch_size _ _ _ _ _ _ H) as Hsize.
  apply evaluateAllAnswers_fields in H.
  destruct H as (_ & _ & Hentries & -> & _ & Hpassed & _).
  rewrite Hpassed in Hnone.
  destruct (individual_evaluations r) as [|e0 evs0] eqn:Hevs.
  { cbn in Hsize. rewrite <- Hsize. reflexivity. }
  rewrite <- Hevs in *.
  destruct (add_scores_failing (individual_evaluations r) 0) as [Hn|(t' & Ht' & Hlt)].
  { intros e He. pose proof (filter_length_none _ _ Hnone e He) as Hp.
    destruct (Forall2_entry_In _ _ _ Hentries He) as (pair & _ & Hentry).
    destruct Hentry as (_ & _ & _ & _ & Hshape & Hgeb).
    cbn beta in Hp. rewrite Hgeb in Hp.
    destruct (score (evaluation e)) as [| | |s]; [now left| | |].
    - destruct Hshape as [?|[]]; discriminate.
    - destruct Hshape as [?|[]]; discriminate.
    - right. exists s. split; [reflexivity|].
      cbn [JSNum.geb of_Z] in Hp. apply Qnot_le_lt. intros Hle.
      apply Qle_bool_iff in Hle. change (inject_Z 70) with 70%Q in Hp. congruence. }
  { rewrite Hevs. discriminate. }
  - change (of_Z 0) with (Fin 0) at 1. rewrite Hn. reflexivity.
  - change (of_Z 0) with (Fin 0) at 1. rewrite Ht'.
    destruct (length questions) as [|k] eqn:Hk.
    { rewrite Hevs in Hsize. discriminate. }
    cbn [JSNum.div_len of_Z JSNum.geb].
    destruct (Qle_bool (inject_Z 70) _) eqn:Hb; [|reflexivity].
    apply Qle_bool_iff in Hb. exfalso.
    assert (Hpos : (0 < inject_Z (Z.of_nat (S k)))%Q) by (apply positive_length; lia).
    assert (Hdiv : (t' / inject_Z (Z.of_nat (S k)) < 70)%Q).
    { apply Qlt_shift_div_r; [exact Hpos|]. rewrite Hsize in Hlt. lra. }
    change (inject_Z 70) with 70%Q in Hb. lra.
Qed.

Lemma no_question_passed_not_verified_witness :
  exists r log',
    evaluateAllAnswers (scripted [inr (reply_with_score (of_Z 69)); inr (reply_with_score NaN)])
      [ask 1; ask 2] ["a"; "b"] []
    = (Ok r, log') /\ is_verified r = false.
Proof.
  eexists _, _. split; [vm_compute; reflexivity|].
  eapply (no_question_passed_not_verified
            (scripted [inr (reply_with_score (of_Z 69)); inr (reply_with_score NaN)])
            [ask 1; ask 2] ["a"; "b"] []).
  - vm_compute. reflexivity.
  - reflexivity.
Defined.

(** X5: one score that is not a number (the oracle's reply has no numeric
    [score]) makes the whole batch unverified and its reported average
    [NaN], whatever the other scores are. *)
Theorem one_missing_score_voids_the_batch
    (oracle : list Prompt -> Prompt -> string + OracleReply)
    (questions : list Question) (userAnswers : list string)
    (log log' : list Prompt) (r : EvaluationResult) :
  evaluateAllAnswers oracle questions userAnswers log = (Ok r, log') ->
  (exists e, In e (individual_evaluations r) /\ score (evaluation e) = NaN) ->
  is_verified r = false /\ average_score r = NaN.
Proof.
  intros H Hnan. apply evaluateAllAnswers_fields in H.
  destruct H as (_ & _ & _ & -> & -> & _).
  rewrite (add_scores_poisoned _ _ Hnan). split; reflexivity.
Qed.

Lemma one_missing_score_voids_the_batch_witness :
  exists r log',
    evaluateAllAnswers
      (scripted [inr (reply_with_score (of_Z 100)); inr (reply_with_score NaN);
                 inr (reply_with_score (of_Z 100))])
      [ask 1; ask 2; ask 3] ["a"; "b"; "c"] []
    = (Ok r, log') /\ is_verified r = false /\ average_score r = NaN.
Proof.
  eexists _, _. split; [vm_compute; reflexivity|].
  eapply (one_missing_score_voids_the_batch
            (scripted [inr (reply_with_score (of_Z 100)); inr (reply_with_score NaN);
                       inr (reply_with_score (of_Z 100))])
            [ask 1; ask 2; ask 3] ["a"; "b"; "c"] []).
  - vm_compute. reflexivity.
  - eexists. split; [right; left; reflexivity|reflexivity].
Defined.

(** X6: when the batch is not empty and every score is a number, the
    reported average is an integer value between 0 and 100, however far
    out of range the oracle's scores were. *)
Theorem average_score_between_0_and_100
    (oracle : list Prompt -> Prompt -> string + OracleReply)
    (questions : list Question) (userAnswers : list string)
    (log log' : list Prompt) (r : EvaluationResult) :
  evaluateAllAnswers oracle questions userAnswers log = (Ok r, log') ->
  questions <> [] ->
  (forall e, In e (individual_evaluations r) -> score (evaluation e) <> NaN) ->
  JSNum.within 0 100 (average_score r).
Proof.
  intros H Hne Hnum. pose proof (batch_size _ _ _ _ _ _ H) as Hsize.
  apply evaluateAllAnswers_fields in H.
  destruct H as (_ & _ & Hentries & _ & -> & _).
  destruct (add_scores_within (individual_evaluations r) 0) as (t' & Ht' & Hlo & Hhi).
  { intros e He.
    destruct (Forall2_entry_In _ _ _ Hentries He) as (pair & _ & Hentry).
    destruct Hentry as (_ & _ & _ & _ & [Hn|Hw] & _); [|exact Hw].
    now apply Hnum in He. }
  change (of_Z 0) with (Fin 0) at 1. rewrite Ht'.
  destruct (length questions) as [|k] eqn:Hk.
  { destruct questions; [congruence|discriminate]. }
  cbn [JSNum.div_len]. apply round_within. cbn [JSNum.within].
  assert (Hpos : (0 < inject_Z (Z.of_nat (S k)))%Q) by (apply positive_length; lia).
  rewrite Hsize in Hhi. split.
  - apply Qle_shift_div_l; [exact Hpos|]. lra.
  - apply Qle_shift_div_r; [exact Hpos|]. lra.
Qed.

Lemma average_score_between_0_and_100_witness :
  exists r log',
    evaluateAllAnswers (scripted (scores [5000; -7])) [ask 1; ask 2] ["a"; "b"] []
    = (Ok r, log') /\ JSNum.within 0 100 (average_score r).
Proof.
  eexists _, _. split; [vm_compute; reflexivity|].
  eapply (average_score_between_0_and_100 (scripted (scores [5000; -7]))
            [ask 1; ask 2] ["a"; "b"] []).
  - vm_compute. reflexivity.
  - discriminate.
  - intros e [<-|[<-|[]]]; vm_compute; discriminate.
Defined.

(** X7: the batch stops at the first failing call: when the calls before
    position [i] succeed and the one at [i] fails with [message], exactly
    the first [i + 1] prompts have been sent and the error carries that
    message. *)
Theorem evaluateAllAnswers_stops_at_first_failure
    (oracle : list Prompt -> Prompt -> string + OracleReply)
    (questions : list Question) (userAnswers : list string) (log : list Prompt)
    (i : nat) (p : Prompt) (message : string) :
  length questions = length userAnswers ->
  prompts_of questions userAnswers !! i = Some p ->
  oracle (log ++ take i (prompts_of questions userAnswers)) p = inl message ->
  (forall j pj, (j < i)%nat -> prompts_of questions userAnswers !! j = Some pj ->
     exists rep, oracle (log ++ take j (prompts_of questions userAnswers)) pj = inr rep) ->
  evaluateAllAnswers oracle questions userAnswers log
  = (Throw ("Failed to evaluate answer: " +:+ message),
     log ++ take (S i) (prompts_of questions userAnswers)).
Proof.
  intros Hlen Hi Ho Hbefore. unfold evaluateAllAnswers.
  apply Nat.eqb_eq in Hlen. rewrite Hlen. cbn [negb]. unfold bind.
  unfold prompts_of in *.
  rewrite (evaluateLoop_first_failure oracle _ [] (of_Z 0) log i p message Hi Ho Hbefore).
  reflexivity.
Qed.

Lemma evaluateAllAnswers_stops_at_first_failure_witness :
  exists log',
    evaluateAllAnswers (scripted [inr (reply_with_score (of_Z 90)); inl "quota"%string])
      [ask 1; ask 2; ask 3] ["a"; "b"; "c"] []
    = (Throw "Failed to evaluate answer: quota", log') /\
    List.map prompt_user_answer log' = ["a"; "b"]%string.
Proof.
  eexists. split.
  - apply (evaluateAllAnswers_stops_at_first_failure
             (scripted [inr (reply_with_score (of_Z 90)); inl "quota"%string])
             [ask 1; ask 2; ask 3] ["a"; "b"; "c"] [] 1 (prompt_of (ask 2, "b"%string))).
    + reflexivity.
    + reflexivity.
    + reflexivity.
    + intros j pj Hj Hpj. assert (j = 0)%nat as -> by lia.
      eexists. reflexivity.
  - reflexivity.
Defined.

(** X8: a successful [POST /evaluate] with a non-empty session id stores
    the result under that id, where [GET /evaluation/:sessionId] finds it,
    and leaves every other session as it was; without a session id the
    cache does not change. *)
Theorem post_evaluate_caches_under_session_id
    (oracle : list Prompt -> Prompt -> string + OracleReply)
    (geminiApiKey : option string) (questions : list Question)
    (userAnswers : list string) (session : option string)
    (st : AnswerRoutes.Store) (r : EvaluationResult) (log' : list Prompt) :
  AnswerRoutes.truthy geminiApiKey = true ->
  evaluateAllAnswers oracle questions userAnswers (AnswerRoutes.prompts st) = (Ok r, log') ->
  let st' := snd (AnswerRoutes.post_evaluate oracle geminiApiKey
                    {| AnswerRoutes.questions := questions;
                       AnswerRoutes.answers := userAnswers;
                       AnswerRoutes.sessionId := session |} st) in
  (forall sid, session = Some sid -> sid <> ""%string ->
     AnswerRoutes.get_evaluation sid st' = AnswerRoutes.Get200 r /\
     forall other, other <> sid ->
       AnswerRoutes.get_evaluation other st' = AnswerRoutes.get_evaluation other st) /\
  (AnswerRoutes.truthy session = false ->
   forall sid, AnswerRoutes.get_evaluation sid st' = AnswerRoutes.get_evaluation sid st).
Proof.
  intros Hkey Hrun. pose proof (evaluateAllAnswers_fields _ _ _ _ _ _ Hrun) as (Hlen & _).
  unfold AnswerRoutes.post_evaluate.
  cbn [AnswerRoutes.questions AnswerRoutes.answers AnswerRoutes.sessionId].
  apply Nat.eqb_eq in Hlen. rewrite Hlen, Hkey. cbn [negb]. rewrite Hrun.
  cbn [snd]. split.
  - intros sid -> Hsid. destruct sid as [|c rest]; [congruence|].
    unfold AnswerRoutes.get_evaluation. cbn [AnswerRoutes.evaluationCache].
    split; [now rewrite lookup_insert_eq|].
    intros other Hother. now rewrite lookup_insert_ne.
  - intros Hnone sid. destruct session as [[|c rest]|]; try discriminate; reflexivity.
Qed.

Lemma post_evaluate_caches_under_session_id_witness :
  exists r,
    AnswerRoutes.get_evaluation "s1"
      (snd (AnswerRoutes.post_evaluate (scripted (scores [80])) (Some "key"%string)
              {| AnswerRoutes.questions := [ask 1]; AnswerRoutes.answers := ["a"%string];
                 AnswerRoutes.sessionId := Some "s1"%string |}
              {| AnswerRoutes.evaluationCache := ∅; AnswerRoutes.prompts := [] |}))
    = AnswerRoutes.Get200 r /\ is_verified r = true.
Proof.
  eexists. split.
  - eapply (post_evaluate_caches_under_session_id (scripted (scores [80]))
              (Some "key"%string) [ask 1] ["a"%string] (Some "s1"%string)
              {| AnswerRoutes.evaluationCache := ∅; AnswerRoutes.prompts := [] |}).
    + reflexivity.
    + vm_compute. reflexivity.
    + reflexivity.
    + discriminate.
  - reflexivity.
Defined.

End AnswerEvaluationMore.

(** * Further properties of the job catalog *)
Module CatalogMore.
Import JSString JSArray JSArraySpec JSArrayFacts RAGService MatcherSpec RAGFacts CatalogSpec.

(** ** Splitting and trimming *)

Lemma split_not_nil (sep : ascii) (s : string) : split sep s <> [].
Proof.
  destruct s as [|c rest]; cbn; [discriminate|].
  destruct (Ascii.eqb c sep); [discriminate|].
  destruct (split sep rest); discriminate.
Qed.

Lemma split_no_sep (sep : ascii) (s : string) :
  forall piece, In piece (split sep s) -> occurs sep piece = false.
Proof.
  induction s as [|c rest IH]; intros piece Hin; cbn in Hin.
  - destruct Hin as [<-|[]]. reflexivity.
  - destruct (Ascii.eqb c sep) eqn:Hc.
    + destruct Hin as [<-|Hin]; [reflexivity|now apply IH].
    + destruct (split sep rest) as [|p ps] eqn:Hs.
      * exfalso. now apply (split_not_nil sep rest).
      * destruct Hin as [<-|Hin].
        -- cbn. rewrite Hc. apply IH. now left.
        -- apply IH. now right.
Qed.

Lemma occurs_trimStart (c : ascii) (s : string) :
  occurs c s = false -> occurs c (trimStart s) = false.
Proof.
  induction s as [|c' rest IH]; cbn; [reflexivity|].
  intros H. apply orb_false_iff in H as [H1 H2].
  destruct (is_space c'); [now apply IH|]. cbn. now rewrite H1, H2.
Qed.

Lemma occurs_trimEnd (c : ascii) (s : string) :
  occurs c s = false -> occurs c (trimEnd s) = false.
Proof.
  induction s as [|c' rest IH]; cbn; [reflexivity|].
  intros H. apply orb_false_iff in H as [H1 H2].
  destruct (is_space c' && is_empty (trimEnd rest)); [reflexivity|].
  cbn. rewrite H1. now apply IH.
Qed.

Lemma trimStart_no_leading_space (s : string) : starts_with_space (trimStart s) = false.
Proof.
  induction s as [|c rest IH]; cbn; [reflexivity|].
  destruct (is_space c) eqn:Hc; [exact IH|]. cbn. exact Hc.
Qed.

Lemma trimEnd_keeps_start (s : string) :
  starts_with_space s = false -> starts_with_space (trimEnd s) = false.
Proof.
  destruct s as [|c rest]; cbn; [reflexivity|].
  intros Hc. rewrite Hc. cbn. exact Hc.
Qed.

Lemma trimEnd_no_trailing_space (s : string) : ends_with_space (trimEnd s) = false.
Proof.
  induction s as [|c rest IH]; cbn; [reflexivity|].
  destruct (is_space c) eqn:Hc; cbn [andb].
  - destruct (trimEnd rest) as [|c' rest'] eqn:Hr; cbn; [reflexivity|exact IH].
  - destruct (trimEnd rest) as [|c' rest'] eqn:Hr; cbn; [exact Hc|exact IH].
Qed.

(** X9: every skill [_parseSkills] returns is a clean token: not empty,
    free of commas, with no white space at its start or end. *)
Theorem parseSkills_returns_clean_tokens (skillsString : option string) (skill : string) :
  In skill (_parseSkills skillsString) -> clean_skill skill = true.
Proof.
  unfold _parseSkills. destruct skillsString as [[|c rest]|]; try (intros []).
  intros Hin. apply filter_In in Hin. destruct Hin as [Hin Hlen].
  apply in_map_iff in Hin. destruct Hin as (piece & <- & Hpiece).
  apply split_no_sep in Hpiece. unfold clean_skill, trim.
  rewrite (occurs_trimEnd _ _ (occurs_trimStart _ _ Hpiece)).
  rewrite (trimEnd_keeps_start _ (trimStart_no_leading_space piece)).
  rewrite trimEnd_no_trailing_space.
  unfold trim in Hlen. destruct (trimEnd (trimStart piece)); [discriminate|reflexivity].
Qed.

Lemma parseSkills_returns_clean_tokens_witness :
  clean_skill "Node.js" = true.
Proof.
  apply (parseSkills_returns_clean_tokens (Some "JavaScript,  Node.js ,,SQL"%string)).
  vm_compute. auto.
Defined.

Lemma append_assoc (a b c : string) : (a +:+ b) +:+ c = a +:+ (b +:+ c).
Proof.
  induction a as [|x a IH]; [reflexivity|].
  change (String x ((a +:+ b) +:+ c) = String x (a +:+ (b +:+ c))). now f_equal.
Qed.

Lemma occurs_append (c : ascii) (a b : string) :
  occurs c (a +:+ b) = occurs c a || occurs c b.
Proof.
  induction a as [|x a IH]; [reflexivity|].
  change (Ascii.eqb x c || occurs c (a +:+ b)
          = (Ascii.eqb x c || occurs c a) || occurs c b).
  now rewrite IH, orb_assoc.
Qed.

Lemma split_at_sep (sep : ascii) (a b : string) :
  occurs sep a = false -> split sep (a +:+ String sep b) = a :: split sep b.
Proof.
  induction a as [|x a IH]; intros H.
  - change (split sep (String sep b) = "" :: split sep b)%string.
    cbn [split]. now rewrite Ascii.eqb_refl.
  - cbn in H. apply orb_false_iff in H as [Hx Ha].
    change (split sep (String x (a +:+ String sep b)) = String x a :: split sep b).
    cbn [split]. rewrite Hx, (IH Ha). reflexivity.
Qed.

Lemma split_without_sep (sep : ascii) (a : string) :
  occurs sep a = false -> split sep a = [a].
Proof.
  induction a as [|x a IH]; cbn; intros H; [reflexivity|].
  apply orb_false_iff in H as [Hx Ha]. rewrite Hx, (IH Ha). reflexivity.
Qed.

Lemma split_joined (tokens : list string) : forall (t pre : string),
  occurs ","%char pre = false ->
  occurs ","%char t = false ->
  List.Forall (fun s => occurs ","%char s = false) tokens ->
  split ","%char (pre +:+ AnswerEvaluationService.join ", " (t :: tokens))
  = (pre +:+ t) :: List.map (String " "%char) tokens.
Proof.
  induction tokens as [|t2 rest IH]; intros t pre Hpre Ht Hall.
  - cbn [AnswerEvaluationService.join List.map].
    apply split_without_sep. rewrite occurs_append, Hpre, Ht. reflexivity.
  - inversion Hall as [|? ? Ht2 Hrest]; subst.
    change (AnswerEvaluationService.join ", " (t :: t2 :: rest))
      with (t +:+ String ","%char (" " +:+ AnswerEvaluationService.join ", " (t2 :: rest))).
    rewrite <- append_assoc, split_at_sep
      by (rewrite occurs_append, Hpre, Ht; reflexivity).
    rewrite (IH t2 " "%string eq_refl Ht2 Hrest). reflexivity.
Qed.

Lemma trimStart_clean (s : string) : starts_with_space s = false -> trimStart s = s.
Proof. destruct s as [|c rest]; cbn; [reflexivity|]. now intros ->. Qed.

Lemma trimEnd_clean (s : string) : ends_with_space s = false -> trimEnd s = s.
Proof.
  induction s as [|c rest IH]; [reflexivity|].
  cbn [ends_with_space trimEnd]. destruct rest as [|c' rest'].
  - intros ->. reflexivity.
  - intros H. rewrite (IH H). cbn [is_empty]. now rewrite andb_false_r.
Qed.

Lemma clean_skill_parts (s : string) :
  clean_skill s = true ->
  is_empty s = false /\ occurs ","%char s = false /\
  starts_with_space s = false /\ ends_with_space s = false.
Proof.
  unfold clean_skill. rewrite !andb_true_iff, !negb_true_iff. tauto.
Qed.

Lemma trim_clean (s : string) : clean_skill s = true -> trim s = s.
Proof.
  intros H. apply clean_skill_parts in H as (_ & _ & Hs & He).
  unfold trim. now rewrite (trimStart_clean _ Hs), (trimEnd_clean _ He).
Qed.

Lemma trim_after_space (s : string) :
  clean_skill s = true -> trim (String " "%char s) = s.
Proof. intros H. unfold trim. cbn. now apply trim_clean. Qed.

Lemma keep_clean (tokens : list string) :
  List.Forall (fun s => clean_skill s = true) tokens ->
  List.filter (fun s => (0 <? String.length s)%nat) tokens = tokens.
Proof.
  induction 1 as [|t rest Ht Hall IH]; [reflexivity|].
  cbn [List.filter]. apply clean_skill_parts in Ht as (Hne & _).
  destruct t as [|c t']; [discriminate|].
  replace (0 <? String.length (String c t'))%nat with true by reflexivity.
  now rewrite IH.
Qed.

(** X10: a CSV cell written as clean skill names joined by a comma and a
    space is read back by [_parseSkills] as exactly those names, in
    order. *)
Theorem parseSkills_reads_back_joined_skills (tokens : list string) :
  List.Forall (fun s => clean_skill s = true) tokens ->
  _parseSkills (Some (AnswerEvaluationService.join ", " tokens)) = tokens.
Proof.
  intros Hall. destruct tokens as [|t rest]; [reflexivity|].
  inversion Hall as [|? ? Ht Hrest]; subst.
  pose proof (clean_skill_parts _ Ht) as (Hne & Hcomma & _).
  assert (Hnocomma : List.Forall (fun s => occurs ","%char s = false) rest).
  { eapply List.Forall_impl; [|exact Hrest]. intros s Hs.
    now apply clean_skill_parts in Hs. }
  assert (Hsplit : split ","%char (AnswerEvaluationService.join ", " (t :: rest))
                   = t :: List.map (String " "%char) rest)
    by exact (split_joined rest t ""%string eq_refl Hcomma Hnocomma).
  unfold _parseSkills.
  destruct (AnswerEvaluationService.join ", " (t :: rest)) as [|c s] eqn:Hj.
  { destruct t; [discriminate|]. destruct rest; discriminate. }
  rewrite Hsplit. cbn [List.map]. rewrite (trim_clean _ Ht), map_map.
  assert (Hmap : List.map (fun x => trim (String " "%char x)) rest = rest).
  { clear -Hrest. induction Hrest as [|x l Hx Hl IH]; [reflexivity|].
    cbn [List.map]. now rewrite IH, trim_after_space. }
  rewrite Hmap. apply (keep_clean (t :: rest)). exact Hall.
Qed.

Lemma parseSkills_reads_back_joined_skills_witness :
  _parseSkills (Some "C++, Node.js, Data Science"%string) = ["C++"; "Node.js"; "Data Science"].
Proof.
  apply (parseSkills_reads_back_joined_skills ["C++"; "Node.js"; "Data Science"]).
  repeat constructor.
Defined.

(** ** Loading *)

Lemma on_data_appends (this : Catalog) (row : Row) :
  jobs (on_data this row) = jobs this ++ [job_of_row (length (jobs this) + 1) row].
Proof. reflexivity. Qed.

Lemma fold_on_data_jobs rows : forall this,
  jobs (fold_left on_data rows this)
  = jobs this ++ jobs_of_rows (S (length (jobs this))) rows.
Proof.
  induction rows as [|row rest IH]; intros this; cbn [fold_left jobs_of_rows].
  - now rewrite app_nil_r.
  - rewrite IH, on_data_appends, length_app, <- app_assoc. cbn [length app].
    replace (length (jobs this) + 1)%nat with (S (length (jobs this))) by lia.
    reflexivity.
Qed.

Lemma jobs_of_rows_length first rows : length (jobs_of_rows first rows) = length rows.
Proof.
  revert first. induction rows as [|row rest IH]; intros first; cbn; [reflexivity|].
  now rewrite IH.
Qed.

Lemma jobs_of_rows_ids first rows :
  List.map id (jobs_of_rows first rows) = seq first (length rows).
Proof.
  revert first. induction rows as [|row rest IH]; intros first; cbn; [reflexivity|].
  now rewrite IH.
Qed.

Lemma jobs_of_rows_skills first rows :
  List.map required_skills (jobs_of_rows first rows)
  = List.map (fun row => _parseSkills (row_required_skills row)) rows.
Proof.
  revert first. induction rows as [|row rest IH]; intros first; cbn; [reflexivity|].
  now rewrite IH.
Qed.

Lemma empty_index_agrees : index_agrees {| jobs := []; jobIndex := ∅ |}.
Proof. intros [|k]; cbn; [apply lookup_empty|]. rewrite lookup_empty. reflexivity. Qed.

Lemma on_data_index_agrees (this : Catalog) (row : Row) :
  index_agrees this -> index_agrees (on_data this row).
Proof.
  intros Hagree n. unfold on_data. cbn [jobIndex jobs id].
  replace (length (jobs this) + 1)%nat with (S (length (jobs this))) by lia.
  destruct n as [|k].
  - rewrite lookup_insert_ne by lia. apply (Hagree 0%nat).
  - destruct (decide (k = length (jobs this))) as [->|Hne].
    + rewrite lookup_insert_eq.
      rewrite lookup_app_r by lia. now rewrite Nat.sub_diag.
    + rewrite lookup_insert_ne by lia. rewrite (Hagree (S k)).
      destruct (decide (k < length (jobs this))%nat) as [Hlt|Hge].
      * now rewrite lookup_app_l.
      * rewrite lookup_ge_None_2 by lia.
        symmetry. apply lookup_ge_None_2. rewrite length_app. cbn. lia.
Qed.

Lemma fold_on_data_index_agrees rows : forall this,
  index_agrees this -> index_agrees (fold_left on_data rows this).
Proof.
  induction rows as [|row rest IH]; intros this H; cbn [fold_left]; [exact H|].
  apply IH, on_data_index_agrees, H.
Qed.

Lemma jobs_of_rows_lookup rows : forall first k j,
  jobs_of_rows first rows !! k = Some j -> id j = (first + k)%nat.
Proof.
  induction rows as [|row rest IH]; intros first k j H; [destruct k; discriminate|].
  destruct k as [|k]; cbn in H.
  - inversion H; subst. cbn. lia.
  - apply IH in H. lia.
Qed.

(** X11: when the file is read to its end, [loadJobsData] returns the
    new catalog, which holds one job per row in file order, numbered 1, 2,
    3, ... and carrying the skills parsed from its row; what the catalog
    held before plays no part. *)
Theorem loadJobsData_loads_one_job_per_row
    (fs : FileSystem) (csvPath : string) (rows : list Row) (this : Catalog) :
  fs csvPath = Some (StreamEnd rows) ->
  exists this',
    loadJobsData fs csvPath this = (Ok (getAllJobs this'), this') /\
    getAllJobs this' = jobs_of_rows 1 rows /\
    length (getAllJobs this') = length rows /\
    List.map id (getAllJobs this') = seq 1 (length rows) /\
    List.map required_skills (getAllJobs this')
    = List.map (fun row => _parseSkills (row_required_skills row)) rows.
Proof.
  intros Hfs. unfold loadJobsData. rewrite Hfs. eexists. split; [reflexivity|].
  unfold getAllJobs. rewrite fold_on_data_jobs. cbn [jobs app length].
  split; [reflexivity|].
  split; [apply jobs_of_rows_length|].
  split; [apply jobs_of_rows_ids|apply jobs_of_rows_skills].
Qed.

Lemma loadJobsData_loads_one_job_per_row_witness :
  exists this',
    loadJobsData disk "ties.csv" loaded = (Ok (getAllJobs this'), this') /\
    List.map id (getAllJobs this') = [1; 2; 3; 4]%nat.
Proof.
  destruct (loadJobsData_loads_one_job_per_row disk "ties.csv"
              [plain_row "Hooli" "Python,Go"; plain_row "Umbrella" "Python";
               plain_row "Stark" "Python,Rust"; plain_row "Wayne" "Java,Go,Rust"]
              loaded eq_refl) as (this' & Hrun & _ & _ & Hids & _).
  exists this'. split; [exact Hrun|exact Hids].
Defined.

(** X12: after a load that reached the end of the file, [getJobById]
    finds under [n] the [n]-th job of [getAllJobs] (counting from 1), whose
    id is [n]; it finds nothing under 0 or beyond the last job. *)
Theorem getJobById_finds_nth_loaded_job
    (fs : FileSystem) (csvPath : string) (rows : list Row) (this : Catalog) (n : nat) :
  fs csvPath = Some (StreamEnd rows) ->
  let this' := snd (loadJobsData fs csvPath this) in
  getJobById this' n
  = match n with
    | O => None
    | S k => getAllJobs this' !! k
    end /\
  (forall j, getJobById this' n = Some j -> id j = n) /\
  ((length rows < n)%nat -> getJobById this' n = None).
Proof.
  intros Hfs. unfold loadJobsData. rewrite Hfs. cbn [snd].
  pose proof (fold_on_data_index_agrees rows _ empty_index_agrees n) as Hagree.
  unfold getJobById, getAllJobs. rewrite Hagree.
  split; [reflexivity|]. rewrite fold_on_data_jobs. cbn [jobs app length]. split.
  - intros j Hj. destruct n as [|k]; [discriminate|].
    apply jobs_of_rows_lookup in Hj. lia.
  - intros Hn. destruct n as [|k]; [reflexivity|].
    apply lookup_ge_None_2. rewrite jobs_of_rows_length. lia.
Qed.

Lemma getJobById_finds_nth_loaded_job_witness :
  getJobById (snd (loadJobsData disk "ties.csv" loaded)) 3
  = getAllJobs (snd (loadJobsData disk "ties.csv" loaded)) !! 2%nat.
Proof.
  apply (getJobById_finds_nth_loaded_job disk "ties.csv"
           [plain_row "Hooli" "Python,Go"; plain_row "Umbrella" "Python";
            plain_row "Stark" "Python,Rust"; plain_row "Wayne" "Java,Go,Rust"]
           loaded 3 eq_refl).
Defined.

End CatalogMore.

(** * Further properties of the matcher *)
Module MatcherMore.
Import JSString JSArray JSArraySpec JSArrayFacts RAGService MatcherSpec RAGFacts CatalogSpec
       CatalogMore.

(** ** The score of one job *)

Lemma filter_length_mono {A} (f g : A -> bool) (l : list A) :
  (forall x, f x = true -> g x = true) ->
  (length (List.filter f l) <= length (List.filter g l))%nat.
Proof.
  intros Hfg. induction l as [|x rest IH]; cbn; [lia|].
  destruct (f x) eqn:Hf.
  - rewrite (Hfg x Hf). cbn. lia.
  - destruct (g x); cbn; lia.
Qed.

Lemma filter_sublist_mono {A} (f g : A -> bool) (l : list A) :
  (forall x, f x = true -> g x = true) ->
  List.filter f l `sublist_of` List.filter g l.
Proof.
  intros Hfg. induction l as [|x rest IH]; cbn; [constructor|].
  destruct (f x) eqn:Hf.
  - rewrite (Hfg x Hf). now constructor.
  - destruct (g x); [now constructor|exact IH].
Qed.

Lemma required_count_positive (r : string) (rest : list string) :
  (0 < inject_Z (Z.of_nat (length (r :: rest))))%Q.
Proof. change 0%Q with (inject_Z 0). rewrite <- Zlt_Qlt. cbn [length]. lia. Qed.

(** X14: the score of a job is always between 0 and 100. *)
Theorem match_score_between_0_and_100 (candidateSkills : list string) (j : Job) :
  (0 <= _calculateMatchScore candidateSkills j)%Q /\
  (_calculateMatchScore candidateSkills j <= 100)%Q.
Proof.
  rewrite calculateMatchScore_spec. unfold spec_match_score.
  destruct (required_skills j) as [|r rest]; [split; discriminate|].
  pose proof (required_count_positive r rest) as Hpos.
  pose proof (filter_length_le (contains_either_way candidateSkills) (r :: rest)) as Hle.
  set (k := length (List.filter _ _)) in *. set (n := length (r :: rest)) in *.
  assert (Hk0 : (0 <= inject_Z (Z.of_nat k))%Q)
    by (change 0%Q with (inject_Z 0); rewrite <- Zle_Qle; lia).
  assert (Hkn : (inject_Z (Z.of_nat k) <= inject_Z (Z.of_nat n))%Q)
    by (rewrite <- Zle_Qle; lia).
  assert (H0 : (0 <= inject_Z (Z.of_nat k) / inject_Z (Z.of_nat n))%Q)
    by (apply Qle_shift_div_l; [exact Hpos|lra]).
  assert (H1 : (inject_Z (Z.of_nat k) / inject_Z (Z.of_nat n) <= 1)%Q)
    by (apply Qle_shift_div_r; [exact Hpos|lra]).
  split; lra.
Qed.

Lemma scaled_ratio_zero (a b : Q) : (0 < b)%Q -> (a / b * 100 == 0)%Q <-> (a == 0)%Q.
Proof.
  intros Hb. split; intros H.
  - assert (E : (a == (a / b * 100) * (b / 100))%Q) by (field; lra).
    rewrite E, H. ring.
  - rewrite H. field. lra.
Qed.

Lemma scaled_ratio_full (a b : Q) : (0 < b)%Q -> (a / b * 100 == 100)%Q <-> (a == b)%Q.
Proof.
  intros Hb. split; intros H.
  - assert (E : (a == (a / b * 100) * (b / 100))%Q) by (field; lra).
    rewrite E, H. field.
  - rewrite H. field. lra.
Qed.

(** X15: the score and the list of matched skills agree: the two loops
    find the same skills, so the score is [(k / n) * 100] for the number
    [k] of skills [_findMatchedSkills] lists and the number [n] of skills
    required. It is 0 exactly when no skill is listed, and 100 exactly
    when every required skill is listed and there is one at least. *)
Theorem match_score_is_share_of_matched_skills (candidateSkills : list string) (j : Job) :
  let matched := length (_findMatchedSkills candidateSkills j) in
  let required := length (required_skills j) in
  _calculateMatchScore candidateSkills j
  = (if (required =? 0)%nat then 0
     else inject_Z (Z.of_nat matched) / inject_Z (Z.of_nat required) * 100)%Q /\
  ((_calculateMatchScore candidateSkills j == 0)%Q <-> matched = 0%nat) /\
  ((_calculateMatchScore candidateSkills j == 100)%Q
   <-> matched = required /\ required <> 0%nat).
Proof.
  cbv zeta.
  rewrite calculateMatchScore_spec, findMatchedSkills_spec.
  unfold spec_match_score, spec_matched_skills.
  destruct (required_skills j) as [|r rest].
  - cbn. split; [reflexivity|]. split; [split; reflexivity|].
    split; [discriminate|]. intros [_ H]. congruence.
  - pose proof (required_count_positive r rest) as Hpos.
    set (k := length (List.filter _ _)). set (n := length (r :: rest)) in *.
    assert (Hn : n <> 0%nat) by (subst n; discriminate).
    destruct (n =? 0)%nat eqn:Hn0; [apply Nat.eqb_eq in Hn0; congruence|].
    split; [reflexivity|]. split.
    + rewrite (scaled_ratio_zero _ _ Hpos).
      change 0%Q with (inject_Z (Z.of_nat 0)). rewrite inject_Z_injective. lia.
    + rewrite (scaled_ratio_full _ _ Hpos), inject_Z_injective. lia.
Qed.

(** X16: more candidate skills never lower a score: when every skill of
    one list is also in another, each job scores at least as much with the
    larger list, and the skills matched with the smaller list are still
    matched, in the same order. *)
Theorem more_skills_never_lower_the_score
    (candidateSkills moreSkills : list string) (j : Job) :
  (forall s, In s candidateSkills -> In s moreSkills) ->
  (_calculateMatchScore candidateSkills j <= _calculateMatchScore moreSkills j)%Q /\
  _findMatchedSkills candidateSkills j `sublist_of` _findMatchedSkills moreSkills j.
Proof.
  intros Hincl.
  assert (Hmono : forall r, contains_either_way candidateSkills r = true ->
                            contains_either_way moreSkills r = true).
  { intros r H. unfold contains_either_way in *. apply existsb_exists in H.
    destruct H as (c & Hc & Hr). apply existsb_exists. exists c. auto. }
  rewrite !calculateMatchScore_spec, !findMatchedSkills_spec.
  unfold spec_match_score, spec_matched_skills.
  split; [|now apply filter_sublist_mono].
  destruct (required_skills j) as [|r rest]; [apply Qle_refl|].
  pose proof (required_count_positive r rest) as Hpos.
  pose proof (filter_length_mono _ _ (r :: rest) Hmono) as Hle.
  set (k := length (List.filter (contains_either_way candidateSkills) _)) in *.
  set (k' := length (List.filter (contains_either_way moreSkills) _)) in *.
  assert (Hkk : (inject_Z (Z.of_nat k) <= inject_Z (Z.of_nat k'))%Q)
    by (rewrite <- Zle_Qle; lia).
  apply Qmult_le_compat_r; [|discriminate].
  apply Qmult_le_compat_r; [exact Hkk|].
  apply Qlt_le_weak, Qinv_lt_0_compat, Hpos.
Qed.

Lemma more_skills_never_lower_the_score_witness :
  (_calculateMatchScore ["Python"] (plain_job 1 "Acme" ["Python"; "Go"])
   <= _calculateMatchScore ["Go"; "Python"] (plain_job 1 "Acme" ["Python"; "Go"]))%Q.
Proof.
  apply (more_skills_never_lower_the_score ["Python"] ["Go"; "Python"]).
  intros s [<-|[]]. right. now left.
Defined.

Lemma lower_char_idempotent (c : ascii) : lower_char (lower_char c) = lower_char c.
Proof. destruct c as [[] [] [] [] [] [] [] []]; reflexivity. Qed.

Lemma toLowerCase_idempotent (s : string) : toLowerCase (toLowerCase s) = toLowerCase s.
Proof.
  induction s as [|c rest IH]; [reflexivity|].
  cbn [toLowerCase]. now rewrite lower_char_idempotent, IH.
Qed.

(** X17: letter case plays no part in the score: two candidate lists
    that are equal once lower-cased, and two jobs whose required skills are
    equal once lower-cased, give the same score; a list and its lower-cased
    copy match the same skills of a job. *)
Theorem match_score_ignores_letter_case
    (candidateSkills candidateSkills' : list string) (j j' : Job) :
  List.map toLowerCase candidateSkills = List.map toLowerCase candidateSkills' ->
  List.map toLowerCase (required_skills j) = List.map toLowerCase (required_skills j') ->
  _calculateMatchScore candidateSkills j = _calculateMatchScore candidateSkills' j' /\
  _findMatchedSkills candidateSkills j = _findMatchedSkills candidateSkills' j /\
  _findMatchedSkills (List.map toLowerCase candidateSkills) j
  = _findMatchedSkills candidateSkills j.
Proof.
  intros Hcs Hreq. unfold _calculateMatchScore, _findMatchedSkills.
  rewrite Hcs, Hreq.
  assert (Hlen : length (required_skills j) = length (required_skills j'))
    by (rewrite <- (length_map toLowerCase), Hreq; apply length_map).
  rewrite Hlen. split; [reflexivity|]. split; [reflexivity|].
  rewrite map_map.
  rewrite (map_ext _ toLowerCase toLowerCase_idempotent), <- Hcs. reflexivity.
Qed.

Lemma match_score_ignores_letter_case_witness :
  _calculateMatchScore ["PYTHON"; "django"] (plain_job 1 "Acme" ["Python"; "SQL"])
  = _calculateMatchScore ["python"; "Django"] (plain_job 2 "Globex" ["pYTHON"; "sql"]).
Proof.
  apply (match_score_ignores_letter_case ["PYTHON"; "django"] ["python"; "Django"]
           (plain_job 1 "Acme" ["Python"; "SQL"]) (plain_job 2 "Globex" ["pYTHON"; "sql"]));
    reflexivity.
Defined.

(** ** Edges of [retrieveMatchingJobs] *)

Lemma retrieveMatchingJobs_verified this cs ev topK :
  jobs this <> [] ->
  AnswerEvaluationService.is_verified ev = true ->
  retrieveMatchingJobs this cs ev topK
  = Ok (Matches (List.map to_matched_job (slice0 (filteredMatches this cs) topK))
                (length (filteredMatches this cs))
                (AnswerEvaluationService.average_score ev) "VERIFIED").
Proof.
  intros Hjobs Hver. unfold retrieveMatchingJobs.
  destruct (jobs this); [congruence|]. cbn [length Nat.eqb]. now rewrite Hver.
Qed.

(** X18: [topK] is handed to [slice] as it is. With [topK = 0] no job is
    returned although [total_matches] still counts the eligible ones; with
    a negative [topK] the eligible jobs are returned except the last
    [-topK] of them. *)
Theorem retrieveMatchingJobs_with_topK_not_positive
    (this : Catalog) (candidateSkills : list string)
    (evaluationResult : AnswerEvaluationService.EvaluationResult) (topK : Z) :
  jobs this <> [] ->
  AnswerEvaluationService.is_verified evaluationResult = true ->
  topK <= 0 ->
  let eligible := filteredMatches this candidateSkills in
  retrieveMatchingJobs this candidateSkills evaluationResult topK
  = Ok (Matches (List.map to_matched_job
                          (if topK =? 0 then []
                           else firstn (length eligible - Z.to_nat (- topK)) eligible))
                (length eligible)
                (AnswerEvaluationService.average_score evaluationResult) "VERIFIED").
Proof.
  intros Hjobs Hver Htop eligible.
  rewrite (retrieveMatchingJobs_verified _ _ _ _ Hjobs Hver). fold eligible.
  unfold slice0. destruct (topK =? 0) eqn:Hz.
  - apply Z.eqb_eq in Hz. subst topK. reflexivity.
  - apply Z.eqb_neq in Hz. destruct (topK <? 0) eqn:Hneg;
      [|apply Z.ltb_ge in Hneg; lia].
    replace (Z.to_nat (Z.max (Z.of_nat (length eligible) + topK) 0))
      with (length eligible - Z.to_nat (- topK))%nat by lia.
    reflexivity.
Qed.

Lemma retrieveMatchingJobs_with_topK_not_positive_witness :
  exists only,
    retrieveMatchingJobs with_ties ["Python"] (verdict true) (-2)
    = Ok (Matches [only] 3 (of_Z 75) "VERIFIED") /\
    mj_company_name only = "Umbrella"%string.
Proof.
  rewrite (retrieveMatchingJobs_with_topK_not_positive with_ties ["Python"] (verdict true) (-2)).
  - eexists. split; [vm_compute; reflexivity|reflexivity].
  - vm_compute. discriminate.
  - reflexivity.
  - lia.
Defined.

Lemma no_skill_contains_nothing (required : string) : contains_either_way [] required = false.
Proof. reflexivity. Qed.

Lemma no_skill_passes_nothing (j : Job) : passes_floor [] j = false.
Proof.
  unfold passes_floor. rewrite calculateMatchScore_spec. unfold spec_match_score.
  destruct (required_skills j) as [|r rest]; [reflexivity|].
  replace (List.filter (contains_either_way []) (r :: rest)) with (@nil string).
  - reflexivity.
  - symmetry. clear. induction (r :: rest) as [|x l IH]; [reflexivity|exact IH].
Qed.

(** X19: a verified candidate with no skill at all matches no job: the
    result is empty and [total_matches] is 0, for every catalog that holds
    a job and every [topK]. *)
Theorem no_candidate_skill_matches_no_job
    (this : Catalog) (evaluationResult : AnswerEvaluationService.EvaluationResult)
    (topK : Z) :
  jobs this <> [] ->
  AnswerEvaluationService.is_verified evaluationResult = true ->
  retrieveMatchingJobs this [] evaluationResult topK
  = Ok (Matches [] 0 (AnswerEvaluationService.average_score evaluationResult) "VERIFIED").
Proof.
  intros Hjobs Hver. rewrite (retrieveMatchingJobs_verified _ _ _ _ Hjobs Hver).
  assert (Hnil : filteredMatches this [] = []).
  { apply length_zero_iff_nil. rewrite filteredMatches_length. clear Hjobs.
    induction (jobs this) as [|j rest IH]; [reflexivity|].
    cbn [List.filter]. rewrite no_skill_passes_nothing. exact IH. }
  rewrite Hnil. unfold slice0. destruct (topK <? 0); cbn [length]; now rewrite firstn_nil.
Qed.

Lemma no_candidate_skill_matches_no_job_witness :
  retrieveMatchingJobs loaded [] (verdict true) 5 = Ok (Matches [] 0 (of_Z 75) "VERIFIED").
Proof.
  apply (no_candidate_skill_matches_no_job loaded (verdict true) 5).
  - vm_compute. discriminate.
  - reflexivity.
Defined.

(** ** Matches against a loaded catalog *)

Lemma insert_sorted_perm {A} (compareFn : A -> A -> Q) (x : A) (l : list A) :
  Permutation (insert_sorted compareFn x l) (x :: l).
Proof.
  induction l as [|y rest IH]; cbn; [reflexivity|].
  destruct (Qlt_le_dec 0 (compareFn x y)); [|reflexivity].
  rewrite IH. apply perm_swap.
Qed.

Lemma sort_perm {A} (compareFn : A -> A -> Q) (l : list A) :
  Permutation (sort compareFn l) l.
Proof.
  induction l as [|x rest IH]; cbn; [reflexivity|].
  rewrite insert_sorted_perm. now constructor.
Qed.

Lemma NoDup_map_filter {A B} (g : A -> B) (f : A -> bool) (l : list A) :
  List.NoDup (List.map g l) -> List.NoDup (List.map g (List.filter f l)).
Proof.
  induction l as [|x rest IH]; cbn; [auto|].
  intros H. apply List.NoDup_cons_iff in H as [Hx Hrest].
  destruct (f x); [|now apply IH].
  cbn. apply List.NoDup_cons_iff. split; [|now apply IH].
  intros Hin. apply Hx. apply in_map_iff in Hin as (y & Hy & Hin).
  apply filter_In in Hin as [Hin _]. apply in_map_iff. eauto.
Qed.

Lemma NoDup_map_firstn {A B} (g : A -> B) (n : nat) (l : list A) :
  List.NoDup (List.map g l) -> List.NoDup (List.map g (firstn n l)).
Proof.
  revert n. induction l as [|x rest IH]; intros [|n]; cbn; try constructor.
  - apply List.NoDup_cons_iff in H as [Hx _].
    intros Hin. apply Hx. apply in_map_iff in Hin as (y & Hy & Hin).
    apply In_firstn in Hin. apply in_map_iff. eauto.
  - apply IH. now apply List.NoDup_cons_iff in H.
Qed.

Lemma slice0_is_firstn {A} (l : list A) (k : Z) : exists n, slice0 l k = firstn n l.
Proof. unfold slice0. destruct (k <? 0); eauto. Qed.

Lemma loaded_job_by_own_id rows (j : Job) :
  In j (jobs_of_rows 1 rows) ->
  getJobById (fold_left on_data rows {| jobs := []; jobIndex := ∅ |}) (id j) = Some j.
Proof.
  intros Hin. apply list_elem_of_In, list_elem_of_lookup in Hin. destruct Hin as [k Hk].
  pose proof (jobs_of_rows_lookup _ _ _ _ Hk) as Hid.
  unfold getJobById.
  rewrite (fold_on_data_index_agrees rows _ empty_index_agrees (id j)).
  rewrite Hid. cbn [Nat.add]. rewrite fold_on_data_jobs. exact Hk.
Qed.

(** X20: every job matched against a catalog that was loaded to the end
    of its file can be looked up again: the returned ids are pairwise
    different, and [getJobById] finds under each of them the catalog job
    the match was made of. *)
Theorem matched_jobs_resolve_by_id
    (fs : FileSystem) (csvPath : string) (rows : list Row) (this : Catalog)
    (candidateSkills : list string)
    (evaluationResult : AnswerEvaluationService.EvaluationResult) (topK : Z)
    (matched : list MatchedJob) (total : nat) (score : num) (status : string) :
  fs csvPath = Some (StreamEnd rows) ->
  let this' := snd (loadJobsData fs csvPath this) in
  retrieveMatchingJobs this' candidateSkills evaluationResult topK
  = Ok (Matches matched total score status) ->
  List.NoDup (List.map mj_id matched) /\
  forall mj, In mj matched ->
    exists j, getJobById this' (mj_id mj) = Some j /\
              mj_company_name mj = company_name j /\
              mj_job_role mj = job_role j /\
              mj_company_email mj = company_email j /\
              mj_required_skills mj = required_skills j.
Proof.
  intros Hfs. unfold loadJobsData. rewrite Hfs. cbn [snd].
  set (this' := fold_left on_data rows _).
  assert (Hjobs : jobs this' = jobs_of_rows 1 rows)
    by (unfold this'; now rewrite fold_on_data_jobs).
  intros Hrun. unfold retrieveMatchingJobs in Hrun.
  destruct (length (jobs this') =? 0)%nat; [discriminate|].
  destruct (negb _); [discriminate|].
  inversion Hrun as [[Hmatched Htotal Hscore Hstatus]]. clear Hrun Htotal Hscore Hstatus.
  destruct (slice0_is_firstn (filteredMatches this' candidateSkills) topK) as [n ->].
  split.
  - rewrite map_map. cbn [to_matched_job mj_id].
    apply (NoDup_map_firstn (fun m => id (job m))).
    unfold filteredMatches. apply (NoDup_map_filter (fun m => id (job m))).
    unfold ranked.
    eapply Permutation_NoDup.
    { symmetry. apply Permutation_map, sort_perm. }
    rewrite map_map. cbn [to_match job]. rewrite Hjobs, jobs_of_rows_ids.
    apply List.seq_NoDup.
  - intros mj Hin. apply in_map_iff in Hin as (m & <- & Hm).
    apply In_firstn in Hm. apply filteredMatches_In in Hm.
    destruct Hm as (j & Hj & -> & _). exists j.
    cbn [to_matched_job to_match job mj_id mj_company_name mj_job_role
         mj_company_email mj_required_skills].
    split; [|repeat split]. rewrite Hjobs in Hj.
    now apply loaded_job_by_own_id.
Qed.

Lemma matched_jobs_resolve_by_id_witness :
  exists first second,
    retrieveMatchingJobs (snd (loadJobsData disk "ties.csv" empty_catalog)) ["Python"]
      (verdict true) 2
    = Ok (Matches [first; second] 3 (of_Z 75) "VERIFIED") /\
    List.NoDup [mj_id first; mj_id second].
Proof.
  eexists _, _. split; [vm_compute; reflexivity|].
  match goal with
  | |- List.NoDup [mj_id ?a; mj_id ?b] =>
      exact (proj1 (matched_jobs_resolve_by_id disk "ties.csv"
                      [plain_row "Hooli" "Python,Go"; plain_row "Umbrella" "Python";
                       plain_row "Stark" "Python,Rust"; plain_row "Wayne" "Java,Go,Rust"]
                      empty_catalog ["Python"] (verdict true) 2 [a; b] 3 (of_Z 75)
                      "VERIFIED" eq_refl ltac:(vm_compute; reflexivity)))
  end.
Defined.

End MatcherMore.

(** * Further properties of the application route *)
Module DispatchMore.
Import RAGService EmailService DispatchSpec EmailFacts JobRoutes.

Lemma sent_plus_failed (results : list ApplicationRecord) :
  List.Forall (fun r => ar_status r = "sent"%string \/ ar_status r = "failed"%string) results ->
  (length (List.filter (fun r => String.eqb (ar_status r) "sent") results)
   + length (List.filter (fun r => String.eqb (ar_status r) "failed") results)
   = length results)%nat.
Proof.
  induction 1 as [|r rest [Hr|Hr] Hall IH]; [reflexivity| |];
    cbn [List.filter]; rewrite Hr; cbn; lia.
Qed.

Lemma outcomes_companies smtpConfig sendMail now candidateInfo resumePDF outbox matchedJobs :
  List.map company (outcomes smtpConfig sendMail now candidateInfo resumePDF outbox matchedJobs)
  = List.map mj_company_name matchedJobs.
Proof.
  revert outbox. induction matchedJobs as [|j rest IH]; intros outbox; [reflexivity|].
  cbn [outcomes List.map]. rewrite IH. f_equal.
  unfold outcome. destruct (sendMail _ _); reflexivity.
Qed.

Section Apply.
Variable generateResumePDF : ResumeService.Resume -> string + string.
Variable sendMail : list Mail -> Mail -> string + string.
Variable now : list Mail -> string.

(** X21: a request that carries a resume, at least one matched job (all
    of them job objects), the candidate and the SMTP settings, and whose
    PDF can be generated, is always answered with success, whatever the
    transporter does: one application record per job,
    [total_sent + total_failed] equal to the number of jobs,
    [companies_applied] naming every company in job order (also those
    whose mail failed), and one mail attempted per job. *)
Theorem post_apply_reports_every_job
    (resume : ResumeService.Resume) (job : MatchedJob) (others : list MatchedJob)
    (candidateInfo : CandidateInfo) (smtpConfig : SmtpConfig) (resumePDF : string)
    (outbox : list Mail) :
  generateResumePDF resume = inr resumePDF ->
  exists message applications total_sent total_failed outbox',
    post_apply generateResumePDF sendMail now
      {| JobRoutes.resume := Some resume;
         matchedJobs := Some (List.map Some (job :: others));
         JobRoutes.candidateInfo := Some candidateInfo;
         JobRoutes.smtpConfig := Some smtpConfig |} outbox
    = (Apply200 message applications total_sent total_failed
                (List.map mj_company_name (job :: others)), outbox') /\
    length applications = length (job :: others) /\
    (total_sent + total_failed = length (job :: others))%nat /\
    length outbox' = (length outbox + length (job :: others))%nat.
Proof.
  intros Hpdf. unfold post_apply.
  cbn [JobRoutes.resume matchedJobs JobRoutes.candidateInfo JobRoutes.smtpConfig].
  rewrite Hpdf. unfold sendBatchApplications.
  change (Some job :: List.map Some others) with (List.map Some (job :: others)).
  rewrite sendLoop_runs. cbn [app].
  rewrite outcomes_companies.
  eexists _, _, _, _, _. split; [reflexivity|].
  split; [apply outcomes_length|].
  split.
  - rewrite sent_plus_failed by apply outcomes_status. apply outcomes_length.
  - rewrite length_app, length_map. reflexivity.
Qed.

(** X22: a [null] entry among the matched jobs turns the answer into a
    500 carrying the TypeError, although the entries before it were
    processed: their mails have been handed to the transporter, the
    answer names none of them, and the entries after it are not
    attempted. *)
Theorem post_apply_null_entry_answers_500
    (resume : ResumeService.Resume) (before : list MatchedJob)
    (rest : list (option MatchedJob))
    (candidateInfo : CandidateInfo) (smtpConfig : SmtpConfig) (resumePDF : string)
    (outbox : list Mail) :
  generateResumePDF resume = inr resumePDF ->
  post_apply generateResumePDF sendMail now
    {| JobRoutes.resume := Some resume;
       matchedJobs := Some (List.map Some before ++ None :: rest);
       JobRoutes.candidateInfo := Some candidateInfo;
       JobRoutes.smtpConfig := Some smtpConfig |} outbox
  = (Apply500 "Cannot read properties of null (reading 'company_name')",
     outbox ++ List.map (mail_of smtpConfig candidateInfo resumePDF) before).
Proof.
  intros Hpdf. unfold post_apply.
  cbn [JobRoutes.resume matchedJobs JobRoutes.candidateInfo JobRoutes.smtpConfig].
  destruct (List.map Some before ++ None :: rest) as [|entry entries] eqn:Hjobs;
    [destruct before; discriminate|].
  rewrite Hpdf, <- Hjobs. unfold sendBatchApplications.
  rewrite sendLoop_stops_at_null. reflexivity.
Qed.
End Apply.

Lemma post_apply_reports_every_job_witness :
  exists message applications outbox',
    post_apply (fun _ => inr "%PDF"%string) reject_globex timestamp
      {| JobRoutes.resume := Some blank_resume;
         matchedJobs := Some [Some (pending "Acme" "hr@acme.example");
                              Some (pending "Globex" "hr@globex.example");
                              Some (pending "Initech" "hr@initech.example")];
         JobRoutes.candidateInfo := Some {| name := "Ada" |};
         JobRoutes.smtpConfig := Some sender |} []
    = (Apply200 message applications 2 1 ["Acme"; "Globex"; "Initech"]%string, outbox') /\
    message = "Applications sent: 2, Failed: 1"%string.
Proof.
  destruct (post_apply_reports_every_job (fun _ => inr "%PDF"%string) reject_globex
              timestamp blank_resume
              (pending "Acme" "hr@acme.example")
              [pending "Globex" "hr@globex.example"; pending "Initech" "hr@initech.example"]
              {| name := "Ada" |} sender "%PDF" [] eq_refl)
    as (message & applications & sent & failed & outbox' & Hrun & _).
  cbn [List.map] in Hrun. rewrite Hrun. vm_compute in Hrun. inversion Hrun; subst.
  eexists _, _, _. split; reflexivity.
Defined.

(** The request of the example above with [null] in the place of the
    second job: the answer is a 500, and Acme has been written to. *)
Lemma post_apply_null_entry_answers_500_witness :
  exists outbox',
    post_apply (fun _ => inr "%PDF"%string) reject_globex timestamp
      {| JobRoutes.resume := Some blank_resume;
         matchedJobs := Some [Some (pending "Acme" "hr@acme.example"); None;
                              Some (pending "Initech" "hr@initech.example")];
         JobRoutes.candidateInfo := Some {| name := "Ada" |};
         JobRoutes.smtpConfig := Some sender |} []
    = (Apply500 "Cannot read properties of null (reading 'company_name')", outbox') /\
    List.map mail_to outbox' = ["hr@acme.example"]%string.
Proof.
  eexists. split.
  - apply (post_apply_null_entry_answers_500 (fun _ => inr "%PDF"%string) reject_globex
             timestamp blank_resume [pending "Acme" "hr@acme.example"]
             [Some (pending "Initech" "hr@initech.example")]
             {| name := "Ada" |} sender "%PDF" [] eq_refl).
  - reflexivity.
Defined.

End DispatchMore.

(** * Properties of question generation *)
Module QuestionMore.
Import JSArray QuestionGenerationService QuestionRoutes QuestionFixtures.

Lemma slice0_5 {A} (l : list A) : slice0 l 5 = firstn 5 l.
Proof. reflexivity. Qed.

Lemma validateQuestions_sound (questions : list GeneratedQuestion) :
  validateQuestions questions = true ->
  length questions = 5%nat /\
  List.Forall (fun q => is_Some (id q) /\ truthy (skill q) = true /\
                        truthy (question q) = true /\ truthy (correct_answer q) = true /\
                        truthy (difficulty q) = true /\ is_Some (keywords q))
              questions.
Proof.
  unfold validateQuestions. rewrite andb_true_iff, Nat.eqb_eq, forallb_forall.
  intros [Hlen Hall]. split; [exact Hlen|].
  apply List.Forall_forall. intros q Hq. specialize (Hall q Hq).
  rewrite !andb_true_iff, !bool_decide_eq_true in Hall. tauto.
Qed.

Section WithOracle.
Variable oracle : list Prompt -> Prompt -> string + list GeneratedQuestion.

(** X23: only the first five skills reach the model, and only the first
    five questions of its reply are kept: the call behaves the same on a
    skill list and on its first five entries, and a returned list is the
    first five elements of the reply to the one prompt sent. *)
Theorem generateQuestions_keeps_five
    (skills : list string) (experienceLevel : string) (log : list Prompt) :
  skills <> [] ->
  generateQuestions oracle (Some skills) experienceLevel log
  = generateQuestions oracle (Some (firstn 5 skills)) experienceLevel log /\
  forall questions log',
    generateQuestions oracle (Some skills) experienceLevel log = (Ok questions, log') ->
    (length questions <= 5)%nat /\
    exists reply prompt,
      oracle log prompt = inr reply /\ questions = firstn 5 reply /\
      prompt_skills prompt = AnswerEvaluationService.join ", " (firstn 5 skills) /\
      log' = log ++ [prompt].
Proof.
  intros Hne. destruct skills as [|s rest]; [congruence|]. split.
  - cbn [firstn generateQuestions]. rewrite !slice0_5.
    change (s :: firstn 4 rest) with (firstn 5 (s :: rest)).
    now rewrite firstn_firstn.
  - intros questions log'. cbn [generateQuestions]. rewrite slice0_5.
    destruct (oracle log _) as [msg|reply] eqn:Ho; [discriminate|].
    intros H. inversion H; subst. rewrite slice0_5. split.
    + rewrite length_firstn. lia.
    + eexists _, _. split; [exact Ho|]. repeat split.
Qed.

Variable geminiApiKey : option string.

(** X24: a 200 answer of [POST /generate] always carries exactly five
    questions, each with an id, a skill, a text and a difficulty, and
    [total_questions = 5]. *)
Theorem post_generate_success_has_five_questions
    (body : Body) (log log' : list Prompt) (questions : list QuestionForUI)
    (total : nat) (assessed : list (option string)) (level : string) :
  post_generate oracle geminiApiKey body log
  = (Status200 questions total assessed level, log') ->
  length questions = 5%nat /\ total = 5%nat /\
  level = default "mid"%string (experienceLevel body) /\
  List.Forall (fun q => is_Some (ui_id q) /\ truthy (ui_skill q) = true /\
                        truthy (ui_question q) = true /\ truthy (ui_difficulty q) = true)
              questions.
Proof.
  unfold post_generate.
  destruct (QuestionRoutes.skills body) as [[|s rest]|]; try discriminate.
  destruct (negb (truthy geminiApiKey)); [discriminate|].
  destruct (generateQuestions oracle _ _ log) as [[qs|msg] l]; [|discriminate].
  destruct (validateQuestions qs) eqn:Hvalid; cbn [negb]; [|discriminate].
  intros H. inversion H; subst. apply validateQuestions_sound in Hvalid as [Hlen Hall].
  rewrite length_map. repeat split; try assumption.
  apply List.Forall_forall. intros q Hq. apply in_map_iff in Hq as (g & <- & Hg).
  rewrite List.Forall_forall in Hall. specialize (Hall g Hg). cbn. tauto.
Qed.

(** X25: a reply of fewer than five questions, which
    [generateQuestions] returns without complaint, makes the route answer
    500 after the prompt has been sent. *)
Theorem post_generate_rejects_short_reply
    (s : string) (rest : list string) (level : option string) (log : list Prompt)
    (reply : list GeneratedQuestion) :
  truthy geminiApiKey = true ->
  oracle log {| prompt_skills := AnswerEvaluationService.join ", " (firstn 5 (s :: rest));
                prompt_level := default "mid"%string level;
                prompt_difficulty := difficulty_of (default "mid"%string level) |}
  = inr reply ->
  (length reply < 5)%nat ->
  generateQuestions oracle (Some (s :: rest)) (default "mid"%string level) log
  = (Ok reply,
     log ++ [{| prompt_skills := AnswerEvaluationService.join ", " (firstn 5 (s :: rest));
                prompt_level := default "mid"%string level;
                prompt_difficulty := difficulty_of (default "mid"%string level) |}]) /\
  post_generate oracle geminiApiKey
    {| QuestionRoutes.skills := Some (s :: rest); experienceLevel := level |} log
  = (Status500 "Generated questions do not meet validation criteria",
     log ++ [{| prompt_skills := AnswerEvaluationService.join ", " (firstn 5 (s :: rest));
                prompt_level := default "mid"%string level;
                prompt_difficulty := difficulty_of (default "mid"%string level) |}]).
Proof.
  intros Hkey Ho Hshort.
  assert (Hrun : generateQuestions oracle (Some (s :: rest)) (default "mid"%string level) log
                 = (Ok reply, log ++ [{| prompt_skills :=
                                           AnswerEvaluationService.join ", " (firstn 5 (s :: rest));
                                         prompt_level := default "mid"%string level;
                                         prompt_difficulty :=
                                           difficulty_of (default "mid"%string level) |}])).
  { cbn [generateQuestions]. rewrite slice0_5, Ho, slice0_5.
    rewrite (firstn_all2 reply) by lia. reflexivity. }
  split; [exact Hrun|].
  unfold post_generate. cbn [QuestionRoutes.skills experienceLevel].
  rewrite Hkey. cbn [negb]. rewrite Hrun.
  unfold validateQuestions.
  replace (length reply =? 5)%nat with false by (symmetry; apply Nat.eqb_neq; lia).
  reflexivity.
Qed.

(** X26: the route asks the model at most once, and not at all when the
    request names no skill or no API key is configured (400 and 500). *)
Theorem post_generate_asks_at_most_once (body : Body) (log : list Prompt) :
  let log' := snd (post_generate oracle geminiApiKey body log) in
  (log' = log \/ exists prompt, log' = log ++ [prompt]) /\
  (QuestionRoutes.skills body = None \/ QuestionRoutes.skills body = Some []
   \/ truthy geminiApiKey = false ->
   log' = log /\
   exists error, fst (post_generate oracle geminiApiKey body log) = Status400 error
                 \/ fst (post_generate oracle geminiApiKey body log) = Status500 error).
Proof.
  unfold post_generate.
  destruct (QuestionRoutes.skills body) as [[|s rest]|] eqn:Hs.
  - split; [now left|]. intros _. split; [reflexivity|]. eexists. now left.
  - destruct (truthy geminiApiKey) eqn:Hkey; cbn [negb].
    + split.
      * right. cbn [generateQuestions].
        destruct (oracle log _) as [msg|reply]; [eexists; reflexivity|].
        destruct (negb _); eexists; reflexivity.
      * intros [H|[H|H]]; discriminate.
    + split; [now left|]. intros _. split; [reflexivity|]. eexists. now right.
  - split; [now left|]. intros _. split; [reflexivity|]. eexists. now left.
Qed.
End WithOracle.

Lemma generateQuestions_keeps_five_witness :
  exists questions log',
    generateQuestions
      (replying (List.map good_question [1; 2; 3; 4; 5; 6; 7]))
      (Some ["a"; "b"; "c"; "d"; "e"; "f"]%string) "mid" []
    = (Ok questions, log') /\
    (length questions <= 5)%nat /\
    List.map prompt_skills log' = ["a, b, c, d, e"%string].
Proof.
  eexists _, _. split; [vm_compute; reflexivity|]. split; [|reflexivity].
  eapply (proj2 (generateQuestions_keeps_five
                   (replying (List.map good_question [1; 2; 3; 4; 5; 6; 7]))
                   ["a"; "b"; "c"; "d"; "e"; "f"]%string "mid" [] ltac:(discriminate))).
  vm_compute. reflexivity.
Defined.

Lemma post_generate_success_has_five_questions_witness :
  exists questions assessed log',
    post_generate (replying (List.map good_question [1; 2; 3; 4; 5; 6]))
      (Some "key"%string)
      {| QuestionRoutes.skills := Some ["SQL"%string]; experienceLevel := None |} []
    = (Status200 questions 5 assessed "mid", log') /\
    length questions = 5%nat.
Proof.
  eexists _, _, _. split; [vm_compute; reflexivity|].
  eapply (post_generate_success_has_five_questions
            (replying (List.map good_question [1; 2; 3; 4; 5; 6])) (Some "key"%string)
            {| QuestionRoutes.skills := Some ["SQL"%string]; experienceLevel := None |} []).
  vm_compute. reflexivity.
Defined.

Lemma post_generate_rejects_short_reply_witness :
  post_generate (replying (List.map good_question [1; 2; 3])) (Some "key"%string)
    {| QuestionRoutes.skills := Some ["SQL"%string]; experienceLevel := Some "senior"%string |}
    []
  = (Status500 "Generated questions do not meet validation criteria",
     [{| prompt_skills := "SQL"; prompt_level := "senior";
         prompt_difficulty := "advanced to expert" |}]).
Proof.
  apply (post_generate_rejects_short_reply
           (replying (List.map good_question [1; 2; 3])) (Some "key"%string)
           "SQL" [] (Some "senior"%string) [] (List.map good_question [1; 2; 3])).
  - reflexivity.
  - reflexivity.
  - cbn. lia.
Defined.

End QuestionMore.

(** * Properties of the resume service *)
Module ResumeMore.
Import JSString ResumeService ResumeSpec ResumeFixtures.

(** ** Experience level *)

Lemma level_by_length (n : nat) :
  (if JSNum.geb (times_1_5 (of_Z (Z.of_nat n))) (of_Z 7) then "senior"
   else if JSNum.geb (times_1_5 (of_Z (Z.of_nat n))) (of_Z 3) then "mid"
   else "junior")%string
  = level_of_count n.
Proof.
  unfold level_of_count, of_Z. cbn [times_1_5 JSNum.geb].
  change (inject_Z 7) with 7%Q. change (inject_Z 3) with 3%Q.
  assert (H7 : Qle_bool 7 (inject_Z (Z.of_nat n) * (3 # 2)) = (5 <=? n)%nat).
  { destruct (5 <=? n)%nat eqn:Hn.
    - apply Nat.leb_le in Hn. apply Qle_bool_iff.
      assert (H : (inject_Z 5 <= inject_Z (Z.of_nat n))%Q) by (rewrite <- Zle_Qle; lia).
      change (inject_Z 5) with 5%Q in H. lra.
    - apply Nat.leb_gt in Hn.
      destruct (Qle_bool 7 _) eqn:Hb; [|reflexivity]. apply Qle_bool_iff in Hb.
      assert (H : (inject_Z (Z.of_nat n) <= inject_Z 4)%Q) by (rewrite <- Zle_Qle; lia).
      change (inject_Z 4) with 4%Q in H. lra. }
  assert (H3 : Qle_bool 3 (inject_Z (Z.of_nat n) * (3 # 2)) = (2 <=? n)%nat).
  { destruct (2 <=? n)%nat eqn:Hn.
    - apply Nat.leb_le in Hn. apply Qle_bool_iff.
      assert (H : (inject_Z 2 <= inject_Z (Z.of_nat n))%Q) by (rewrite <- Zle_Qle; lia).
      change (inject_Z 2) with 2%Q in H. lra.
    - apply Nat.leb_gt in Hn.
      destruct (Qle_bool 3 _) eqn:Hb; [|reflexivity]. apply Qle_bool_iff in Hb.
      assert (H : (inject_Z (Z.of_nat n) <= inject_Z 1)%Q) by (rewrite <- Zle_Qle; lia).
      change (inject_Z 1) with 1%Q in H. lra. }
  now rewrite H7, H3.
Qed.

(** X27: the experience level depends only on the [length] of the
    resume's experience: below two it is ["junior"], from two to four
    ["mid"], from five on ["senior"]; a resume without experience is
    ["junior"]. The experience need not be an array for that: a string of
    five characters is rated like five entries, and a value without a
    numeric [length] is ["junior"]. *)
Theorem experience_level_by_number_of_entries (r : Resume) :
  extractExperienceLevel None = "junior"%string /\
  extractExperienceLevel (Some r)
  = match experience r with
    | NoExperience | ExperienceOther None => "junior"%string
    | ExperienceArray entries => level_of_count (length entries)
    | ExperienceOther (Some n) => level_of_count n
    end.
Proof.
  split; [reflexivity|]. unfold extractExperienceLevel.
  destruct (experience r) as [|entries|[n|]]; cbn [length_of];
    [reflexivity|apply level_by_length|apply level_by_length|reflexivity].
Qed.

Example experience_level_of_a_string :
  extractExperienceLevel
    (Some {| personal_info := None; skills := None;
             experience := ExperienceOther (Some 5%nat);
             projects := None; summary := None |})
  = "senior"%string.
Proof. reflexivity. Qed.

(** ** Substrings *)

Lemma prefix_append (p s : string) :
  String.prefix p s = true <-> exists post, s = p +:+ post.
Proof.
  revert s. induction p as [|a p IH]; intros s.
  - split; [intros _; now exists s|]. intros _. destruct s; reflexivity.
  - destruct s as [|b s]; cbn.
    + split; [discriminate|intros [post H]; discriminate].
    + destruct (Ascii.ascii_dec a b) as [->|Hne].
      * rewrite IH. split; intros [post H]; exists post.
        -- now rewrite H.
        -- cbn in H. now inversion H.
      * split; [discriminate|]. intros [post H]. cbn in H. inversion H. congruence.
Qed.

Lemma includes_unfold (s sub : string) :
  includes s sub
  = String.prefix sub s || match s with
                           | EmptyString => false
                           | String _ rest => includes rest sub
                           end.
Proof. destruct s; reflexivity. Qed.

Lemma includes_append (s sub : string) :
  includes s sub = true <-> exists pre post, s = pre +:+ (sub +:+ post).
Proof.
  split.
  - induction s as [|c rest IH]; rewrite includes_unfold; intros H;
      apply orb_true_iff in H as [H|H].
    + apply prefix_append in H as [post H]. now exists ""%string, post.
    + discriminate.
    + apply prefix_append in H as [post H]. now exists ""%string, post.
    + destruct (IH H) as (pre & post & ->). now exists (String c pre), post.
  - intros (pre & post & ->). induction pre as [|c pre IH]; rewrite includes_unfold.
    + apply orb_true_iff. left. apply prefix_append. now exists post.
    + apply orb_true_iff. right. exact IH.
Qed.

(** A substring of a substring is a substring. *)
Lemma includes_trans (s mid sub : string) :
  includes s mid = true -> includes mid sub = true -> includes s sub = true.
Proof.
  rewrite !includes_append. intros (pre & post & ->) (pre' & post' & ->).
  exists (pre +:+ pre'), (post' +:+ post).
  now rewrite !CatalogMore.append_assoc.
Qed.

(** ** Skills mined from text *)

Lemma extractSkillsFromText_filter (text : string) :
  _extractSkillsFromText text
  = List.filter (fun tech => includes (toLowerCase text) (toLowerCase tech)) commonTechs.
Proof. unfold _extractSkillsFromText. now rewrite RAGFacts.push_loop. Qed.

(** X28: mining is by substring, so a technology whose name lies inside
    another's is reported whenever the other is: if the lower-cased name
    of [a] occurs in the lower-cased name of [b] (Java in JavaScript, Go in
    Django and MongoDB, SQL in PostgreSQL and MySQL), every text in which
    [b] is found also yields [a]. *)
Theorem mined_skills_include_contained_names (text a b : string) :
  In a commonTechs ->
  includes (toLowerCase b) (toLowerCase a) = true ->
  In b (_extractSkillsFromText text) ->
  In a (_extractSkillsFromText text).
Proof.
  rewrite !extractSkillsFromText_filter, !filter_In.
  intros Ha Hab [_ Hb]. split; [exact Ha|]. eapply includes_trans; eassumption.
Qed.

(** ** Sets kept in insertion order *)

Lemma existsb_eqb (x : string) (set : list string) :
  existsb (String.eqb x) set = true <-> In x set.
Proof.
  rewrite existsb_exists. split.
  - intros (y & Hy & Heq). apply String.eqb_eq in Heq. now subst.
  - intros H. exists x. split; [exact H|apply String.eqb_refl].
Qed.

Lemma mined_skills_include_contained_names_witness :
  In "Java"%string (_extractSkillsFromText "Front ends in JavaScript, data in MongoDB") /\
  In "Go"%string (_extractSkillsFromText "Front ends in JavaScript, data in MongoDB").
Proof.
  split.
  - apply (mined_skills_include_contained_names _ "Java" "JavaScript").
    + apply existsb_eqb. vm_compute. reflexivity.
    + vm_compute. reflexivity.
    + apply existsb_eqb. vm_compute. reflexivity.
  - apply (mined_skills_include_contained_names _ "Go" "MongoDB").
    + apply existsb_eqb. vm_compute. reflexivity.
    + vm_compute. reflexivity.
    + apply existsb_eqb. vm_compute. reflexivity.
Defined.

Lemma set_add_In (x y : string) (set : list string) :
  In y (set_add set x) <-> In y set \/ y = x.
Proof.
  unfold set_add. destruct (existsb (String.eqb x) set) eqn:Hx.
  - apply existsb_eqb in Hx. split; [tauto|]. intros [H| ->]; assumption.
  - rewrite in_app_iff. cbn. intuition.
Qed.

Lemma set_add_NoDup (x : string) (set : list string) :
  List.NoDup set -> List.NoDup (set_add set x).
Proof.
  intros H. unfold set_add. destruct (existsb (String.eqb x) set) eqn:Hx; [exact H|].
  apply NoDup_ListNoDup. apply NoDup_app. rewrite !NoDup_ListNoDup.
  split; [exact H|]. split.
  - intros y Hy Hy'. apply list_elem_of_In in Hy, Hy'. destruct Hy' as [<-|[]].
    apply existsb_eqb in Hy. congruence.
  - repeat constructor. intros [].
Qed.

Lemma fold_set_add_In (l : list string) : forall set y,
  In y (fold_left set_add l set) <-> In y set \/ In y l.
Proof.
  induction l as [|x rest IH]; intros set y; cbn [fold_left].
  - cbn. tauto.
  - rewrite IH, set_add_In. cbn. intuition.
Qed.

Lemma fold_set_add_NoDup (l : list string) : forall set,
  List.NoDup set -> List.NoDup (fold_left set_add l set).
Proof.
  induction l as [|x rest IH]; intros set H; cbn [fold_left]; [exact H|].
  apply IH, set_add_NoDup, H.
Qed.

Lemma fold_set_add_absorbed (l : list string) : forall set,
  (forall x, In x l -> In x set) -> fold_left set_add l set = set.
Proof.
  induction l as [|x rest IH]; intros set H; cbn [fold_left]; [reflexivity|].
  assert (Hx : set_add set x = set).
  { unfold set_add. destruct (existsb (String.eqb x) set) eqn:Hb; [reflexivity|].
    assert (Hin : In x set) by (apply H; now left).
    apply existsb_eqb in Hin. congruence. }
  rewrite Hx. apply IH. intros y Hy. apply H. now right.
Qed.

Lemma spread_set_In (l : list string) (y : string) : In y (spread_set l) <-> In y l.
Proof. unfold spread_set. rewrite fold_set_add_In. cbn. tauto. Qed.

Lemma spread_set_NoDup (l : list string) : List.NoDup (spread_set l).
Proof. apply fold_set_add_NoDup. constructor. Qed.

Lemma spread_set_repeated (l extra : list string) :
  (forall x, In x extra -> In x l) -> spread_set (l ++ extra) = spread_set l.
Proof.
  intros H. unfold spread_set. rewrite fold_left_app.
  apply fold_set_add_absorbed. intros x Hx. apply fold_set_add_In. right. now apply H.
Qed.

(** ** Skills of a resume *)

Lemma pushed_skills_same (r r' : Resume) :
  experience r = experience r' -> projects r = projects r' ->
  pushed_skills r = pushed_skills r'.
Proof. intros He Hp. unfold pushed_skills. now rewrite He, Hp. Qed.

(** X29: the technical skills [extractSkills] returns hold no string
    twice and no blank string, and they hold every non-blank skill the
    resume declares, every technology found in an experience description
    and every non-blank project technology; [all] is the three lists one
    after the other. *)
Theorem extractSkills_collects_without_duplicates (r : Resume) :
  let result := fst (extractSkills (Some r)) in
  List.NoDup (sk_technical result) /\
  (forall s, In s (sk_technical result) -> not_blank s = true) /\
  (forall section declared s,
     skills r = Some section -> technical section = Some declared ->
     In s declared -> not_blank s = true -> In s (sk_technical result)) /\
  (forall s, In s (pushed_skills r) -> not_blank s = true -> In s (sk_technical result)) /\
  sk_all result = sk_technical result ++ sk_soft result ++ sk_languages result.
Proof.
  cbn [extractSkills fst sk_technical sk_all sk_soft sk_languages].
  split; [apply List.NoDup_filter, spread_set_NoDup|].
  split; [intros s Hs; now apply filter_In in Hs|].
  split; [|split; [|reflexivity]].
  - intros section declared s Hsec Hdecl Hin Hblank.
    apply filter_In. split; [|exact Hblank].
    apply spread_set_In, in_app_iff. left.
    rewrite Hsec. cbn [mbind option_bind]. rewrite Hdecl. exact Hin.
  - intros s Hin Hblank. apply filter_In. split; [|exact Hblank].
    apply spread_set_In, in_app_iff. now right.
Qed.

(** X30: [extractSkills] extends the resume's own technical array in
    place with everything it pushes; yet calling it again on the resume it
    left behind returns the same skills as the first call. *)
Theorem extractSkills_again_returns_same_skills (r : Resume) :
  fst (extractSkills (snd (extractSkills (Some r)))) = fst (extractSkills (Some r)) /\
  (forall section declared,
     skills r = Some section -> technical section = Some declared ->
     exists r' section',
       snd (extractSkills (Some r)) = Some r' /\ skills r' = Some section' /\
       technical section' = Some (declared ++ pushed_skills r)).
Proof.
  split.
  - cbn [extractSkills snd fst].
    destruct (skills r) as [section|] eqn:Hsec; cbn [mbind option_bind];
      [|rewrite Hsec; reflexivity].
    destruct (technical section) as [declared|] eqn:Hdecl;
      [|rewrite Hsec; cbn [mbind option_bind]; rewrite Hdecl; reflexivity].
    cbn [skills mbind option_bind technical soft languages default from_option id].
    unfold id.
    repeat match goal with
    | |- context [pushed_skills ?x] =>
        lazymatch x with
        | r => fail
        | _ => rewrite (pushed_skills_same x r eq_refl eq_refl)
        end
    end.
    rewrite (spread_set_repeated (declared ++ pushed_skills r) (pushed_skills r))
      by (intros x Hx; apply in_app_iff; now right).
    reflexivity.
  - intros section declared Hsec Hdecl. cbn [extractSkills snd].
    rewrite Hsec. cbn [mbind option_bind]. rewrite Hdecl.
    eexists _, _. split; [reflexivity|]. split; reflexivity.
Qed.

Example sample_resume_skills :
  sk_technical (fst (extractSkills (Some sample_resume)))
  = ["Python"; "SQL"; "Go"; "Django"; "PostgreSQL"; "Redis"]%string /\
  extractJobRoles (Some sample_resume) = ["backend engineer"; "engineer"; "lead"]%string /\
  extractExperienceLevel (Some sample_resume) = "junior"%string /\
  validateResume (Some sample_resume) = true /\
  ci_name (extractCandidateInfo (Some sample_resume)) = "Ada"%string /\
  ci_name (extractCandidateInfo None) = "Unknown"%string.
Proof. repeat split; vm_compute; reflexivity. Qed.

End ResumeMore.
